(** * BaltiCore storefront: the shop page controller ([assets/shop-page.js])

    A shallow embedding of the filtering, sorting, taxonomy, URL and
    pagination logic of the shop page, with the properties its
    specification states about them.

    Modelling conventions.
    - A JavaScript object used as a string-keyed dictionary ([parsedTags],
      [activeFilters], [categoryMap]) is a [gmap string _] of its own
      properties. Where the page reads or writes such an object under a
      name that [Object.prototype] defines ([Js.OBJECT_PROTOTYPE]), the
      inherited member shows: [parseTags] throws, [buildFilterGroups]
      makes no group and loses the value [__proto__], and a [collection]
      parameter that names such a member selects [undefined] under the
      key ["undefined"] ([collectionMapping], [Js.UNDEFINED]).
    - A JavaScript string is a [string] of code units below 256; its
      white space is what [trim] removes in that range ([Js.isWhiteSpace]).
    - A finite JavaScript number that carries a price is a rational [Q];
      the result of a comparator, which may be [NaN], is a [Number].
    - What the browser supplies ([Date.parse], local calendar arithmetic,
      [Array.prototype.sort]) is a [Host]; DOM elements are optional
      record fields. *)

From Stdlib Require Import Ascii String QArith Lqa.
From stdpp Require Import gmap strings list sorting fin_maps.

Set Warnings "-clear-no-such-hyp".

Close Scope Q_scope.
Open Scope string_scope.
Open Scope list_scope.
Open Scope Z_scope.

(** ** JavaScript primitives used by the page *)

Module Js.

(** A number as a comparator returns it: finite or [NaN]. *)
Inductive Number :=
| NaN
| Fin (q : Q).

Definition sub (a b : Number) : Number :=
  match a, b with
  | Fin x, Fin y => Fin (x - y)%Q
  | _, _ => NaN
  end.

(** The time value of [new Date(s)]: milliseconds since the epoch, or
    [NaN] for an invalid date. *)
Definition timeValue (t : option Z) : Number :=
  match t with
  | Some ms => Fin (inject_Z ms)
  | None => NaN
  end.

(** [SortCompare] of [Array.prototype.sort]: a [NaN] from the comparator
    counts as [+0]. *)
Definition SortCompare (v : Number) : comparison :=
  match v with
  | NaN => Eq
  | Fin q => (q ?= 0)%Q
  end.

(** [x > y] on finite numbers. *)
Definition gt (x y : Q) : bool :=
  match (x ?= y)%Q with
  | Gt => true
  | _ => false
  end.

(** [a || d] on an optional string: [undefined], [null] and the empty
    string are falsy. *)
Definition orElse (a : option string) (d : string) : string :=
  match a with
  | Some s => if decide (s = "") then d else s
  | None => d
  end.

(** [a || d] on an optional array: every array is truthy. *)
Definition orElseArr {A} (a : option (list A)) (d : list A) : list A :=
  match a with
  | Some l => l
  | None => d
  end.

(** [s.indexOf(c)] for a one-character needle; [None] stands for [-1]. *)
Fixpoint indexOf (c : ascii) (s : string) : option nat :=
  match s with
  | EmptyString => None
  | String a s' =>
      if decide (a = c) then Some 0%nat else S <$> indexOf c s'
  end.

(** [s.substring(n)]. *)
Fixpoint substringFrom (n : nat) (s : string) : string :=
  match n, s with
  | O, _ => s
  | S n', String _ s' => substringFrom n' s'
  | S _, EmptyString => EmptyString
  end.

(** The white space and line terminators of ECMAScript among the code
    units below 256: TAB, LF, VT, FF, CR, SP and NBSP. *)
Definition isWhiteSpace (a : ascii) : bool :=
  Ascii.is_space a || bool_decide (a = ascii_of_nat 160).

Fixpoint trimStart (s : string) : string :=
  match s with
  | String a s' => if isWhiteSpace a then trimStart s' else s
  | EmptyString => EmptyString
  end.

(** [s.trim()]. *)
Definition trim (s : string) : string :=
  String.rev (trimStart (String.rev (trimStart s))).

(** [l.slice(0, e)]: a negative end counts from the end of the array. *)
Definition slice0 {A} (l : list A) (e : Z) : list A :=
  if (e <? 0) then take (Z.to_nat (Z.of_nat (List.length l) + e)) l
  else take (Z.to_nat e) l.

(** The names of the members of [Object.prototype], which every plain
    object inherits; each is truthy when read. *)
Definition OBJECT_PROTOTYPE : list string :=
  [ "constructor"; "__defineGetter__"; "__defineSetter__"; "hasOwnProperty";
    "__lookupGetter__"; "__lookupSetter__"; "isPrototypeOf";
    "propertyIsEnumerable"; "toString"; "valueOf"; "__proto__";
    "toLocaleString" ].

(** The value [undefined] where it stands in a selection of
    [activeFilters] (see [applyCollection]). The empty string stands for
    it: like [undefined] it equals no value of a tag and no value of a
    checkbox ([parseTags] returns no empty value), [join] turns both into
    the empty text, and the empty string itself is alone in no selection
    (no parameter that [readURLParams] reads splits into the list of the
    empty string alone). The text of a pill, where the two would differ,
    is not part of the model. *)
Definition UNDEFINED : string := "".

(** ** [Array.prototype.sort] with a comparator

    ECMAScript fixes the result of [sort] for a consistent comparator
    only: it is then the one stable, sorted arrangement of the array,
    which [stableSort] computes. For any other comparator (one that
    returns [NaN] for some pair is such) the order is left to the
    engine. *)
Section sort.
Context {A : Type} (comparefn : A → A → Number).

Definition isNaN (v : Number) : bool :=
  match v with
  | NaN => true
  | Fin _ => false
  end.

(** [SortCompare(x, y)]. *)
Definition order (x y : A) : comparison := SortCompare (comparefn x y).

Definition before (x y : A) : bool :=
  match SortCompare (comparefn x y) with
  | Lt => true
  | _ => false
  end.

(** A consistent comparator for the elements of [l] (ECMA-262,
    [Array.prototype.sort]): it never returns [NaN] on them, and its
    signs make an equivalence and two transitive strict orders. *)
Definition consistent (l : list A) : Prop :=
  Forall (λ a, Forall (λ b, isNaN (comparefn a b) = false) l) l
  ∧ Forall (λ a, order a a = Eq) l
  ∧ Forall (λ a, Forall (λ b, order a b = Eq → order b a = Eq) l) l
  ∧ Forall (λ a, Forall (λ b, Forall (λ c,
      (order a b = Eq → order b c = Eq → order a c = Eq)
      ∧ (order a b = Lt → order b c = Lt → order a c = Lt)
      ∧ (order a b = Gt → order b c = Gt → order a c = Gt)) l) l) l.

#[global] Instance consistent_dec l : Decision (consistent l).
Proof. unfold consistent. apply _. Defined.

(** The stable sort: an element moves behind those that [SortCompare]
    puts strictly before it. *)
Fixpoint insert (x : A) (l : list A) : list A :=
  match l with
  | [] => [x]
  | y :: l' => if before y x then y :: insert x l' else x :: l
  end.

Definition stableSort (l : list A) : list A := foldr insert [] l.

(** The sort of V8 on an array of fewer than 64 elements
    ([third_party/v8/builtins/array-sort.tq]): [CountAndMakeRun] finds the
    run the array starts with, reversing it when it strictly descends, and
    [BinaryInsertionSort] inserts the other elements one by one. *)
Fixpoint runLength (isDescending : bool) (previousElement : A)
    (rest : list A) : nat :=
  match rest with
  | [] => 0%nat
  | currentElement :: rest' =>
      match order currentElement previousElement, isDescending with
      | Lt, true | Eq, false | Gt, false =>
          S (runLength isDescending currentElement rest')
      | _, _ => 0%nat
      end
  end.

(** The first run, made ascending, and the elements after it. *)
Definition countAndMakeRun (l : list A) : list A * list A :=
  match l with
  | elementHigh :: elementLow :: rest =>
      let isDescending := before elementLow elementHigh in
      let n := (2 + runLength isDescending elementLow rest)%nat in
      (if isDescending then reverse (take n l) else take n l, drop n l)
  | _ => (l, [])
  end.

(** The [while (left < right)] loop; it halves the interval, so the
    length of the array is fuel enough. *)
Fixpoint insertionPoint (fuel : nat) (pivot : A) (workArray : list A)
    (left right : nat) : nat :=
  match fuel with
  | O => left
  | S fuel' =>
      if (left <? right)%nat then
        let mid := (left + (right - left) / 2)%nat in
        match workArray !! mid with
        | Some element =>
            if before pivot element
            then insertionPoint fuel' pivot workArray left mid
            else insertionPoint fuel' pivot workArray (S mid) right
        | None => left
        end
      else left
  end.

Definition binaryInsert (workArray : list A) (pivot : A) : list A :=
  let left :=
    insertionPoint (length workArray) pivot workArray 0 (length workArray) in
  take left workArray ++ pivot :: drop left workArray.

Definition v8Sort (l : list A) : list A :=
  let '(run, rest) := countAndMakeRun l in foldl binaryInsert run rest.
End sort.

End Js.

(** ** The host environment *)

(** [Date_parse] is the browser's [Date.parse] ([None] for [NaN]);
    [thirtyDaysBefore t] is the instant [setDate(getDate() - 30)] reaches
    from [t] in the browser's local calendar; [Array_sort] is the engine's
    [Array.prototype.sort], of which ECMAScript says that it rearranges
    the array and, for a consistent comparator, sorts it stably. *)
Class Host := {
  Date_parse : string → option Z;
  thirtyDaysBefore : Z → Z;
  Array_sort : ∀ A : Type, (A → A → Js.Number) → list A → list A;
  Date_parse_empty : Date_parse "" = None;
  Array_sort_Permutation :
    ∀ (A : Type) (comparefn : A → A → Js.Number) (l : list A),
      Array_sort A comparefn l ≡ₚ l;
  Array_sort_consistent :
    ∀ (A : Type) (comparefn : A → A → Js.Number) (l : list A),
      Js.consistent comparefn l →
      Array_sort A comparefn l = Js.stableSort comparefn l
}.

Arguments Array_sort {_ _} _ _.

(** ** Data model *)

Record Variant := {
  v_title : string;
  v_available : bool
}.

(** The badge of a product; [NoBadge] is the [null] of the source. *)
Inductive Badge :=
| Sale
| New
| NoBadge.

(** An entry of the product feed, before normalisation. *)
Record RawProduct := {
  r_id : string;
  r_handle : string;
  r_name : string;
  r_vendor : option string;
  r_url : option string;
  r_price : Q;
  r_comparePrice : option Q;
  r_available : bool;
  r_image : option string;
  r_imageAlt : option string;
  r_tags : option (list string);
  r_type : option string;
  r_createdAt : option string;
  r_variants : option (list Variant)
}.

Record Product := {
  p_id : string;
  p_handle : string;
  p_name : string;
  p_vendor : string;
  p_url : string;
  p_price : Q;
  p_comparePrice : option Q;
  p_available : bool;
  p_image : string;
  p_imageAlt : option string;
  p_rawTags : list string;
  p_parsedTags : gmap string (list string);
  p_type : string;
  p_createdAt : string;
  p_variants : list Variant;
  p_featured : nat;
  p_badge : Badge
}.

(** ** Tag parser *)

Definition splitTag (tag : string) : string * string :=
  match Js.indexOf ":" tag with
  | Some (S i) =>
      (Js.trim (substring 0 (S i) tag), Js.trim (Js.substringFrom (S (S i)) tag))
  | _ => ("Other", Js.trim tag)
  end.

(** The callback of [tags.forEach]; [None] is the [TypeError] it throws
    when [category] names a member of [Object.prototype]: [result[category]]
    is then the inherited member, which is truthy and has no [indexOf]. *)
Definition parseTag (result : gmap string (list string)) (tag : string)
  : option (gmap string (list string)) :=
  let '(category, value) := splitTag tag in
  if decide (value = "") then Some result
  else if decide (category ∈ Js.OBJECT_PROTOTYPE) then None
  else
    let present := default [] (result !! category) in
    if decide (value ∈ present) then Some result
    else Some (<[category := present ++ [value]]> result).

(** [parseTags]: the first tag that throws ends the loop. *)
Definition parseTags (tags : list string)
  : option (gmap string (list string)) :=
  foldl (λ result tag, result ≫= λ r, parseTag r tag) (Some ∅) tags.

(** ** Catalog loader *)

Section loader.
Context `{Host}.

(** [p.comparePrice && p.comparePrice > p.price]: an absent or zero
    compare price is falsy. *)
Definition onSale (p : RawProduct) : bool :=
  match r_comparePrice p with
  | Some c => negb (Qeq_bool c 0%Q) && Js.gt c (r_price p)
  | None => false
  end.

(** [created > thirtyDaysAgo] on two dates; an invalid date is greater
    than nothing. *)
Definition createdAfter (created : option Z) (limit : Z) : bool :=
  match created with
  | Some t => bool_decide (limit < t)
  | None => false
  end.

Definition getBadge (now : Z) (p : RawProduct) : Badge :=
  if onSale p then Sale
  else
    match r_createdAt p with
    | Some s =>
        if decide (s = "") then NoBadge
        else if createdAfter (Date_parse s) (thirtyDaysBefore now) then New
        else NoBadge
    | None => NoBadge
    end.

Definition PLACEHOLDER_IMAGE : string :=
  "https://placehold.co/600x800/e8eaed/6b7280?text=No+Image".

(** [p.imageAlt || p.image || null]. *)
Definition imageAltOf (p : RawProduct) : option string :=
  match r_imageAlt p with
  | Some s => if decide (s = "") then
                match r_image p with
                | Some i => if decide (i = "") then None else Some i
                | None => None
                end
              else Some s
  | None =>
      match r_image p with
      | Some i => if decide (i = "") then None else Some i
      | None => None
      end
  end.

(** The callback of [raw.map]; [now] is the clock read by [getBadge].
    It throws when [parseTags] does. *)
Definition normalize (now : Z) (index : nat) (p : RawProduct)
  : option Product :=
  parsedTags ← parseTags (Js.orElseArr (r_tags p) []);
  Some
  {| p_id := r_id p;
     p_handle := r_handle p;
     p_name := r_name p;
     p_vendor := Js.orElse (r_vendor p) "";
     p_url := Js.orElse (r_url p) ("/products/" +:+ r_handle p);
     p_price := r_price p;
     p_comparePrice := r_comparePrice p;
     p_available := r_available p;
     p_image := Js.orElse (r_image p) PLACEHOLDER_IMAGE;
     p_imageAlt := imageAltOf p;
     p_rawTags := Js.orElseArr (r_tags p) [];
     p_parsedTags := parsedTags;
     p_type := Js.orElse (r_type p) "";
     p_createdAt := Js.orElse (r_createdAt p) "";
     p_variants := Js.orElseArr (r_variants p) [];
     p_featured := index;
     p_badge := getBadge now p |}.

(** What [JSON.parse(el.textContent)] does: throw or give the feed. *)
Inductive Parse :=
| SyntaxError
| Parsed (raw : list RawProduct).

Inductive Diagnostic :=
| FailedToParse.

(** [raw.map(...)]: the products, or [None] when the callback throws on
    some entry. *)
Definition normalizeAll (clock : nat → Z) (raw : list RawProduct)
  : option (list Product) :=
  mapM id (imap (λ index p, normalize (clock index) index p) raw).

(** [loadShopifyProducts]: [el] is [None] when the page has no
    [shopify-product-data] element; [clock i] is the time at which entry
    [i] is normalised. The [catch] clause takes what [JSON.parse] and the
    callback of [map] throw. The result carries what went to
    [console.error]. *)
Definition loadShopifyProducts (clock : nat → Z) (el : option Parse)
  : list Product * list Diagnostic :=
  match el with
  | None => ([], [])
  | Some SyntaxError => ([], [FailedToParse])
  | Some (Parsed raw) =>
      match normalizeAll clock raw with
      | Some products => (products, [])
      | None => ([], [FailedToParse])
      end
  end.
End loader.

(** ** Filter taxonomy builder *)

Definition PREFERRED_ORDER : list string :=
  [ "Industry"; "Protection"; "Protection Type"; "Cert Level";
    "Certification"; "Material"; "Gender"; "Season"; "Season & Feature";
    "Feature" ].

Definition HIDDEN_CATEGORIES : list string := [ "Other" ].

Record FilterGroup := {
  key : string;
  label : string;
  values : list string
}.

(** One round of the [for (var cat in tags)] loop on [categoryMap].
    The values of a category are the own keys of a plain object:
    [o['__proto__'] = true] makes no key. For a category that names a
    member of [Object.prototype], [categoryMap[cat]] is the inherited
    member: no own key is made for it, and the values are written to that
    member ([parseTags] returns no such category). *)
Definition addCategory (cat : string) (vals : list string)
    (categoryMap : gmap string (gset string)) : gmap string (gset string) :=
  if decide (cat ∈ HIDDEN_CATEGORIES) then categoryMap
  else if decide (cat ∈ Js.OBJECT_PROTOTYPE) then categoryMap
  else
    <[cat := default ∅ (categoryMap !! cat)
             ∪ list_to_set (filter (λ val, val ≠ "__proto__") vals)]>
      categoryMap.

Definition collectTags (categoryMap : gmap string (gset string))
    (product : Product) : gmap string (gset string) :=
  map_fold addCategory categoryMap (p_parsedTags product).

Definition categoriesOf (products : list Product) : gmap string (gset string) :=
  foldl collectTags ∅ products.

(** [Object.keys(o).sort()]: the keys of an object are distinct, so the
    default sort has one possible result. *)
Definition sortedKeys (keys : gset string) : list string :=
  merge_sort String.le (elements keys).

Definition groupOf (categoryMap : gmap string (gset string)) (cat : string)
  : FilterGroup :=
  {| key := cat;
     label := cat;
     values := sortedKeys (default ∅ (categoryMap !! cat)) |}.

Definition buildFilterGroups (products : list Product) : list FilterGroup :=
  let categoryMap := categoriesOf products in
  let preferred :=
    filter (λ cat, is_Some (categoryMap !! cat)) PREFERRED_ORDER in
  let used : gset string := list_to_set preferred in
  let remaining := filter (λ cat, cat ∉ used) (sortedKeys (dom categoryMap)) in
  (groupOf categoryMap <$> preferred) ++ (groupOf categoryMap <$> remaining).

(** ** Collection aliases *)

Definition COLLECTION_MAP : gmap string (string * string) :=
  list_to_map
    [ ("hi-vis", ("Protection", "Hi-Vis"));
      ("welding", ("Industry", "Welding"));
      ("chemical", ("Industry", "Chemical"));
      ("oil-gas", ("Industry", "Oil & Gas"));
      ("manufacturing", ("Industry", "Manufacturing"));
      ("automotive", ("Industry", "Automotive"));
      ("construction", ("Industry", "Construction"));
      ("railway", ("Industry", "Railway"));
      ("electricians", ("Industry", "Electricians"));
      ("flame-resistant", ("Protection", "Flame Resistant"));
      ("arc-flash", ("Protection", "Arc Flash"));
      ("winter", ("Season", "Winter"));
      ("summer", ("Season", "Summer")) ].

(** ** State *)

Definition ITEMS_PER_PAGE : Z := 12.

Record State := {
  activeFilters : gmap string (list string);
  sort : string;
  collection : option string;
  highlightProduct : option string;
  currentPage : Z
}.

Definition initialState : State :=
  {| activeFilters := ∅;
     sort := "featured";
     collection := None;
     highlightProduct := None;
     currentPage := 1 |}.

(** ** Filter logic *)

Definition productMatchesGroup (product : Product) (groupKey : string)
    (selectedValues : list string) : bool :=
  let productValues := default [] (p_parsedTags product !! groupKey) in
  existsb (λ v, bool_decide (v ∈ productValues)) selectedValues.

(** The keys pushed on [activeKeys]: those with a non-empty selection. *)
Definition activeKeysOf (filters : gmap string (list string)) : list string :=
  (filter (λ kv, kv.2 ≠ []) (map_to_list filters)).*1.

Definition filterProducts (products : list Product)
    (filters : gmap string (list string)) : list Product :=
  let activeKeys := activeKeysOf filters in
  if decide (activeKeys = []) then products
  else
    filter
      (λ product,
         forallb
           (λ key, productMatchesGroup product key (default [] (filters !! key)))
           activeKeys = true)
      products.

Definition countForValue (allProducts : list Product)
    (currentFilters : gmap string (list string)) (groupKey value : string)
  : nat :=
  let otherFilters :=
    filter (λ kv, kv.1 ≠ groupKey ∧ kv.2 ≠ []) currentFilters in
  let baseFiltered := filterProducts allProducts otherFilters in
  length
    (filter (λ p, value ∈ default [] (p_parsedTags p !! groupKey)) baseFiltered).

Definition totalActiveCount (filters : gmap string (list string)) : nat :=
  map_fold (λ _ vs count, (count + length vs)%nat) 0%nat filters.

(** ** Sorting *)

Section sorting.
Context `{Host}.

Definition createdTime (p : Product) : Js.Number :=
  Js.timeValue (Date_parse (p_createdAt p)).

Definition featuredOf (p : Product) : Q := inject_Z (Z.of_nat (p_featured p)).

(** The comparator the [switch] of [sortProducts] hands to [sort]. *)
Definition comparator (sortKey : string) (a b : Product) : Js.Number :=
  if decide (sortKey = "price-asc") then Js.Fin (p_price a - p_price b)%Q
  else if decide (sortKey = "price-desc") then Js.Fin (p_price b - p_price a)%Q
  else if decide (sortKey = "newest") then Js.sub (createdTime b) (createdTime a)
  else Js.Fin (featuredOf a - featuredOf b)%Q.

(** The contents of [sorted] when [sortProducts] returns. *)
Definition sortedProducts (products : list Product) (sortKey : string)
  : list Product :=
  Array_sort (comparator sortKey) products.

(** Arrays live in a store; [sortProducts] receives and returns
    references. *)
Definition slice (σ : gmap positive (list Product)) (a : positive)
  : option (positive * gmap positive (list Product)) :=
  l ← σ !! a;
  let b := fresh (dom σ) in
  Some (b, <[b := l]> σ).

Definition sortInPlace (comparefn : Product → Product → Js.Number)
    (σ : gmap positive (list Product)) (a : positive)
  : gmap positive (list Product) :=
  alter (Array_sort comparefn) a σ.

Definition sortProducts (σ : gmap positive (list Product))
    (products : positive) (sortKey : string)
  : option (positive * gmap positive (list Product)) :=
  '(sorted, σ') ← slice σ products;
  Some (sorted, sortInPlace (comparator sortKey) σ' sorted).
End sorting.

(** ** URL parameters *)

(** A [URLSearchParams] object is its list of name and value pairs; the
    query string of the page is that list, [toString] and the constructor
    being inverse to each other on such lists. *)
Module URLSearchParams.
Abbreviation t := (list (string * string)).

Definition get (name : string) (params : t) : option string :=
  snd <$> List.find (λ nv, bool_decide (nv.1 = name)) params.

Fixpoint set (name value : string) (params : t) : t :=
  match params with
  | [] => [(name, value)]
  | (n, v) :: rest =>
      if decide (n = name)
      then (name, value) :: filter (λ nv, nv.1 ≠ name) rest
      else (n, v) :: set name value rest
  end.
End URLSearchParams.

(** [s.split(c)] for a one-character separator. *)
Fixpoint split (c : ascii) (s : string) : list string :=
  match s with
  | EmptyString => [ "" ]
  | String a s' =>
      if decide (a = c) then "" :: split c s'
      else
        match split c s' with
        | h :: t => String a h :: t
        | [] => [ String a "" ]
        end
  end.

(** [o || null] on what [params.get] returns. *)
Definition nonEmpty (o : option string) : option string :=
  match o with
  | Some s => if decide (s = "") then None else Some s
  | None => None
  end.

Definition readFilter (params : URLSearchParams.t)
    (filters : gmap string (list string)) (group : FilterGroup)
  : gmap string (list string) :=
  match nonEmpty (URLSearchParams.get (key group) params) with
  | Some val => <[key group := split "," val]> filters
  | None => filters
  end.

(** [COLLECTION_MAP[collection]], if truthy, with its [key] and [value].
    For a collection that names a member of [Object.prototype] this is
    the inherited member, whose [key] and [value] are [undefined]; as a
    property name [undefined] is the string ["undefined"]. *)
Definition collectionMapping (collection : string) : option (string * string) :=
  match COLLECTION_MAP !! collection with
  | Some mapping => Some mapping
  | None =>
      if decide (collection ∈ Js.OBJECT_PROTOTYPE)
      then Some ("undefined", Js.UNDEFINED)
      else None
  end.

(** The collection pre-filter of [readURLParams]. *)
Definition applyCollection (collection : option string)
    (filters : gmap string (list string)) : gmap string (list string) :=
  match collection ≫= collectionMapping with
  | Some (k, v) =>
      match filters !! k with
      | Some (_ :: _) => filters
      | _ => <[k := [v]]> filters
      end
  | None => filters
  end.

Definition readURLParams (FILTER_GROUPS : list FilterGroup)
    (params : URLSearchParams.t) (state : State) : State :=
  let collection := nonEmpty (URLSearchParams.get "collection" params) in
  {| collection := collection;
     highlightProduct := nonEmpty (URLSearchParams.get "product" params);
     sort := Js.orElse (URLSearchParams.get "sort" params) "featured";
     activeFilters :=
       applyCollection collection (foldl (readFilter params) ∅ FILTER_GROUPS);
     currentPage := currentPage state |}.

Definition writeFilter (state : State) (params : URLSearchParams.t)
    (group : FilterGroup) : URLSearchParams.t :=
  match activeFilters state !! key group with
  | Some (v :: vs) =>
      URLSearchParams.set (key group) (String.concat "," (v :: vs)) params
  | _ => params
  end.

(** [writeURLParams]: the parameters that replace the query string. *)
Definition writeURLParams (FILTER_GROUPS : list FilterGroup) (state : State)
  : URLSearchParams.t :=
  let params := [] in
  let params :=
    match nonEmpty (collection state) with
    | Some c => URLSearchParams.set "collection" c params
    | None => params
    end in
  let params :=
    if decide (sort state = "") then params
    else if decide (sort state = "featured") then params
    else URLSearchParams.set "sort" (sort state) params in
  foldl (writeFilter state) params FILTER_GROUPS.

(** ** Rendering and the update cycle *)

(** The part of the document [renderGrid] writes: the cards of the grid
    and whether the grid, the empty state and the pagination block (with
    the load-more control) are displayed. An absent element is [None]. *)
Record Grid := {
  cards : list Product;
  gridShown : bool
}.

Record Dom := {
  shopProductGrid : option Grid;
  shopEmptyState : option bool;
  shopPagination : option bool;
  shopPaginationInfo : option (nat * nat)
}.

Definition consumeHighlight (state : State) : State :=
  match nonEmpty (highlightProduct state) with
  | Some _ =>
      {| activeFilters := activeFilters state;
         sort := sort state;
         collection := collection state;
         highlightProduct := None;
         currentPage := currentPage state |}
  | None => state
  end.

Definition renderGrid (dom : Dom) (state : State) (products : list Product)
  : Dom * State :=
  match shopProductGrid dom with
  | None => (dom, state)
  | Some _ =>
      if decide (length products = 0%nat) then
        ({| shopProductGrid := Some {| cards := []; gridShown := false |};
            shopEmptyState := (λ _, true) <$> shopEmptyState dom;
            shopPagination := (λ _, false) <$> shopPagination dom;
            shopPaginationInfo := shopPaginationInfo dom |},
         state)
      else
        let visibleProducts :=
          Js.slice0 products (currentPage state * ITEMS_PER_PAGE) in
        let hasMore := bool_decide (length visibleProducts < length products)%nat in
        ({| shopProductGrid :=
              Some {| cards := visibleProducts; gridShown := true |};
            shopEmptyState := (λ _, false) <$> shopEmptyState dom;
            shopPagination := (λ _, hasMore) <$> shopPagination dom;
            shopPaginationInfo :=
              match shopPagination dom with
              | Some _ =>
                  (λ _, (length visibleProducts, length products))
                    <$> shopPaginationInfo dom
              | None => shopPaginationInfo dom
              end |},
         consumeHighlight state)
  end.

Section update.
Context `{Host}.
Context (PRODUCTS : list Product) (FILTER_GROUPS : list FilterGroup).

(** [update]: the header, filter and pill renderers write other parts of
    the document and read the state only. *)
Definition update (dom : Dom) (state : State)
  : Dom * State * URLSearchParams.t :=
  let filtered := filterProducts PRODUCTS (activeFilters state) in
  let sorted := sortedProducts filtered (sort state) in
  let '(dom', state') := renderGrid dom state sorted in
  (dom', state', writeURLParams FILTER_GROUPS state').

Definition clearAllFilters (dom : Dom) (state : State)
  : Dom * State * URLSearchParams.t :=
  update dom
    {| activeFilters := ∅;
       sort := sort state;
       collection := None;
       highlightProduct := highlightProduct state;
       currentPage := 1 |}.
End update.

(** The state change of the [change] handler of a filter checkbox, which
    [update] follows; [groupKey] and [value] are what the handler reads
    from the attributes [data-group] and [data-value] of the box. (For a
    [groupKey] that names a member of [Object.prototype], which no filter
    group has as its key, the handler throws.) *)
Definition onCheckboxChange (groupKey value : string) (checked : bool)
    (state : State) : State :=
  let current := default [] (activeFilters state !! groupKey) in
  let next :=
    if checked
    then if decide (value ∈ current) then current else current ++ [value]
    else filter (λ v, v ≠ value) current in
  {| activeFilters := <[groupKey := next]> (activeFilters state);
     sort := sort state;
     collection := collection state;
     highlightProduct := highlightProduct state;
     currentPage := 1 |}.

(** ** Predicates of the specification *)

(** What [filterProducts] asks of a product: every group of the filters
    with a non-empty selection matches it. *)
Definition passesFilters (filters : gmap string (list string))
    (product : Product) : Prop :=
  map_Forall
    (λ k vs, vs ≠ [] → productMatchesGroup product k vs = true) filters.

#[local] Instance passesFilters_dec filters product :
  Decision (passesFilters filters product).
Proof. unfold passesFilters. apply _. Defined.

(** The filters [countForValue] applies for a value of group [G]: the
    non-empty selections of the other groups. *)
Definition passesOthers (filters : gmap string (list string)) (G : string)
    (product : Product) : Prop :=
  map_Forall
    (λ k vs, k ≠ G → vs ≠ [] → productMatchesGroup product k vs = true)
    filters.

#[local] Instance passesOthers_dec filters G product :
  Decision (passesOthers filters G product).
Proof. unfold passesOthers. apply _. Defined.

Definition carries (G v : string) (product : Product) : Prop :=
  v ∈ default [] (p_parsedTags product !! G).

#[local] Instance carries_dec G v product : Decision (carries G v product).
Proof. unfold carries. apply _. Defined.

(** Two products tie when the comparator gives [0] or [NaN] for them. *)
Definition ties `{Host} (sortKey : string) (a b : Product) : Prop :=
  Js.SortCompare (comparator sortKey a b) = Eq.

(** The timestamp of a product if an unparseable [createdAt] counted as
    the epoch. *)
Definition epochTime `{Host} (p : Product) : Z :=
  default 0 (Date_parse (p_createdAt p)).

Definition parseable `{Host} (p : Product) : Prop :=
  is_Some (Date_parse (p_createdAt p)).

#[local] Instance Qeq_decision (x y : Q) : Decision (x == y)%Q := Qeq_dec x y.

(** The conditions under which a feed entry is on sale, and new at the
    instant [now]. *)
Definition saleCondition (p : RawProduct) : Prop :=
  ∃ c, r_comparePrice p = Some c ∧ (r_price p < c)%Q.

(** The same with a compare price that is not zero. *)
Definition markedDown (p : RawProduct) : Prop :=
  ∃ c, r_comparePrice p = Some c ∧ ¬ (c == 0)%Q ∧ (r_price p < c)%Q.

Definition newCondition `{Host} (now : Z) (p : RawProduct) : Prop :=
  ∃ s t, r_createdAt p = Some s ∧ Date_parse s = Some t
         ∧ thirtyDaysBefore now < t.

(** The categories [buildFilterGroups] makes a group for. *)
Definition listed (cat : string) : Prop :=
  (cat ∉ HIDDEN_CATEGORIES) ∧ (cat ∉ Js.OBJECT_PROTOTYPE).

(** A category occurs in the catalog; a value is seen under a category. *)
Definition occursIn (products : list Product) (cat : string) : Prop :=
  ∃ p, p ∈ products ∧ is_Some (p_parsedTags p !! cat).

Definition seenUnder (products : list Product) (cat v : string) : Prop :=
  ∃ p vs, p ∈ products ∧ p_parsedTags p !! cat = Some vs ∧ v ∈ vs.

(** A value that survives [join(',')] followed by [split(',')]. *)
Definition commaFree (v : string) : Prop := Js.indexOf "," v = None.

Definition plainValue (v : string) : Prop := v ≠ "" ∧ commaFree v.

#[local] Instance plainValue_dec v : Decision (plainValue v).
Proof. unfold plainValue, commaFree. apply _. Defined.

(** The names [readURLParams] reads besides the filter groups. *)
Definition RESERVED_PARAMS : list string := [ "collection"; "product"; "sort" ].

(** The selection [writeURLParams] emits for a group key. *)
Definition selection (state : State) (k : string) : option (list string) :=
  match activeFilters state !! k with
  | Some (v :: vs) => Some (v :: vs)
  | _ => None
  end.

(** ** Example data *)

(** [Date.parse] on the date-only strings the examples use; every other
    string is read as an invalid date. Calendar days have 86400000 ms (a
    local time without clock changes). *)
Definition exampleDateParse (s : string) : option Z :=
  if decide (s = "2024-01-01") then Some 1704067200000
  else if decide (s = "2025-01-01") then Some 1735689600000
  else None.

(** The sort of V8 on the short arrays of the examples: V8 conforms to
    ECMAScript, so a consistent comparator gives the stable sort; any
    other comparator gives what its insertion sort makes of it. (The
    insertion sort gives the stable sort in the first case too, so that
    this is [Js.v8Sort] throughout.) *)
Definition exampleSort {A : Type} (comparefn : A → A → Js.Number)
    (l : list A) : list A :=
  if decide (Js.consistent comparefn l) then Js.stableSort comparefn l
  else Js.v8Sort comparefn l.

#[local, refine] Instance exampleHost : Host :=
  {| Date_parse := exampleDateParse;
     thirtyDaysBefore := λ t, t - 30 * 86400000;
     Array_sort := @exampleSort;
     Date_parse_empty := eq_refl |}.
Proof.
  - intros A comparefn l. unfold exampleSort.
    destruct (decide (Js.consistent comparefn l)) as [_|_].
    + induction l as [|x l IH]; [done|]. simpl.
      rewrite <-IH at 2. generalize (Js.stableSort comparefn l). clear.
      intros l. induction l as [|y l IH]; [done|]. simpl.
      destruct (Js.before comparefn y x); [|done].
      rewrite IH. apply Permutation_swap.
    + unfold Js.v8Sort.
      assert (∀ rest run : list A,
        foldl (Js.binaryInsert comparefn) run rest ≡ₚ run ++ rest) as Hfold.
      { clear. intros rest. induction rest as [|p rest IH]; intros run; simpl.
        - by rewrite app_nil_r.
        - rewrite IH. unfold Js.binaryInsert.
          rewrite <-(Permutation_middle _ _ p), take_drop. simpl.
          apply Permutation_middle. }
      destruct (Js.countAndMakeRun comparefn l) as [run rest] eqn:Hrun.
      rewrite Hfold.
      destruct l as [|x0 [|x1 l]]; simpl in Hrun;
        [by inversion Hrun|by inversion Hrun|].
      injection Hrun as <- <-.
      destruct (Js.before comparefn x1 x0).
      * rewrite reverse_Permutation. simpl. by rewrite take_drop.
      * simpl. by rewrite take_drop.
  - intros A comparefn l Hl. unfold exampleSort. by rewrite decide_True.
Defined.

Definition exampleRaw (price : Q) (comparePrice : option Q)
    (createdAt : option string) : RawProduct :=
  {| r_id := "1";
     r_handle := "boot";
     r_name := "Boot";
     r_vendor := None;
     r_url := None;
     r_price := price;
     r_comparePrice := comparePrice;
     r_available := true;
     r_image := None;
     r_imageAlt := None;
     r_tags := Some ["Industry: Welding"];
     r_type := None;
     r_createdAt := createdAt;
     r_variants := None |}.

Definition exampleProduct (id : string) (price : Q) (createdAt : string)
    (featured : nat) (tags : list string) : Product :=
  {| p_id := id;
     p_handle := id;
     p_name := id;
     p_vendor := "";
     p_url := "/products/" +:+ id;
     p_price := price;
     p_comparePrice := None;
     p_available := true;
     p_image := PLACEHOLDER_IMAGE;
     p_imageAlt := None;
     p_rawTags := tags;
     p_parsedTags := default ∅ (parseTags tags);
     p_type := "";
     p_createdAt := createdAt;
     p_variants := [];
     p_featured := featured;
     p_badge := NoBadge |}.

Definition undated : Product := exampleProduct "u" 10 "" 0 [].
Definition dated2024 : Product := exampleProduct "d" 20 "2024-01-01" 1 [].
Definition dated2025 : Product := exampleProduct "e" 30 "2025-01-01" 2 [].
Definition dated2025' : Product := exampleProduct "f" 40 "2025-01-01" 3 [].
Definition menBoot : Product :=
  exampleProduct "d" 20 "2024-01-01" 0 ["Gender: Men"].
Definition weldingGlove : Product :=
  exampleProduct "w" 10 "2024-01-01" 0 ["Industry: Welding"].

(** The three products of the specification's scenario. *)
Definition productA : Product :=
  exampleProduct "A" 10 "2024-01-01" 0 ["Industry: Welding"].
Definition productB : Product :=
  exampleProduct "B" 20 "2024-01-01" 1 ["Industry: Chemical"].
Definition productC : Product :=
  exampleProduct "C" 15 "2024-01-01" 2 ["Industry: Welding"; "Gender: Men"].

Definition exampleGroups : list FilterGroup := buildFilterGroups [weldingGlove].

(** A feed entry with the given tags. *)
Definition taggedRaw (tags : list string) : RawProduct :=
  {| r_id := "1";
     r_handle := "boot";
     r_name := "Boot";
     r_vendor := None;
     r_url := None;
     r_price := 10;
     r_comparePrice := None;
     r_available := true;
     r_image := None;
     r_imageAlt := None;
     r_tags := Some tags;
     r_type := None;
     r_createdAt := None;
     r_variants := None |}.

(** A document with every element [renderGrid] looks up. *)
Definition exampleDom : Dom :=
  {| shopProductGrid := Some {| cards := []; gridShown := true |};
     shopEmptyState := Some false;
     shopPagination := Some false;
     shopPaginationInfo := Some (0%nat, 0%nat) |}.

(** The state after loading [?product=d&Gender=Women]. *)
Definition exampleHighlightState : State :=
  {| activeFilters := {[ "Gender" := ["Women"] ]};
     sort := "featured";
     collection := None;
     highlightProduct := Some "d";
     currentPage := 1 |}.

(** The state after loading [?collection=welding] and unticking
    [Welding]. *)
Definition exampleUntickedState : State :=
  {| activeFilters := {[ "Industry" := [] ]};
     sort := "featured";
     collection := Some "welding";
     highlightProduct := None;
     currentPage := 1 |}.

Definition exampleCanonicalState : State :=
  {| activeFilters := {[ "Industry" := ["Welding"] ]};
     sort := "newest";
     collection := Some "welding";
     highlightProduct := Some "w";
     currentPage := 3 |}.

(** ** Further parts of the page *)

(** The test [hasSale] of [renderProductCard] and [openQuickView]. *)
Definition hasSale (product : Product) : bool :=
  match p_comparePrice product with
  | Some c => negb (Qeq_bool c 0%Q) && Js.gt c (p_price product)
  | None => false
  end.

(** A checkbox of the filter sidebar, as [renderFilterGroups] writes it. *)
Record Checkbox := {
  cb_group : string;
  cb_value : string;
  cb_count : nat;
  cb_checked : bool;
  cb_disabled : bool
}.

Definition isChecked (state : State) (groupKey value : string) : bool :=
  match activeFilters state !! groupKey with
  | Some selected => bool_decide (value ∈ selected)
  | None => false
  end.

Definition renderCheckbox (PRODUCTS : list Product) (state : State)
    (group : FilterGroup) (value : string) : Checkbox :=
  let count := countForValue PRODUCTS (activeFilters state) (key group) value in
  let checked := isChecked state (key group) value in
  {| cb_group := key group;
     cb_value := value;
     cb_count := count;
     cb_checked := checked;
     cb_disabled := bool_decide (count = 0%nat) && negb checked |}.

(** [renderFilterGroups]: for every group whether it starts open (the
    first three do) and its checkboxes. *)
Definition renderFilterGroups (PRODUCTS : list Product)
    (FILTER_GROUPS : list FilterGroup) (state : State)
  : list (bool * list Checkbox) :=
  imap
    (λ idx group,
       (bool_decide (idx < 3)%nat,
        renderCheckbox PRODUCTS state group <$> values group))
    FILTER_GROUPS.

(** The pills of [renderActivePills], as (group key, value) pairs; a pill
    exists only for a key with a selection. *)
Definition activePills (FILTER_GROUPS : list FilterGroup) (state : State)
  : list (string * string) :=
  FILTER_GROUPS ≫= λ group,
    match activeFilters state !! key group with
    | Some selected => (λ value, (key group, value)) <$> selected
    | None => []
    end.

(** The state change of the [click] handler of a pill. *)
Definition onPillClick (groupKey value : string) (state : State) : State :=
  {| activeFilters :=
       <[groupKey :=
           filter (λ v, v ≠ value)
             (default [] (activeFilters state !! groupKey))]>
         (activeFilters state);
     sort := sort state;
     collection := collection state;
     highlightProduct := highlightProduct state;
     currentPage := 1 |}.

(** The [change] handler of a filter checkbox as a whole. *)
Definition checkboxChanged `{Host} (PRODUCTS : list Product)
    (FILTER_GROUPS : list FilterGroup) (dom : Dom) (groupKey value : string)
    (checked : bool) (state : State) : Dom * State * URLSearchParams.t :=
  update PRODUCTS FILTER_GROUPS dom
    (onCheckboxChange groupKey value checked state).

(** The [click] handler of the load-more button. *)
Definition onLoadMore `{Host} (PRODUCTS : list Product) (dom : Dom)
    (state : State) : Dom * State :=
  let state :=
    {| activeFilters := activeFilters state;
       sort := sort state;
       collection := collection state;
       highlightProduct := highlightProduct state;
       currentPage := currentPage state + 1 |} in
  let filtered := filterProducts PRODUCTS (activeFilters state) in
  let sorted := sortedProducts filtered (sort state) in
  renderGrid dom state sorted.

(** [PRODUCTS.find(p => p.id === productId)]. *)
Definition findProduct (PRODUCTS : list Product) (productId : string)
  : option Product :=
  List.find (λ p, bool_decide (p_id p = productId)) PRODUCTS.

(** What [init] leaves behind: the catalog, the filter groups, the
    document, the state, the query string written by [update], the product
    whose quick view is scheduled, and what went to [console.error]. *)
Record Page := {
  pg_products : list Product;
  pg_groups : list FilterGroup;
  pg_dom : Dom;
  pg_state : State;
  pg_query : URLSearchParams.t;
  pg_quickView : option string;
  pg_diagnostics : list Diagnostic
}.

Definition init `{Host} (clock : nat → Z) (el : option Parse)
    (search : URLSearchParams.t) (dom : Dom) : Page :=
  let '(PRODUCTS, diagnostics) := loadShopifyProducts clock el in
  let FILTER_GROUPS := buildFilterGroups PRODUCTS in
  let state := readURLParams FILTER_GROUPS search initialState in
  let '(dom, state, query) := update PRODUCTS FILTER_GROUPS dom state in
  {| pg_products := PRODUCTS;
     pg_groups := FILTER_GROUPS;
     pg_dom := dom;
     pg_state := state;
     pg_query := query;
     pg_quickView :=
       match nonEmpty (highlightProduct state) with
       | Some pid =>
           match findProduct PRODUCTS pid with
           | Some _ => Some pid
           | None => None
           end
       | None => None
       end;
     pg_diagnostics := diagnostics |}.

(** ** Further predicates *)

(** A string that neither starts nor ends with white space. *)
Definition startsPlain (s : string) : Prop :=
  match s with
  | String a _ => Js.isWhiteSpace a = false
  | EmptyString => True
  end.

Definition trimmed (s : string) : Prop :=
  startsPlain s ∧ startsPlain (String.rev s).

(** The category and value [parseTags] reads from a tag, if any. *)
Definition tagEntry (tag : string) : option (string * string) :=
  if decide ((splitTag tag).2 = "") then None else Some (splitTag tag).

(** Two selections with the same values, whatever their order and
    repetitions; an absent key counts as the empty selection. *)
Definition sameSelections (F F' : gmap string (list string)) : Prop :=
  ∀ k v, v ∈ default [] (F !! k) ↔ v ∈ default [] (F' !! k).

(** The parameter list [writeURLParams] builds when every group key is
    written once. *)
Definition expectedParams (FILTER_GROUPS : list FilterGroup) (state : State)
  : URLSearchParams.t :=
  match nonEmpty (collection state) with
  | Some c => [("collection", c)]
  | None => []
  end
  ++ (if decide (sort state = "") then []
      else if decide (sort state = "featured") then []
      else [("sort", sort state)])
  ++ omap
       (λ group,
          (λ vs, (key group, String.concat "," vs))
            <$> selection state (key group))
       FILTER_GROUPS.

(** A query string in the form [writeURLParams] gives it: the collection
    if there is one, then the sort if it is not the default, then, in the
    order of the filter groups, one parameter for each group that [val]
    gives a value; no value is empty, a collection that stands for a value
    of a filter group comes with a parameter for that group, and no
    collection names a member of [Object.prototype]. *)
Definition optionalParam (name : string) (value : option string)
  : URLSearchParams.t :=
  match value with
  | Some v => [(name, v)]
  | None => []
  end.

Definition groupParams (val : string → option string)
    (FILTER_GROUPS : list FilterGroup) : URLSearchParams.t :=
  omap (λ group, (λ v, (key group, v)) <$> val (key group)) FILTER_GROUPS.

Definition canonicalQuery (FILTER_GROUPS : list FilterGroup)
    (params : URLSearchParams.t) : Prop :=
  ∃ (collection sort : option string) (val : string → option string),
    params = optionalParam "collection" collection
             ++ optionalParam "sort" sort
             ++ groupParams val FILTER_GROUPS
    ∧ collection ≠ Some ""
    ∧ sort ≠ Some "" ∧ sort ≠ Some "featured"
    ∧ (∀ k, val k ≠ Some "")
    ∧ (∀ c, collection = Some c → c ∉ Js.OBJECT_PROTOTYPE)
    ∧ (∀ c k v, collection = Some c → COLLECTION_MAP !! c = Some (k, v) →
         k ∈ key <$> FILTER_GROUPS → is_Some (val k)).

(** The keys that fall through to the comparator on [featured]. *)
Definition byFeatured (sortKey : string) : Prop :=
  sortKey ≠ "price-asc" ∧ sortKey ≠ "price-desc" ∧ sortKey ≠ "newest".

(** The lists of a mapping are non-empty, without repetition and without
    the empty string. *)
Definition tagsWellFormed (m : gmap string (list string)) : Prop :=
  ∀ cat vs, m !! cat = Some vs → vs ≠ [] ∧ NoDup vs ∧ "" ∉ vs.

(** * Properties *)

(** ** Filtering *)

Lemma elem_of_activeKeysOf (filters : gmap string (list string)) k :
  k ∈ activeKeysOf filters ↔ ∃ vs, filters !! k = Some vs ∧ vs ≠ [].
Proof.
  unfold activeKeysOf. rewrite list_elem_of_fmap. split.
  - intros [[k' vs] [-> [Hne Hin]%list_elem_of_filter]].
    apply elem_of_map_to_list in Hin. eauto.
  - intros (vs & Hk & Hne). exists (k, vs). split; [done|].
    apply list_elem_of_filter. split; [done|]. by apply elem_of_map_to_list.
Qed.

Lemma activeKeys_passes filters product :
  forallb
    (λ k, productMatchesGroup product k (default [] (filters !! k)))
    (activeKeysOf filters) = true
  ↔ passesFilters filters product.
Proof.
  rewrite forallb_forall. unfold passesFilters. rewrite map_Forall_lookup. split.
  - intros Hall k vs Hk Hne.
    specialize (Hall k). rewrite Hk in Hall. apply Hall.
    apply list_elem_of_In, elem_of_activeKeysOf. eauto.
  - intros Hall k [vs [Hk Hne]]%list_elem_of_In%elem_of_activeKeysOf.
    rewrite Hk. simpl. eauto.
Qed.

Lemma filter_all {A} (P : A → Prop) `{!∀ x, Decision (P x)} (l : list A) :
  (∀ x, x ∈ l → P x) → filter P l = l.
Proof.
  induction l as [|x l IH]; intros Hall; [done|].
  rewrite filter_cons_True by (apply Hall; left).
  f_equal. apply IH. intros y Hy. apply Hall. by right.
Qed.

Lemma filter_none {A} (P : A → Prop) `{!∀ x, Decision (P x)} (l : list A) :
  (∀ x, x ∈ l → ¬ P x) → filter P l = [].
Proof.
  induction l as [|x l IH]; intros Hall; [done|].
  rewrite filter_cons_False by (apply Hall; left).
  apply IH. intros y Hy. apply Hall. by right.
Qed.

Lemma StronglySorted_filter {A} (R : relation A) (P : A → Prop)
    `{!∀ x, Decision (P x)} l :
  StronglySorted R l → StronglySorted R (filter P l).
Proof.
  induction 1 as [|x l Hs IH Hall]; [constructor|].
  rewrite filter_cons. case_decide; [|done].
  constructor; [done|]. rewrite Forall_forall in Hall |- *.
  intros y [_ Hy]%list_elem_of_filter. auto.
Qed.

Lemma filterProducts_filter products filters :
  filterProducts products filters = filter (passesFilters filters) products.
Proof.
  unfold filterProducts. case_decide as Hkeys.
  - symmetry. apply filter_all. intros p _ k vs Hk Hne.
    assert (k ∈ activeKeysOf filters) as Hin
      by (apply elem_of_activeKeysOf; eauto).
    rewrite Hkeys in Hin. by apply elem_of_nil in Hin.
  - apply list_filter_iff. intros p. apply activeKeys_passes.
Qed.

(** C1. [filterProducts(P, F)] keeps, in the order of [P], exactly the
    products that every group of [F] with a non-empty selection matches
    (AND across groups, OR within a group: a group matches when one of its
    selected values is among the product's values for it), and it is [P]
    itself when no group of [F] has a non-empty selection. *)
Theorem C1_filterProducts_spec (P : list Product) (F : gmap string (list string)) :
  filterProducts P F = filter (passesFilters F) P
  ∧ filterProducts P F `sublist_of` P
  ∧ (∀ p, p ∈ filterProducts P F ↔
          p ∈ P ∧ ∀ k vs, F !! k = Some vs → vs ≠ [] →
                          productMatchesGroup p k vs = true)
  ∧ (∀ p k vs, productMatchesGroup p k vs = true ↔
               ∃ v, v ∈ vs ∧ v ∈ default [] (p_parsedTags p !! k))
  ∧ ((∀ k vs, F !! k = Some vs → vs = []) → filterProducts P F = P).
Proof.
  rewrite filterProducts_filter. split_and!.
  - done.
  - apply sublist_filter.
  - intros p. rewrite list_elem_of_filter. unfold passesFilters.
    rewrite map_Forall_lookup. tauto.
  - intros p k vs. unfold productMatchesGroup. rewrite existsb_exists.
    split.
    + intros (v & Hv%list_elem_of_In & Hin%bool_decide_eq_true). eauto.
    + intros (v & Hv & Hin). exists v. split; [by apply list_elem_of_In|].
      by apply bool_decide_eq_true.
  - intros Hnone. apply filter_all. intros p _ k vs Hk Hne.
    destruct Hne. eauto.
Qed.

(** ** Counting *)

Lemma passes_otherFilters filters G product :
  passesFilters (filter (λ kv, kv.1 ≠ G ∧ kv.2 ≠ []) filters) product
  ↔ passesOthers filters G product.
Proof.
  unfold passesFilters, passesOthers. rewrite !map_Forall_lookup. split.
  - intros Hall k vs Hk HG Hne. apply Hall; [|done].
    apply map_lookup_filter_Some. done.
  - intros Hall k vs [Hk [HG _]]%map_lookup_filter_Some Hne. by apply Hall.
Qed.

Lemma countForValue_count products filters G v :
  countForValue products filters G v
  = length (filter (λ p, carries G v p ∧ passesOthers filters G p) products).
Proof.
  unfold countForValue. rewrite filterProducts_filter.
  rewrite list_filter_filter. f_equal. apply list_filter_iff.
  intros p. unfold carries. rewrite passes_otherFilters. done.
Qed.

(** C2. [countForValue(products, F, G, v)] is the number of products that
    carry [v] under [G] and match every other group's non-empty selection;
    it does not depend on what [F] selects under [G]: two filter mappings
    that agree outside [G] give the same count, in particular after a value
    of [G] is selected or deselected. *)
Theorem C2_countForValue_spec (products : list Product)
    (F : gmap string (list string)) (G v : string) :
  countForValue products F G v
  = length (filter (λ p, carries G v p ∧ passesOthers F G p) products)
  ∧ (∀ F' : gmap string (list string),
       (∀ k, k ≠ G → F' !! k = F !! k) →
       countForValue products F' G v = countForValue products F G v)
  ∧ (∀ sel, countForValue products (<[G := sel]> F) G v
            = countForValue products F G v)
  ∧ countForValue products (delete G F) G v = countForValue products F G v.
Proof.
  assert (∀ F' : gmap string (list string),
            (∀ k, k ≠ G → F' !! k = F !! k) →
            countForValue products F' G v = countForValue products F G v)
    as Hindep.
  { intros F' Hagree. rewrite !countForValue_count. f_equal.
    apply list_filter_iff. intros p. unfold passesOthers.
    rewrite !map_Forall_lookup.
    split; intros [Hc Hall]; (split; [done|]); intros k vs Hk HG.
    + apply Hall; [|done]. by rewrite Hagree.
    + apply Hall; [|done]. by rewrite <- Hagree. }
  split_and!.
  - apply countForValue_count.
  - exact Hindep.
  - intros sel. apply Hindep. intros k Hk. by rewrite lookup_insert_ne.
  - apply Hindep. intros k Hk. by rewrite lookup_delete_ne.
Qed.

(** ** Sorting *)

Section sort_facts.
Context {A : Type} (comparefn : A → A → Js.Number).

Lemma insert_Permutation x l : Js.insert comparefn x l ≡ₚ x :: l.
Proof.
  induction l as [|y l IH]; simpl; [done|].
  destruct (Js.before comparefn y x); [|done].
  rewrite IH. apply Permutation_swap.
Qed.

Lemma sort_Permutation l : Js.stableSort comparefn l ≡ₚ l.
Proof.
  induction l as [|x l IH]; simpl; [done|].
  rewrite insert_Permutation. by f_equiv.
Qed.

(** An element is moved behind those that come strictly before it only:
    a family of elements none of which precedes another keeps its order. *)
Lemma insert_filter (P : A → Prop) `{!∀ x, Decision (P x)} x l :
  (P x → ∀ y, y ∈ l → P y → Js.before comparefn y x = false) →
  filter P (Js.insert comparefn x l) = filter P (x :: l).
Proof.
  induction l as [|y l IH]; intros Hx; simpl; [done|].
  destruct (Js.before comparefn y x) eqn:Hyx; [|done].
  assert (filter P (Js.insert comparefn x l) = filter P (x :: l)) as IH'.
  { apply IH. intros HPx z Hz. apply Hx; [done|by right]. }
  rewrite filter_cons, IH', !filter_cons.
  destruct (decide (P x)) as [HPx|HPx], (decide (P y)) as [HPy|HPy]; try done.
  specialize (Hx HPx y (list_elem_of_here _ _) HPy). congruence.
Qed.

Lemma sort_stable (P : A → Prop) `{!∀ x, Decision (P x)} l :
  (∀ x y, x ∈ l → y ∈ l → P x → P y →
          Js.SortCompare (comparefn x y) = Eq) →
  filter P (Js.stableSort comparefn l) = filter P l.
Proof.
  induction l as [|x l IH]; intros Htie; simpl; [done|].
  rewrite insert_filter.
  - rewrite !filter_cons, IH; [done|].
    intros a b Ha Hb. apply Htie; by right.
  - intros HPx y Hy HPy. unfold Js.before.
    rewrite Htie; [done|right|left|done..].
    by rewrite <- (sort_Permutation l).
Qed.

(** For a comparator that follows an order [R] on the elements at hand,
    the result is sorted by [R]. *)
Lemma sort_sorted (R : relation A) (Q : A → Prop) l :
  (∀ x y z, Q x → Q y → Q z → R x y → R y z → R x z) →
  (∀ x y, Q x → Q y → Js.before comparefn y x = true → R y x) →
  (∀ x y, Q x → Q y → Js.before comparefn y x = false → R x y) →
  Forall Q l →
  StronglySorted R (Js.stableSort comparefn l).
Proof.
  intros Htrans Hlt Hge.
  assert (∀ x l', Q x → Forall Q l' → StronglySorted R l' →
                  StronglySorted R (Js.insert comparefn x l')) as Hins.
  { intros x l' Hx. induction l' as [|y l' IH]; intros HQ Hs; simpl.
    - repeat constructor.
    - apply Forall_cons in HQ as [Hy HQ].
      apply StronglySorted_inv in Hs as [Hs Hall].
      destruct (Js.before comparefn y x) eqn:Hyx.
      + constructor; [by apply IH|].
        rewrite (insert_Permutation x l'). constructor; [by apply Hlt|done].
      + constructor; [by constructor|].
        constructor; [by apply Hge|].
        rewrite Forall_forall in Hall, HQ |- *. intros z Hz.
        apply (Htrans x y z); auto. }
  induction 1 as [|x l' Hx HQ IH]; simpl; [constructor|].
  apply Hins; [done| |done].
  by rewrite sort_Permutation.
Qed.

(** A comparator that returns, on the elements of [l], a number with the
    sign of the comparison of two keys is consistent on [l]. *)
Lemma consistent_by_key (f : A → Q) l :
  (∀ a b, a ∈ l → b ∈ l →
     ∃ q, comparefn a b = Js.Fin q ∧ (q ?= 0)%Q = (f a ?= f b)%Q) →
  Js.consistent comparefn l.
Proof.
  intros Hkey.
  assert (∀ a b, a ∈ l → b ∈ l → Js.order comparefn a b = (f a ?= f b)%Q)
    as Hord.
  { intros a b Ha Hb. destruct (Hkey a b Ha Hb) as (q & Hq & <-).
    unfold Js.order. by rewrite Hq. }
  unfold Js.consistent. split_and!.
  - apply Forall_forall. intros a Ha. apply Forall_forall. intros b Hb.
    destruct (Hkey a b Ha Hb) as (q & -> & _). done.
  - apply Forall_forall. intros a Ha. rewrite Hord by done.
    by apply Qeq_alt.
  - apply Forall_forall. intros a Ha. apply Forall_forall. intros b Hb.
    rewrite !Hord by done. rewrite <- !Qeq_alt. intros Hab. by symmetry.
  - apply Forall_forall. intros a Ha. apply Forall_forall. intros b Hb.
    apply Forall_forall. intros c Hc. rewrite !Hord by done.
    rewrite <- !Qeq_alt, <- !Qlt_alt, <- !Qgt_alt. split_and!; intros; lra.
Qed.
End sort_facts.

(** *** The sort of V8 on a consistent comparator

    On the elements of a list [L] on which the comparator is consistent,
    [SortCompare] is a total preorder; the insertion sort of V8 then gives
    the stable sort, like every engine that conforms to ECMAScript. *)
Section v8_facts.
Context {A : Type} (comparefn : A → A → Js.Number) (L : list A).
Hypothesis consistent_L : Js.consistent comparefn L.

Lemma before_true x y :
  Js.before comparefn x y = true ↔ Js.order comparefn x y = Lt.
Proof.
  unfold Js.before, Js.order.
  destruct (Js.SortCompare (comparefn x y)); naive_solver.
Qed.

Lemma before_false x y :
  Js.before comparefn x y = false ↔ Js.order comparefn x y ≠ Lt.
Proof.
  unfold Js.before, Js.order.
  destruct (Js.SortCompare (comparefn x y)); naive_solver.
Qed.

Lemma order_refl x : x ∈ L → Js.order comparefn x x = Eq.
Proof.
  destruct consistent_L as (_ & Hrefl & _). rewrite Forall_forall in Hrefl.
  apply Hrefl.
Qed.

Lemma order_sym x y :
  x ∈ L → y ∈ L →
  Js.order comparefn x y = Eq → Js.order comparefn y x = Eq.
Proof.
  destruct consistent_L as (_ & _ & Hsym & _). intros Hx Hy.
  rewrite Forall_forall in Hsym. specialize (Hsym x Hx).
  rewrite Forall_forall in Hsym. by apply Hsym.
Qed.

Lemma order_trans x y z (c : comparison) :
  x ∈ L → y ∈ L → z ∈ L →
  Js.order comparefn x y = c → Js.order comparefn y z = c →
  Js.order comparefn x z = c.
Proof.
  destruct consistent_L as (_ & _ & _ & Htrans). intros Hx Hy Hz.
  rewrite Forall_forall in Htrans. specialize (Htrans x Hx).
  rewrite Forall_forall in Htrans. specialize (Htrans y Hy).
  rewrite Forall_forall in Htrans. specialize (Htrans z Hz).
  destruct c; naive_solver.
Qed.

Lemma order_Lt_Gt x y :
  x ∈ L → y ∈ L →
  Js.order comparefn x y = Lt → Js.order comparefn y x = Gt.
Proof.
  intros Hx Hy Hlt. destruct (Js.order comparefn y x) eqn:Hyx; [| |done].
  - apply order_sym in Hyx; [congruence|done..].
  - pose proof (order_trans x y x Lt Hx Hy Hx Hlt Hyx) as Hxx.
    rewrite order_refl in Hxx; done.
Qed.

Lemma order_Gt_Lt x y :
  x ∈ L → y ∈ L →
  Js.order comparefn x y = Gt → Js.order comparefn y x = Lt.
Proof.
  intros Hx Hy Hgt. destruct (Js.order comparefn y x) eqn:Hyx; [|done|].
  - apply order_sym in Hyx; [congruence|done..].
  - pose proof (order_trans x y x Gt Hx Hy Hx Hgt Hyx) as Hxx.
    rewrite order_refl in Hxx; done.
Qed.

(** [x < y] and [y <= z] give [x < z]. *)
Lemma order_Lt_le x y z :
  x ∈ L → y ∈ L → z ∈ L →
  Js.order comparefn x y = Lt → Js.order comparefn z y ≠ Lt →
  Js.order comparefn x z = Lt.
Proof.
  intros Hx Hy Hz Hxy Hzy.
  destruct (Js.order comparefn z y) eqn:Hzy'; [|done|].
  - (* y and z tie *)
    destruct (Js.order comparefn x z) eqn:Hxz; [|done|].
    + apply order_sym in Hxz; [|done..].
      pose proof (order_trans y z x Eq Hy Hz Hx) as Hyx.
      rewrite (order_sym z y) in Hyx by done.
      specialize (Hyx eq_refl Hxz).
      apply order_sym in Hyx; [congruence|done..].
    + apply order_Gt_Lt in Hxz; [|done..].
      pose proof (order_trans z x y Lt Hz Hx Hy Hxz Hxy). congruence.
  - apply order_Gt_Lt in Hzy'; [|done..].
    by apply (order_trans x y z Lt).
Qed.

Lemma le_trans x y z :
  x ∈ L → y ∈ L → z ∈ L →
  Js.before comparefn y x = false → Js.before comparefn z y = false →
  Js.before comparefn z x = false.
Proof.
  rewrite !before_false. intros Hx Hy Hz Hxy Hyz Hzx.
  apply Hyz. by apply (order_Lt_le z x y).
Qed.

Lemma ties_trans a x y :
  a ∈ L → x ∈ L → y ∈ L →
  Js.order comparefn a x = Eq → Js.order comparefn a y = Eq →
  Js.order comparefn x y = Eq.
Proof.
  intros Ha Hx Hy Hax Hay. apply (order_trans x a y Eq); try done.
  by apply order_sym.
Qed.

(** **** Binary insertion *)

Lemma elem_of_take_incl (x : A) n l : x ∈ take n l → x ∈ l.
Proof. intros Hx. rewrite <- (take_drop n l). apply elem_of_app. by left. Qed.

Lemma elem_of_drop_incl (x : A) n l : x ∈ drop n l → x ∈ l.
Proof. intros Hx. rewrite <- (take_drop n l). apply elem_of_app. by right. Qed.

Lemma insertionPoint_S fuel pivot w left right :
  Js.insertionPoint comparefn (S fuel) pivot w left right
  = if (left <? right)%nat then
      match w !! (left + (right - left) / 2)%nat with
      | Some element =>
          if Js.before comparefn pivot element
          then Js.insertionPoint comparefn fuel pivot w left
                 (left + (right - left) / 2)
          else Js.insertionPoint comparefn fuel pivot w
                 (S (left + (right - left) / 2)) right
      | None => left
      end
    else left.
Proof. reflexivity. Qed.

Lemma insertionPoint_spec fuel pivot w left right :
  pivot ∈ L → (∀ e, e ∈ w → e ∈ L) →
  StronglySorted (λ x y, Js.before comparefn y x = false) w →
  (right - left ≤ fuel)%nat → (left ≤ right)%nat → (right ≤ length w)%nat →
  Forall (λ e, Js.before comparefn pivot e = false) (take left w) →
  Forall (λ e, Js.before comparefn pivot e = true) (drop right w) →
  let k := Js.insertionPoint comparefn fuel pivot w left right in
  Forall (λ e, Js.before comparefn pivot e = false) (take k w)
  ∧ Forall (λ e, Js.before comparefn pivot e = true) (drop k w).
Proof.
  intros Hp Hw Hs. revert left right.
  induction fuel as [|fuel IH]; intros left right Hfuel Hle Hlen Hleft Hright.
  { assert (left = right) as -> by lia. done. }
  cbv zeta. rewrite insertionPoint_S.
  destruct (left <? right)%nat eqn:Hlt.
  2:{ apply Nat.ltb_ge in Hlt. assert (left = right) as -> by lia. done. }
  apply Nat.ltb_lt in Hlt.
  set (mid := (left + (right - left) / 2)%nat).
  assert (left ≤ mid ∧ mid < right)%nat as [Hmid1 Hmid2].
  { unfold mid.
    pose proof (Nat.Div0.div_lt_upper_bound (right - left) 2 (right - left)).
    lia. }
  destruct (w !! mid) as [e|] eqn:He.
  2:{ apply lookup_ge_None in He. lia. }
  assert (e ∈ L) as HeL by (apply Hw; by eapply list_elem_of_lookup_2).
  assert (w = take mid w ++ e :: drop (S mid) w) as Hsplit.
  { by rewrite <- (take_drop_middle w mid e He) at 1. }
  rewrite Hsplit in Hs. apply StronglySorted_app in Hs as (Hcross & _ & Hs2).
  apply StronglySorted_inv in Hs2 as [_ Hafter].
  destruct (Js.before comparefn pivot e) eqn:Hpe.
  - apply IH; [lia..|done|].
    rewrite (drop_S w e mid He). constructor; [done|].
    rewrite Forall_forall in Hafter |- *. intros e' He'.
    apply before_true. apply (order_Lt_le pivot e e'); try done.
    + apply Hw. by eapply elem_of_drop_incl.
    + by apply before_true.
    + apply before_false. by apply Hafter.
  - apply IH; [lia..| |done].
    rewrite (take_S_r w mid e He). apply Forall_app. split; [|by repeat constructor].
    apply Forall_forall. intros e' He'.
    apply before_false. intros Hlt'. apply before_false in Hpe. apply Hpe.
    apply (order_Lt_le pivot e' e); try done.
    + apply Hw. by eapply elem_of_take_incl.
    + apply before_false. apply Hcross; [done|left].
Qed.

Lemma binaryInsert_spec w pivot :
  pivot ∈ L → (∀ e, e ∈ w → e ∈ L) →
  StronglySorted (λ x y, Js.before comparefn y x = false) w →
  ∃ k, Js.binaryInsert comparefn w pivot = take k w ++ pivot :: drop k w
       ∧ Forall (λ e, Js.before comparefn pivot e = false) (take k w)
       ∧ Forall (λ e, Js.before comparefn pivot e = true) (drop k w).
Proof.
  intros Hp Hw Hs. eexists. split; [reflexivity|].
  apply insertionPoint_spec; try done; try lia.
  by rewrite drop_all.
Qed.

Lemma binaryInsert_in w pivot e :
  e ∈ Js.binaryInsert comparefn w pivot → e = pivot ∨ e ∈ w.
Proof.
  unfold Js.binaryInsert. rewrite elem_of_app, elem_of_cons.
  intros [?|[?|?]]; eauto using elem_of_take_incl, elem_of_drop_incl.
Qed.

Lemma binaryInsert_sorted w pivot :
  pivot ∈ L → (∀ e, e ∈ w → e ∈ L) →
  StronglySorted (λ x y, Js.before comparefn y x = false) w →
  StronglySorted (λ x y, Js.before comparefn y x = false)
    (Js.binaryInsert comparefn w pivot).
Proof.
  intros Hp Hw Hs.
  destruct (binaryInsert_spec w pivot Hp Hw Hs) as (k & -> & Hleft & Hright).
  rewrite <- (take_drop k w) in Hs.
  apply StronglySorted_app in Hs as (Hcross & Hs1 & Hs2).
  rewrite Forall_forall in Hleft, Hright.
  apply StronglySorted_app. split_and!; [|done|].
  - intros x1 x2 Hx1 [->|Hx2]%elem_of_cons; [by apply Hleft|by apply Hcross].
  - constructor; [done|]. apply Forall_forall. intros e He.
    apply before_false.
    rewrite (order_Lt_Gt pivot e); [done|done| |].
    + apply Hw. by eapply elem_of_drop_incl.
    + apply before_true. by apply Hright.
Qed.

Lemma binaryInsert_stable a w pivot :
  a ∈ L → pivot ∈ L → (∀ e, e ∈ w → e ∈ L) →
  StronglySorted (λ x y, Js.before comparefn y x = false) w →
  filter (λ x, Js.order comparefn a x = Eq) (Js.binaryInsert comparefn w pivot)
  = filter (λ x, Js.order comparefn a x = Eq) (w ++ [pivot]).
Proof.
  intros Ha Hp Hw Hs.
  destruct (binaryInsert_spec w pivot Hp Hw Hs) as (k & -> & _ & Hright).
  rewrite <- (take_drop k w) at 3.
  rewrite !filter_app, !filter_cons, filter_nil.
  destruct (decide (Js.order comparefn a pivot = Eq)) as [Hap|Hap].
  - assert (filter (λ x, Js.order comparefn a x = Eq) (drop k w) = []) as ->.
    { apply filter_none. intros e He Hae.
      rewrite Forall_forall in Hright. specialize (Hright e He).
      apply before_true in Hright.
      rewrite (ties_trans a pivot e) in Hright; try done.
      apply Hw. by eapply elem_of_drop_incl. }
    by rewrite app_nil_r.
  - by rewrite app_nil_r.
Qed.

Lemma foldl_binaryInsert rest run :
  (∀ e, e ∈ run ++ rest → e ∈ L) →
  StronglySorted (λ x y, Js.before comparefn y x = false) run →
  StronglySorted (λ x y, Js.before comparefn y x = false)
    (foldl (Js.binaryInsert comparefn) run rest)
  ∧ ∀ a, a ∈ L →
      filter (λ x, Js.order comparefn a x = Eq)
        (foldl (Js.binaryInsert comparefn) run rest)
      = filter (λ x, Js.order comparefn a x = Eq) (run ++ rest).
Proof.
  revert run. induction rest as [|p rest IH]; intros run HL Hs; simpl.
  - by rewrite app_nil_r.
  - assert (p ∈ L) as Hp by (apply HL; set_solver).
    assert (∀ e, e ∈ run → e ∈ L) as Hrun by (intros; apply HL; set_solver).
    destruct (IH (Js.binaryInsert comparefn run p)) as [Hsorted Hstable].
    + intros e [[->|?]%binaryInsert_in|?]%elem_of_app; [done|by apply Hrun|].
      apply HL. set_solver.
    + by apply binaryInsert_sorted.
    + split; [done|]. intros a Ha.
      rewrite Hstable, filter_app, binaryInsert_stable by done.
      by rewrite <- filter_app, <- app_assoc.
Qed.

(** **** The first run *)

Lemma runLength_ascending previous rest :
  previous ∈ L → (∀ e, e ∈ rest → e ∈ L) →
  StronglySorted (λ x y, Js.before comparefn y x = false)
    (previous :: take (Js.runLength comparefn false previous rest) rest).
Proof.
  revert previous. induction rest as [|current rest IH];
    intros previous Hp HL; simpl; [by repeat constructor|].
  assert (current ∈ L) as Hc by (apply HL; left).
  destruct (Js.order comparefn current previous) eqn:Hord;
    [|by repeat constructor|].
  - specialize (IH current Hc (λ e He, HL e (list_elem_of_further _ _ _ He))).
    simpl. constructor; [done|].
    assert (Js.before comparefn current previous = false) as Hle
      by (apply before_false; congruence).
    constructor; [done|]. apply StronglySorted_inv in IH as [_ Hall].
    rewrite Forall_forall in Hall |- *. intros e He.
    apply (le_trans previous current e); try done; [|by apply Hall].
    apply HL. right. by eapply elem_of_take_incl.
  - specialize (IH current Hc (λ e He, HL e (list_elem_of_further _ _ _ He))).
    simpl. constructor; [done|].
    assert (Js.before comparefn current previous = false) as Hle
      by (apply before_false; congruence).
    constructor; [done|]. apply StronglySorted_inv in IH as [_ Hall].
    rewrite Forall_forall in Hall |- *. intros e He.
    apply (le_trans previous current e); try done; [|by apply Hall].
    apply HL. right. by eapply elem_of_take_incl.
Qed.

Lemma runLength_descending previous rest :
  previous ∈ L → (∀ e, e ∈ rest → e ∈ L) →
  StronglySorted (λ x y, Js.before comparefn y x = true)
    (previous :: take (Js.runLength comparefn true previous rest) rest).
Proof.
  revert previous. induction rest as [|current rest IH];
    intros previous Hp HL; simpl; [by repeat constructor|].
  assert (current ∈ L) as Hc by (apply HL; left).
  destruct (Js.order comparefn current previous) eqn:Hord;
    [by repeat constructor| |by repeat constructor].
  specialize (IH current Hc (λ e He, HL e (list_elem_of_further _ _ _ He))).
  simpl. constructor; [done|].
  constructor; [by apply before_true|]. apply StronglySorted_inv in IH as [_ Hall].
  rewrite Forall_forall in Hall |- *. intros e He.
  apply before_true. apply (order_trans e current previous Lt); try done.
  - apply HL. right. by eapply elem_of_take_incl.
  - apply before_true. by apply Hall.
Qed.

Lemma StronglySorted_reverse (R : relation A) l :
  StronglySorted R l → StronglySorted (flip R) (reverse l).
Proof.
  induction 1 as [|x l Hs IH Hall]; [constructor|].
  rewrite reverse_cons. apply StronglySorted_app. split_and!.
  - intros x1 x2 Hx1 ->%list_elem_of_singleton. unfold flip.
    rewrite Forall_forall in Hall. apply Hall. by apply elem_of_reverse.
  - done.
  - by repeat constructor.
Qed.

Lemma StronglySorted_impl_in (R R' : relation A) l :
  (∀ x y, x ∈ l → y ∈ l → R x y → R' x y) →
  StronglySorted R l → StronglySorted R' l.
Proof.
  intros Himpl Hs. induction Hs as [|x l Hs IH Hall]; [constructor|].
  constructor.
  - apply IH. intros a b Ha Hb. apply Himpl; by right.
  - rewrite Forall_forall in Hall |- *. intros y Hy.
    apply Himpl; [left|by right|by apply Hall].
Qed.

(** A strictly descending run holds at most one element of a family of
    ties, so that reversing it keeps the order within the family. *)
Lemma descending_ties a l :
  a ∈ L → (∀ e, e ∈ l → e ∈ L) →
  StronglySorted (λ x y, Js.before comparefn y x = true) l →
  filter (λ x, Js.order comparefn a x = Eq) (reverse l)
  = filter (λ x, Js.order comparefn a x = Eq) l.
Proof.
  intros Ha HL Hs. rewrite filter_reverse.
  pose proof (StronglySorted_filter _ (λ x, Js.order comparefn a x = Eq) _ Hs)
    as Hf.
  destruct (filter (λ x, Js.order comparefn a x = Eq) l)
    as [|u [|v f]] eqn:Hfilter; [done..|].
  assert (u ∈ filter (λ x, Js.order comparefn a x = Eq) l) as Hu
    by (rewrite Hfilter; left).
  assert (v ∈ filter (λ x, Js.order comparefn a x = Eq) l) as Hv
    by (rewrite Hfilter; right; left).
  apply list_elem_of_filter in Hu as [Hau Hu].
  apply list_elem_of_filter in Hv as [Hav Hv].
  apply StronglySorted_inv in Hf as [_ Hall].
  apply Forall_cons in Hall as [Hvu _]. apply before_true in Hvu.
  rewrite (ties_trans a v u) in Hvu; auto. done.
Qed.

Lemma countAndMakeRun_spec l run rest :
  (∀ e, e ∈ l → e ∈ L) →
  Js.countAndMakeRun comparefn l = (run, rest) →
  StronglySorted (λ x y, Js.before comparefn y x = false) run
  ∧ run ++ rest ≡ₚ l
  ∧ ∀ a, a ∈ L →
      filter (λ x, Js.order comparefn a x = Eq) (run ++ rest)
      = filter (λ x, Js.order comparefn a x = Eq) l.
Proof.
  intros HL. destruct l as [|x0 [|x1 l]]; simpl.
  - intros [= <- <-]. by repeat constructor.
  - intros [= <- <-]. by repeat constructor.
  - assert (x0 ∈ L) as H0 by (apply HL; left).
    assert (x1 ∈ L) as H1 by (apply HL; right; left).
    assert (∀ e, e ∈ l → e ∈ L) as Hl by (intros; apply HL; by do 2 right).
    destruct (Js.before comparefn x1 x0) eqn:Hdesc; intros [= <- <-].
    + set (k := Js.runLength comparefn true x1 l).
      assert (StronglySorted (λ x y, Js.before comparefn y x = true)
                (x0 :: x1 :: take k l)) as Hs.
      { pose proof (runLength_descending x1 l H1 Hl) as Hs. fold k in Hs.
        constructor; [done|]. constructor; [done|].
        apply StronglySorted_inv in Hs as [_ Hall].
        rewrite Forall_forall in Hall |- *. intros e He.
        apply before_true. apply (order_trans e x1 x0 Lt); try done.
        - apply Hl. by eapply elem_of_take_incl.
        - apply before_true. by apply Hall.
        - by apply before_true. }
      assert (∀ e, e ∈ x0 :: x1 :: take k l → e ∈ L) as Hin.
      { intros e [->|[->|He]%elem_of_cons]%elem_of_cons; [done..|].
        apply Hl. by eapply elem_of_take_incl. }
      split_and!.
      * apply (StronglySorted_impl_in
                 (flip (λ x y, Js.before comparefn y x = true))).
        -- unfold flip. intros x y Hx Hy Hxy.
           rewrite elem_of_reverse in Hx, Hy.
           apply before_false.
           rewrite (order_Lt_Gt x y); [done|by apply Hin..|].
           by apply before_true.
        -- by apply StronglySorted_reverse.
      * rewrite reverse_Permutation. simpl. by rewrite take_drop.
      * intros a Ha. rewrite filter_app, descending_ties by done.
        rewrite <- filter_app. simpl. by rewrite take_drop.
    + set (k := Js.runLength comparefn false x1 l).
      split_and!.
      * pose proof (runLength_ascending x1 l H1 Hl) as Hs. fold k in Hs.
        constructor; [done|]. constructor; [done|].
        apply StronglySorted_inv in Hs as [_ Hall].
        rewrite Forall_forall in Hall |- *. intros e He.
        apply (le_trans x0 x1 e); try done; [|by apply Hall].
        apply Hl. by eapply elem_of_take_incl.
      * simpl. by rewrite take_drop.
      * intros a Ha. simpl. by rewrite take_drop.
Qed.

Lemma v8Sort_spec l :
  (∀ e, e ∈ l → e ∈ L) →
  StronglySorted (λ x y, Js.before comparefn y x = false)
    (Js.v8Sort comparefn l)
  ∧ ∀ a, a ∈ L →
      filter (λ x, Js.order comparefn a x = Eq) (Js.v8Sort comparefn l)
      = filter (λ x, Js.order comparefn a x = Eq) l.
Proof.
  intros HL. unfold Js.v8Sort.
  destruct (Js.countAndMakeRun comparefn l) as [run rest] eqn:Hrun.
  destruct (countAndMakeRun_spec l run rest HL Hrun) as (Hs & Hperm & Hstable).
  destruct (foldl_binaryInsert rest run) as [Hsorted Hfold]; [|done|].
  { intros e He. apply HL. by rewrite <- Hperm. }
  split; [done|]. intros a Ha. by rewrite Hfold, Hstable.
Qed.

(** **** One stable sorted arrangement *)

Lemma stable_sorted_unique l1 l2 :
  (∀ e, e ∈ l1 → e ∈ L) → l1 ≡ₚ l2 →
  StronglySorted (λ x y, Js.before comparefn y x = false) l1 →
  StronglySorted (λ x y, Js.before comparefn y x = false) l2 →
  (∀ a, a ∈ L →
     filter (λ x, Js.order comparefn a x = Eq) l1
     = filter (λ x, Js.order comparefn a x = Eq) l2) →
  l1 = l2.
Proof.
  revert l2. induction l1 as [|x l1 IH]; intros l2 HL Hperm Hs1 Hs2 Hfilter.
  { by apply Permutation_nil_l in Hperm. }
  destruct l2 as [|y l2]; [by apply Permutation_nil_r in Hperm|].
  assert (x ∈ L) as Hx by (apply HL; left).
  assert (y ∈ L) as Hy by (apply HL; rewrite Hperm; left).
  apply StronglySorted_inv in Hs1 as [Hs1 Hall1].
  apply StronglySorted_inv in Hs2 as [Hs2 Hall2].
  rewrite Forall_forall in Hall1, Hall2.
  assert (Js.order comparefn x y = Eq) as Hxy.
  { assert (Js.order comparefn y x ≠ Lt) as Hyx.
    { assert (y ∈ x :: l1) as [->|Hin]%elem_of_cons by (rewrite Hperm; left).
      - by rewrite order_refl.
      - apply before_false. by apply Hall1. }
    assert (Js.order comparefn x y ≠ Lt) as Hxy.
    { assert (x ∈ y :: l2) as [->|Hin]%elem_of_cons by (rewrite <- Hperm; left).
      - by rewrite order_refl.
      - apply before_false. by apply Hall2. }
    destruct (Js.order comparefn x y) eqn:Hord; [done|done|].
    by apply order_Gt_Lt in Hord. }
  assert (x = y) as <-.
  { specialize (Hfilter x Hx). rewrite !filter_cons in Hfilter.
    rewrite decide_True in Hfilter by (by apply order_refl).
    rewrite decide_True in Hfilter by done. congruence. }
  f_equal. apply IH; try done.
  - intros e He. apply HL. by right.
  - by apply Permutation_cons_inv in Hperm.
  - intros a Ha. specialize (Hfilter a Ha). rewrite !filter_cons in Hfilter.
    destruct (decide (Js.order comparefn a x = Eq)); congruence.
Qed.

Lemma v8Sort_Permutation l : Js.v8Sort comparefn l ≡ₚ l.
Proof.
  unfold Js.v8Sort.
  assert (∀ rest run : list A,
    foldl (Js.binaryInsert comparefn) run rest ≡ₚ run ++ rest) as Hfold.
  { intros rest. induction rest as [|p rest IH]; intros run; simpl.
    - by rewrite app_nil_r.
    - rewrite IH. unfold Js.binaryInsert.
      rewrite <- (Permutation_middle _ _ p), take_drop. simpl.
      apply Permutation_middle. }
  destruct (Js.countAndMakeRun comparefn l) as [run rest] eqn:Hrun.
  rewrite Hfold.
  destruct l as [|x0 [|x1 l]]; simpl in Hrun;
    [by inversion Hrun|by inversion Hrun|].
  injection Hrun as <- <-.
  destruct (Js.before comparefn x1 x0).
  - rewrite reverse_Permutation. simpl. by rewrite take_drop.
  - simpl. by rewrite take_drop.
Qed.

Lemma v8Sort_stableSort_in l :
  (∀ e, e ∈ l → e ∈ L) →
  Js.v8Sort comparefn l = Js.stableSort comparefn l.
Proof.
  intros HL. destruct (v8Sort_spec l HL) as [Hsorted Hstable].
  apply stable_sorted_unique.
  - intros e He. apply HL. by rewrite <- (v8Sort_Permutation l).
  - by rewrite v8Sort_Permutation, sort_Permutation.
  - done.
  - apply (sort_sorted _ _ (λ e, e ∈ L)).
    + intros x y z Hx Hy Hz. by apply le_trans.
    + intros x y Hx Hy Hlt. apply before_false.
      rewrite (order_Lt_Gt y x); auto. by apply before_true.
    + done.
    + by apply Forall_forall.
  - intros a Ha. rewrite Hstable by done. symmetry. apply sort_stable.
    intros x y Hx Hy Hax Hay. by apply (ties_trans a); auto.
Qed.
End v8_facts.

(** For a consistent comparator the sort of V8 is the stable sort, so
    that [exampleSort] is the sort of V8 throughout. *)
Lemma v8Sort_stableSort {A} (comparefn : A → A → Js.Number) (l : list A) :
  Js.consistent comparefn l →
  Js.v8Sort comparefn l = Js.stableSort comparefn l.
Proof. intros Hl. by apply (v8Sort_stableSort_in comparefn l). Qed.

Lemma exampleSort_v8Sort {A} (comparefn : A → A → Js.Number) (l : list A) :
  exampleSort comparefn l = Js.v8Sort comparefn l.
Proof.
  unfold exampleSort. case_decide; [|done]. symmetry. by apply v8Sort_stableSort.
Qed.

Lemma Qcompare_sub (x y : Q) : (x - y ?= 0)%Q = (x ?= y)%Q.
Proof.
  destruct (Qcompare_spec x y) as [Hc|Hc|Hc];
    [rewrite <- Qeq_alt|rewrite <- Qlt_alt|rewrite <- Qgt_alt]; lra.
Qed.

Lemma Qcompare_sub_opp (x y : Q) : (y - x ?= 0)%Q = (- x ?= - y)%Q.
Proof.
  destruct (Qcompare_spec (- x) (- y)) as [Hc|Hc|Hc];
    [rewrite <- Qeq_alt|rewrite <- Qlt_alt|rewrite <- Qgt_alt]; lra.
Qed.

Section sortProducts_facts.
Context `{Host}.

Lemma newest_before a b ta tb :
  Date_parse (p_createdAt a) = Some ta →
  Date_parse (p_createdAt b) = Some tb →
  Js.before (comparator "newest") a b = bool_decide (tb < ta).
Proof.
  intros Ha Hb. unfold Js.before, comparator, createdTime. simpl.
  rewrite Ha, Hb. simpl.
  destruct (inject_Z tb - inject_Z ta ?= 0)%Q eqn:Hc.
  - apply Qeq_alt in Hc. rewrite bool_decide_eq_false_2; [done|].
    intros Hlt. rewrite Zlt_Qlt in Hlt. lra.
  - apply Qlt_alt in Hc. rewrite bool_decide_eq_true_2; [done|].
    rewrite Zlt_Qlt. lra.
  - apply Qgt_alt in Hc. rewrite bool_decide_eq_false_2; [done|].
    intros Hlt. rewrite Zlt_Qlt in Hlt. lra.
Qed.

Lemma newest_unparseable_ties a b :
  Date_parse (p_createdAt a) = None ∨ Date_parse (p_createdAt b) = None →
  comparator "newest" a b = Js.NaN ∧ ties "newest" a b.
Proof.
  unfold ties, comparator, createdTime. simpl.
  intros [-> | ->]; simpl; [|done].
  by destruct (Date_parse (p_createdAt b)).
Qed.

(** The comparator returns [NaN] under ['newest'] only, and there for a
    [createdAt] that does not parse. *)
Lemma comparator_number sortKey a b :
  sortKey ≠ "newest" ∨ (parseable a ∧ parseable b) →
  comparator sortKey a b ≠ Js.NaN.
Proof.
  unfold comparator, createdTime, parseable. intros Hcase.
  repeat case_decide; try done.
  destruct Hcase as [?|[[ta ->] [tb ->]]]; done.
Qed.

Lemma numbers_parseable l :
  (∀ a b, a ∈ l → b ∈ l → comparator "newest" a b ≠ Js.NaN) →
  Forall parseable l.
Proof.
  intros Hnum. apply Forall_forall. intros a Ha. specialize (Hnum a a Ha Ha).
  unfold comparator, createdTime, parseable in *. simpl in Hnum.
  destruct (Date_parse (p_createdAt a)); [by eexists|done].
Qed.

(** On a list on which it returns no [NaN], the comparator of a sort key
    is consistent, and the engine's sort is the stable sort. *)
Lemma comparator_consistent sortKey l :
  (∀ a b, a ∈ l → b ∈ l → comparator sortKey a b ≠ Js.NaN) →
  Js.consistent (comparator sortKey) l.
Proof.
  intros Hnum. unfold comparator in *.
  destruct (decide (sortKey = "price-asc")) as [_|_].
  { apply (consistent_by_key _ p_price). intros a b _ _.
    eexists. split; [done|]. apply Qcompare_sub. }
  destruct (decide (sortKey = "price-desc")) as [_|_].
  { apply (consistent_by_key _ (λ p, - p_price p)%Q). intros a b _ _.
    eexists. split; [done|]. apply Qcompare_sub_opp. }
  destruct (decide (sortKey = "newest")) as [->|_].
  { apply (consistent_by_key _ (λ p, - inject_Z (epochTime p))%Q).
    assert (Forall parseable l) as Hall.
    { apply numbers_parseable. intros a b Ha Hb. specialize (Hnum a b Ha Hb).
      unfold comparator. by rewrite decide_False, decide_False, decide_True. }
    rewrite Forall_forall in Hall. intros a b Ha Hb.
    destruct (Hall a Ha) as [ta Hta], (Hall b Hb) as [tb Htb].
    unfold createdTime, epochTime. rewrite Hta, Htb. simpl.
    eexists. split; [done|]. apply Qcompare_sub_opp. }
  apply (consistent_by_key _ featuredOf). intros a b _ _.
  eexists. split; [done|]. apply Qcompare_sub.
Qed.

Lemma sortedProducts_stableSort sortKey l :
  (∀ a b, a ∈ l → b ∈ l → comparator sortKey a b ≠ Js.NaN) →
  sortedProducts l sortKey = Js.stableSort (comparator sortKey) l.
Proof.
  intros Hnum. apply Array_sort_consistent. by apply comparator_consistent.
Qed.

Lemma sortedProducts_Permutation l sortKey : sortedProducts l sortKey ≡ₚ l.
Proof. apply Array_sort_Permutation. Qed.

(** C3 (amended). On a list in which every [createdAt] parses,
    [sortProducts(products, 'newest')] is a rearrangement of the products
    in descending order of the parsed timestamp. A missing or unparseable
    [createdAt] is not read as the epoch: the comparator gives [NaN] for
    it against every product. *)
Theorem C3_newest_descending (products : list Product) :
  Forall parseable products →
  sortedProducts products "newest" ≡ₚ products
  ∧ StronglySorted (λ a b, epochTime b ≤ epochTime a)
      (sortedProducts products "newest")
  ∧ (∀ a b, ¬ parseable a ∨ ¬ parseable b →
            comparator "newest" a b = Js.NaN).
Proof.
  intros Hall. split_and!.
  - apply sortedProducts_Permutation.
  - rewrite sortedProducts_stableSort.
    2:{ rewrite Forall_forall in Hall. intros a b Ha Hb.
        apply comparator_number. right. auto. }
    apply (sort_sorted _ _ parseable); [| | |done].
    + intros x y z _ _ _. lia.
    + intros x y [tx Hx] [ty Hy]. rewrite (newest_before y x ty tx) by done.
      unfold epochTime. rewrite Hx, Hy. simpl. intros ?%bool_decide_eq_true. lia.
    + intros x y [tx Hx] [ty Hy]. rewrite (newest_before y x ty tx) by done.
      unfold epochTime. rewrite Hx, Hy. simpl. intros ?%bool_decide_eq_false. lia.
  - intros a b Hnot. apply newest_unparseable_ties. unfold parseable in Hnot.
    rewrite <- !eq_None_not_Some in Hnot. done.
Qed.

Lemma sortProducts_sorted (σ : gmap positive (list Product)) products l sortKey :
  σ !! products = Some l →
  sortProducts σ products sortKey
  = Some (fresh (dom σ),
          <[fresh (dom σ) := sortedProducts l sortKey]> σ).
Proof.
  intros Hl. unfold sortProducts, slice, sortInPlace. rewrite Hl. simpl.
  f_equal. f_equal. unfold sortedProducts.
  apply map_eq. intros a.
  destruct (decide (fresh (dom σ) = a)) as [<-|Hne].
  - by rewrite lookup_alter_eq, !lookup_insert_eq.
  - by rewrite lookup_alter_ne, !lookup_insert_ne.
Qed.

(** C4 (amended). [sortProducts] returns a new array and leaves the array
    it was given (and every other array) as it was; the new array is a
    rearrangement of the input. When the comparator of the sort key gives
    a number for every two products of the list, products that compare
    equal keep their input order: that is so for every sort key other than
    ['newest'] (for instance for products of one price under
    ['price-asc']), and for ['newest'] when every [createdAt] parses. *)
Theorem C4_sortProducts_fresh_stable (σ : gmap positive (list Product))
    (products : positive) (l : list Product) (sortKey : string) :
  σ !! products = Some l →
  ∃ sorted σ',
    sortProducts σ products sortKey = Some (sorted, σ')
    ∧ (sorted ∉ dom σ)
    ∧ sorted ≠ products
    ∧ (∀ a, a ≠ sorted → σ' !! a = σ !! a)
    ∧ σ' !! products = Some l
    ∧ σ' !! sorted = Some (sortedProducts l sortKey)
    ∧ sortedProducts l sortKey ≡ₚ l
    ∧ ((∀ a b, a ∈ l → b ∈ l → comparator sortKey a b ≠ Js.NaN) →
       ∀ (P : Product → Prop) (HP : ∀ p, Decision (P p)),
         (∀ a b, a ∈ l → b ∈ l → P a → P b → ties sortKey a b) →
         filter P (sortedProducts l sortKey) = filter P l)
    ∧ (sortKey ≠ "newest" ∨ Forall parseable l →
       ∀ a b, a ∈ l → b ∈ l → comparator sortKey a b ≠ Js.NaN)
    ∧ (∀ c : Q,
         filter (λ p, p_price p == c)%Q (sortedProducts l "price-asc")
         = filter (λ p, p_price p == c)%Q l).
Proof.
  intros Hl. eexists _, _. split; [by apply sortProducts_sorted|].
  assert (fresh (dom σ) ∉ dom σ) as Hfresh by apply is_fresh.
  assert (fresh (dom σ) ≠ products) as Hne.
  { intros Heq. apply Hfresh. rewrite Heq. apply elem_of_dom. eauto. }
  split_and!; try done.
  - intros a Ha. by rewrite lookup_insert_ne.
  - by rewrite lookup_insert_ne.
  - by rewrite lookup_insert_eq.
  - apply sortedProducts_Permutation.
  - intros Hnum P HP Htie. rewrite sortedProducts_stableSort by done.
    by apply sort_stable.
  - intros Hcase a b Ha Hb. apply comparator_number.
    destruct Hcase as [?|Hall]; [by left|right].
    rewrite Forall_forall in Hall. auto.
  - intros c. rewrite sortedProducts_stableSort.
    2:{ intros a b _ _. apply comparator_number. by left. }
    apply sort_stable. intros a b _ _ Ha Hb.
    unfold comparator. simpl. apply Qeq_alt. lra.
Qed.
End sortProducts_facts.

(** C3, as stated, fails: an undated product listed first stays ahead of
    a dated one, where a timestamp of 0 would put it last. *)
Lemma C3_undated_stays_first :
  Date_parse (p_createdAt undated) = None
  ∧ Date_parse (p_createdAt dated2024) = Some 1704067200000
  ∧ sortedProducts [undated; dated2024] "newest" = [undated; dated2024]
  ∧ ¬ StronglySorted (λ a b, epochTime b ≤ epochTime a)
        (sortedProducts [undated; dated2024] "newest").
Proof.
  assert (sortedProducts [undated; dated2024] "newest" = [undated; dated2024])
    as Hrun by (by vm_compute).
  split_and!; [done..|]. rewrite Hrun.
  intros Hs. apply StronglySorted_inv in Hs as [_ Hall].
  apply Forall_cons in Hall as [Hle _]. vm_compute in Hle. by apply Hle.
Qed.

Lemma C3_newest_descending_witness :
  sortedProducts [dated2024; dated2025] "newest" ≡ₚ [dated2024; dated2025]
  ∧ StronglySorted (λ a b, epochTime b ≤ epochTime a)
      (sortedProducts [dated2024; dated2025] "newest")
  ∧ epochTime dated2024 < epochTime dated2025.
Proof.
  split; [|split].
  - apply (C3_newest_descending [dated2024; dated2025]).
    repeat constructor; by eexists.
  - apply (C3_newest_descending [dated2024; dated2025]).
    repeat constructor; by eexists.
  - reflexivity.
Defined.

(** C4, as stated, fails under ['newest'] in V8: of the products [u] (no
    date) and [f], which the comparator makes tie, [u] comes first in the
    list and last in the result. *)
Lemma C4_newest_unstable :
  ties "newest" undated dated2025'
  ∧ ties "newest" undated undated
  ∧ ties "newest" dated2025' dated2025'
  ∧ sortedProducts [dated2024; dated2025; undated; dated2025'] "newest"
    = [dated2025; dated2025'; dated2024; undated]
  ∧ filter (λ p, p_id p ∈ ["u"; "f"])
      (sortedProducts [dated2024; dated2025; undated; dated2025'] "newest")
    = [dated2025'; undated]
  ∧ filter (λ p, p_id p ∈ ["u"; "f"])
      [dated2024; dated2025; undated; dated2025']
    = [undated; dated2025'].
Proof.
  assert (sortedProducts [dated2024; dated2025; undated; dated2025'] "newest"
          = [dated2025; dated2025'; dated2024; undated]) as Hrun
    by (by vm_compute).
  split_and!; [done..|by rewrite Hrun|done].
Qed.

Lemma C4_sortProducts_witness :
  ∃ sorted σ',
    sortProducts {[ 1%positive := [undated; dated2024] ]} 1 "price-desc"
    = Some (sorted, σ')
    ∧ σ' !! 1%positive = Some [undated; dated2024]
    ∧ σ' !! sorted = Some [dated2024; undated].
Proof.
  destruct (C4_sortProducts_fresh_stable
              {[ 1%positive := [undated; dated2024] ]} 1
              [undated; dated2024] "price-desc")
    as (sorted & σ' & Hrun & _ & _ & _ & Hin & Hout & _); [reflexivity|].
  exists sorted, σ'. split_and!; [done..|]. rewrite Hout. by vm_compute.
Defined.

(** ** Badges *)

Section loader_facts.
Context `{Host}.

Lemma onSale_markedDown p : onSale p = true ↔ markedDown p.
Proof.
  unfold onSale, markedDown, Js.gt.
  destruct (r_comparePrice p) as [c|]; [|naive_solver].
  rewrite andb_true_iff, negb_true_iff. split.
  - intros [Hz Hgt]. exists c. split_and!; [done| |].
    + intros Hc%Qeq_bool_iff. congruence.
    + destruct (c ?= r_price p)%Q eqn:Hc; try done. by apply Qgt_alt in Hc.
  - intros (c' & [= <-] & Hz & Hlt). split.
    + apply not_true_is_false. by intros Hc%Qeq_bool_iff.
    + apply Qgt_alt in Hlt. by rewrite Hlt.
Qed.

(** With a price that is not negative, a zero compare price is no greater
    than the price, and the test is the comparison alone. *)
Lemma onSale_spec p :
  (0 <= r_price p)%Q → onSale p = true ↔ saleCondition p.
Proof.
  intros Hprice. rewrite onSale_markedDown. unfold markedDown, saleCondition.
  split.
  - intros (c & Hc & _ & Hlt). eauto.
  - intros (c & Hc & Hlt). exists c. split_and!; [done| |done]. lra.
Qed.

Lemma createdNew_spec now p :
  ¬ markedDown p →
  getBadge now p = New ↔ newCondition now p.
Proof.
  intros Hsale. unfold getBadge, newCondition.
  destruct (onSale p) eqn:Hon; [by apply onSale_markedDown in Hon|].
  destruct (r_createdAt p) as [s|]; [|naive_solver].
  case_decide as Hs.
  - subst s. split; [done|]. intros (s & t & [= <-] & Ht & _).
    by rewrite Date_parse_empty in Ht.
  - unfold createdAfter. destruct (Date_parse s) as [t|] eqn:Ht.
    + case_bool_decide; [|naive_solver]. split; [|done]. intros _. eauto.
    + split; [done|]. intros (s' & t' & [= <-] & Ht' & _). congruence.
Qed.

(** C5 (amended). The badge of a feed entry is one of [Sale], [New] and
    [NoBadge]: [Sale] when [comparePrice] is present, not zero and
    strictly greater than [price]; otherwise [New] when [createdAt] parses
    to a timestamp strictly after the instant thirty days before now, so
    that an entry created at that very instant is not new; otherwise
    [NoBadge]. *)
Theorem C5_getBadge_spec (now : Z) (p : RawProduct) :
  getBadge now p ∈ [Sale; New; NoBadge]
  ∧ (getBadge now p = Sale ↔ markedDown p)
  ∧ (getBadge now p = New ↔ ¬ markedDown p ∧ newCondition now p)
  ∧ (getBadge now p = NoBadge ↔ ¬ markedDown p ∧ ¬ newCondition now p)
  ∧ (∀ s, r_createdAt p = Some s →
          Date_parse s = Some (thirtyDaysBefore now) →
          getBadge now p ≠ New).
Proof.
  assert (getBadge now p = Sale ↔ markedDown p) as HSale.
  { rewrite <- onSale_markedDown. unfold getBadge.
    destruct (onSale p); [done|]. split; [|done].
    destruct (r_createdAt p); [|done]. repeat case_match; done. }
  assert (¬ markedDown p → getBadge now p = New ↔ newCondition now p)
    as HNew by (intros; by apply createdNew_spec).
  split_and!.
  - destruct (getBadge now p); set_solver.
  - done.
  - split.
    + intros Hb. assert (¬ markedDown p) by (rewrite <- HSale; congruence).
      split; [done|]. by apply HNew.
    + intros [Hs Hn]. by apply HNew.
  - split.
    + intros Hb. assert (¬ markedDown p) by (rewrite <- HSale; congruence).
      split; [done|]. rewrite <- HNew by done. congruence.
    + intros [Hs Hn]. rewrite <- HSale in Hs. rewrite <- HNew in Hn
        by (by rewrite <- HSale).
      by destruct (getBadge now p).
  - intros s Hs Ht Hb.
    assert (¬ markedDown p) as Hns by (rewrite <- HSale; congruence).
    apply HNew in Hb as (s' & t & Hs' & Ht' & Hlt); [|done].
    simplify_eq. lia.
Qed.

(** ** Catalog loader *)

Lemma normalize_None now index p :
  normalize now index p = None ↔ parseTags (Js.orElseArr (r_tags p) []) = None.
Proof. unfold normalize. by destruct (parseTags _). Qed.

Lemma normalize_featured now index p product :
  normalize now index p = Some product → p_featured product = index.
Proof.
  unfold normalize. destruct (parseTags _); simpl; [|done]. by intros [= <-].
Qed.

(** [normalizeAll] gives the products entry by entry, and fails when the
    normalisation of an entry does. *)
Lemma normalizeAll_Some clock raw products :
  normalizeAll clock raw = Some products ↔
  length products = length raw
  ∧ ∀ i, products !! i = raw !! i ≫= normalize (clock i) i.
Proof.
  unfold normalizeAll. rewrite mapM_Some. split.
  - intros Hall. split.
    + apply Forall2_length in Hall. by rewrite length_imap in Hall.
    + intros i. rewrite Forall2_lookup in Hall. specialize (Hall i).
      rewrite list_lookup_imap in Hall.
      destruct (raw !! i) as [r|]; simpl in *; inversion Hall; congruence.
  - intros [Hlen Hlook]. apply Forall2_lookup. intros i.
    rewrite list_lookup_imap, Hlook.
    destruct (raw !! i) as [r|] eqn:Hr; simpl; [|constructor].
    destruct (normalize (clock i) i r) as [p|] eqn:Hp; [by constructor|].
    apply lookup_lt_Some in Hr as Hlt. rewrite <- Hlen in Hlt.
    apply lookup_lt_is_Some in Hlt as [p' Hp']. rewrite Hlook, Hr in Hp'.
    simpl in Hp'. congruence.
Qed.

Lemma normalizeAll_None clock raw :
  normalizeAll clock raw = None ↔
  ∃ i r, raw !! i = Some r ∧ normalize (clock i) i r = None.
Proof.
  unfold normalizeAll. rewrite mapM_None, Exists_exists. split.
  - intros (o & Ho & Hid). simpl in Hid. subst o.
    apply list_elem_of_lookup in Ho as [i Hi].
    rewrite list_lookup_imap in Hi.
    destruct (raw !! i) as [r|] eqn:Hr; simpl in Hi; [|done].
    exists i, r. split; [done|]. congruence.
  - intros (i & r & Hr & Hnone). exists None. split; [|done].
    apply list_elem_of_lookup. exists i.
    by rewrite list_lookup_imap, Hr; simpl; rewrite Hnone.
Qed.

Lemma loaded_lookup clock el i product :
  (loadShopifyProducts clock el).1 !! i = Some product →
  ∃ r, normalize (clock i) i r = Some product.
Proof.
  destruct el as [[|raw]|]; simpl; [done| |done].
  destruct (normalizeAll clock raw) as [products|] eqn:Hall; simpl; [|done].
  apply normalizeAll_Some in Hall as [_ Hlook]. rewrite Hlook.
  destruct (raw !! i) as [r|]; simpl; [|done]. eauto.
Qed.

(** C9 (amended). An absent feed gives the empty product list and records
    nothing; a feed that fails to parse gives the empty product list and
    records one diagnostic, and so does a parsed feed with an entry whose
    normalisation throws; in no case does the loader throw. A parsed feed
    whose entries all normalise gives one normalised product per entry, in
    the order of the feed, and records nothing. In every product the
    loader returns, [featured] is the zero-based position of its entry. *)
Theorem C9_loadShopifyProducts_spec (clock : nat → Z) :
  loadShopifyProducts clock None = ([], [])
  ∧ loadShopifyProducts clock (Some SyntaxError) = ([], [FailedToParse])
  ∧ (∀ raw,
       (∃ i r, raw !! i = Some r ∧ normalize (clock i) i r = None) →
       loadShopifyProducts clock (Some (Parsed raw)) = ([], [FailedToParse]))
  ∧ (∀ raw,
       (∀ i r, raw !! i = Some r → is_Some (normalize (clock i) i r)) →
       (loadShopifyProducts clock (Some (Parsed raw))).2 = []
       ∧ length (loadShopifyProducts clock (Some (Parsed raw))).1 = length raw
       ∧ ∀ i, (loadShopifyProducts clock (Some (Parsed raw))).1 !! i
              = raw !! i ≫= normalize (clock i) i)
  ∧ (∀ raw i p,
       (loadShopifyProducts clock (Some (Parsed raw))).1 !! i = Some p →
       p_featured p = i).
Proof.
  split_and!; [done..| | |].
  - intros raw Hthrow. apply normalizeAll_None in Hthrow. simpl.
    by rewrite Hthrow.
  - intros raw Hall. simpl.
    destruct (normalizeAll clock raw) as [products|] eqn:Hrun.
    + apply normalizeAll_Some in Hrun as [Hlen Hlook]. done.
    + apply normalizeAll_None in Hrun as (i & r & Hr & Hnone).
      destruct (Hall i r Hr) as [p Hp]. congruence.
  - intros raw i p Hp. apply loaded_lookup in Hp as [r Hr].
    by apply normalize_featured in Hr.
Qed.
End loader_facts.

(** C9, as stated, fails where it has a diagnostic recorded for an absent
    feed: the loader returns before anything is logged. *)
Lemma C9_absent_feed_records_nothing :
  loadShopifyProducts (λ _, 0) None = ([], [])
  ∧ FailedToParse ∉ (loadShopifyProducts (λ _, 0) None).2.
Proof. split; [done|]. simpl. apply not_elem_of_nil. Qed.

(** C5, as stated, fails for a compare price of zero, which the test
    [p.comparePrice && ...] takes as absent: the entry is not on sale
    although its compare price is present and greater than its price. *)
Lemma C5_zero_comparePrice_no_sale :
  saleCondition (exampleRaw (-5) (Some 0%Q) None)
  ∧ getBadge 0 (exampleRaw (-5) (Some 0%Q) None) = NoBadge.
Proof. split; [|reflexivity]. exists 0%Q. split; [reflexivity|]. simpl. lra. Qed.

(** ** Pagination *)

Lemma slice0_take {A} (l : list A) (e : Z) :
  0 ≤ e → Js.slice0 l e = take (Z.to_nat e) l.
Proof.
  intros He. unfold Js.slice0.
  destruct (e <? 0) eqn:Hneg; [|done]. apply Z.ltb_lt in Hneg. lia.
Qed.

(** C10. With the grid and the pagination block in the document,
    [renderGrid] on [n] products and a 1-based page [p] puts the first
    [min n (12 * p)] products in the grid, and displays the pagination
    block with the load-more control if and only if [12 * p < n]. *)
Theorem C10_renderGrid_pagination (dom : Dom) (state : State)
    (products : list Product) :
  is_Some (shopProductGrid dom) →
  is_Some (shopPagination dom) →
  1 ≤ currentPage state →
  cards <$> shopProductGrid (renderGrid dom state products).1
  = Some (take (Z.to_nat (Z.of_nat (length products) `min`
                          (12 * currentPage state))) products)
  ∧ shopPagination (renderGrid dom state products).1
    = Some (bool_decide (12 * currentPage state < Z.of_nat (length products))).
Proof.
  intros [g Hg] [pg Hpg] Hpage. unfold renderGrid. rewrite Hg.
  case_decide as Hlen; simpl; rewrite Hpg; simpl.
  - rewrite Hlen. rewrite Z.min_l by lia. simpl.
    split; [done|]. rewrite bool_decide_eq_false_2; [done|lia].
  - unfold ITEMS_PER_PAGE. rewrite slice0_take by lia. split.
    + f_equal.
      destruct (decide (Z.of_nat (length products) ≤ 12 * currentPage state)).
      * rewrite Z.min_l by lia. rewrite Nat2Z.id.
        rewrite (take_ge products (length products)) by lia.
        apply take_ge. lia.
      * rewrite Z.min_r by lia. f_equal. lia.
    + f_equal. rewrite length_take. apply bool_decide_ext. lia.
Qed.

Lemma C10_renderGrid_witness :
  shopPagination (renderGrid exampleDom initialState [undated; dated2024]).1
  = Some false.
Proof.
  apply (C10_renderGrid_pagination exampleDom initialState [undated; dated2024]).
  - by exists {| cards := []; gridShown := true |}.
  - by exists false.
  - simpl. lia.
Defined.

(** ** Clearing the filters *)

Lemma filterProducts_empty products : filterProducts products ∅ = products.
Proof.
  unfold filterProducts, activeKeysOf. by rewrite map_to_list_empty.
Qed.

Lemma consumeHighlight_frame state :
  activeFilters (consumeHighlight state) = activeFilters state
  ∧ sort (consumeHighlight state) = sort state
  ∧ collection (consumeHighlight state) = collection state
  ∧ currentPage (consumeHighlight state) = currentPage state.
Proof. unfold consumeHighlight. by destruct (nonEmpty _). Qed.

Lemma renderGrid_frame dom state products :
  activeFilters (renderGrid dom state products).2 = activeFilters state
  ∧ sort (renderGrid dom state products).2 = sort state
  ∧ collection (renderGrid dom state products).2 = collection state
  ∧ currentPage (renderGrid dom state products).2 = currentPage state.
Proof.
  unfold renderGrid. destruct (shopProductGrid dom); [|done].
  case_decide; [done|]. apply consumeHighlight_frame.
Qed.

Section clear_facts.
Context `{Host}.
Context (PRODUCTS : list Product) (FILTER_GROUPS : list FilterGroup).

Lemma update_state dom state :
  (update PRODUCTS FILTER_GROUPS dom state).1.2
  = (renderGrid dom state
       (sortedProducts (filterProducts PRODUCTS (activeFilters state))
          (sort state))).2.
Proof. unfold update. by destruct (renderGrid _ _ _). Qed.

End clear_facts.


(** ** Filter taxonomy *)

Lemma addCategory_lookup c vs (cm : gmap string (gset string)) cat :
  addCategory c vs cm !! cat
  = if decide (c ∈ HIDDEN_CATEGORIES) then cm !! cat
    else if decide (c ∈ Js.OBJECT_PROTOTYPE) then cm !! cat
    else if decide (c = cat)
         then Some (default ∅ (cm !! c)
                    ∪ list_to_set (filter (λ val, val ≠ "__proto__") vs))
         else cm !! cat.
Proof.
  unfold addCategory. case_decide; [done|]. case_decide; [done|].
  case_decide as Hc; [subst; by rewrite lookup_insert_eq|].
  by rewrite lookup_insert_ne.
Qed.

(** What one product adds to [categoryMap]. *)
Lemma collectTags_lookup (cm : gmap string (gset string)) p cat :
  (is_Some (collectTags cm p !! cat) ↔
     is_Some (cm !! cat)
     ∨ (listed cat ∧ is_Some (p_parsedTags p !! cat)))
  ∧ (∀ v, v ∈ default ∅ (collectTags cm p !! cat) ↔
       v ∈ default ∅ (cm !! cat)
       ∨ (listed cat ∧ v ≠ "__proto__"
          ∧ ∃ vs, p_parsedTags p !! cat = Some vs ∧ v ∈ vs)).
Proof.
  unfold collectTags, listed. revert cat.
  apply (map_fold_weak_ind (λ r (m : gmap string (list string)), ∀ cat,
    (is_Some (r !! cat) ↔
       is_Some (cm !! cat)
       ∨ (((cat ∉ HIDDEN_CATEGORIES) ∧ (cat ∉ Js.OBJECT_PROTOTYPE))
          ∧ is_Some (m !! cat)))
    ∧ (∀ v, v ∈ default ∅ (r !! cat) ↔
         v ∈ default ∅ (cm !! cat)
         ∨ (((cat ∉ HIDDEN_CATEGORIES) ∧ (cat ∉ Js.OBJECT_PROTOTYPE))
            ∧ v ≠ "__proto__" ∧ ∃ vs, m !! cat = Some vs ∧ v ∈ vs)))).
  - intros cat. rewrite lookup_empty.
    pose proof (@is_Some_None (list string)). naive_solver.
  - intros c vs m r Hfresh IH cat. rewrite addCategory_lookup.
    destruct (IH cat) as [IHs IHv].
    case_decide as Hhid; [|case_decide as Hproto].
    + destruct (decide (c = cat)) as [<-|Hne].
      * split; [rewrite IHs|intros v; rewrite IHv]; naive_solver.
      * rewrite lookup_insert_ne by done. done.
    + destruct (decide (c = cat)) as [<-|Hne].
      * split; [rewrite IHs|intros v; rewrite IHv]; naive_solver.
      * rewrite lookup_insert_ne by done. done.
    + case_decide as Hc.
      * subst cat. rewrite lookup_insert_eq. split.
        { split; [|by eauto]. intros _. right. split; [done|by eauto]. }
        intros v. simpl.
        rewrite elem_of_union, elem_of_list_to_set, list_elem_of_filter, IHv.
        rewrite Hfresh. naive_solver.
      * rewrite lookup_insert_ne by done. done.
Qed.

Lemma foldl_collectTags_lookup products (cm : gmap string (gset string)) cat :
  (is_Some (foldl collectTags cm products !! cat) ↔
     is_Some (cm !! cat) ∨ (listed cat ∧ occursIn products cat))
  ∧ (∀ v, v ∈ default ∅ (foldl collectTags cm products !! cat) ↔
       v ∈ default ∅ (cm !! cat)
       ∨ (listed cat ∧ v ≠ "__proto__" ∧ seenUnder products cat v)).
Proof.
  unfold occursIn, seenUnder. revert cm.
  induction products as [|p products IH]; intros cm; simpl.
  - split; [|intros v]; setoid_rewrite elem_of_nil; naive_solver.
  - destruct (IH (collectTags cm p)) as [IHs IHv].
    destruct (collectTags_lookup cm p cat) as [Hs Hv].
    split.
    + rewrite IHs, Hs. setoid_rewrite elem_of_cons. naive_solver.
    + intros v. rewrite IHv, Hv. setoid_rewrite elem_of_cons. naive_solver.
Qed.

Lemma categoriesOf_dom products cat :
  cat ∈ dom (categoriesOf products) ↔ listed cat ∧ occursIn products cat.
Proof.
  rewrite elem_of_dom. unfold categoriesOf.
  rewrite (proj1 (foldl_collectTags_lookup products ∅ cat)).
  rewrite lookup_empty, is_Some_alt. tauto.
Qed.

Lemma categoriesOf_values products cat v :
  v ∈ default ∅ (categoriesOf products !! cat) ↔
  listed cat ∧ v ≠ "__proto__" ∧ seenUnder products cat v.
Proof.
  unfold categoriesOf.
  rewrite (proj2 (foldl_collectTags_lookup products ∅ cat)).
  rewrite lookup_empty. simpl. set_solver.
Qed.

Lemma elem_of_sortedKeys (s : gset string) x : x ∈ sortedKeys s ↔ x ∈ s.
Proof.
  unfold sortedKeys. rewrite merge_sort_Permutation. apply elem_of_elements.
Qed.

Lemma NoDup_sortedKeys (s : gset string) : NoDup (sortedKeys s).
Proof.
  unfold sortedKeys. rewrite merge_sort_Permutation. apply NoDup_elements.
Qed.

Lemma sortedKeys_sorted (s : gset string) :
  StronglySorted String.le (sortedKeys s).
Proof. apply StronglySorted_merge_sort; apply _. Qed.

Lemma NoDup_PREFERRED_ORDER : NoDup PREFERRED_ORDER.
Proof. apply (bool_decide_unpack _). by vm_compute. Qed.

Lemma hidden_iff cat : cat ∉ HIDDEN_CATEGORIES ↔ cat ≠ "Other".
Proof. unfold HIDDEN_CATEGORIES. set_solver. Qed.

Lemma key_groupOf cm (l : list string) : key <$> (groupOf cm <$> l) = l.
Proof. rewrite <- list_fmap_compose. induction l; by f_equal/=. Qed.

Section taxonomy_facts.
Context (products : list Product).

Let categoryMap := categoriesOf products.
Let preferred :=
  filter (λ cat, is_Some (categoryMap !! cat)) PREFERRED_ORDER.
Let remaining :=
  filter (λ cat, cat ∉ (list_to_set preferred : gset string))
    (sortedKeys (dom categoryMap)).

Lemma buildFilterGroups_keys :
  key <$> buildFilterGroups products = preferred ++ remaining.
Proof.
  unfold buildFilterGroups. by rewrite fmap_app, !key_groupOf.
Qed.

Lemma elem_of_preferred cat :
  cat ∈ preferred ↔ cat ∈ PREFERRED_ORDER ∧ cat ∈ dom categoryMap.
Proof.
  unfold preferred. rewrite list_elem_of_filter, elem_of_dom. tauto.
Qed.

Lemma elem_of_remaining cat :
  cat ∈ remaining ↔ (cat ∉ PREFERRED_ORDER) ∧ cat ∈ dom categoryMap.
Proof.
  unfold remaining.
  rewrite list_elem_of_filter, elem_of_sortedKeys, elem_of_list_to_set.
  rewrite elem_of_preferred. tauto.
Qed.

Lemma elem_of_keys cat :
  cat ∈ key <$> buildFilterGroups products ↔ cat ∈ dom categoryMap.
Proof.
  rewrite buildFilterGroups_keys, elem_of_app.
  rewrite elem_of_preferred, elem_of_remaining.
  destruct (decide (cat ∈ PREFERRED_ORDER)); tauto.
Qed.

Lemma NoDup_keys : NoDup (key <$> buildFilterGroups products).
Proof.
  rewrite buildFilterGroups_keys. apply NoDup_app. split_and!.
  - apply NoDup_filter, NoDup_PREFERRED_ORDER.
  - intros cat. rewrite elem_of_preferred, elem_of_remaining. tauto.
  - apply NoDup_filter, NoDup_sortedKeys.
Qed.

Lemma elem_of_groups g :
  g ∈ buildFilterGroups products ↔
  key g ∈ dom categoryMap ∧ g = groupOf categoryMap (key g).
Proof.
  split.
  - intros Hg. split.
    + apply elem_of_keys. by apply list_elem_of_fmap_2.
    + unfold buildFilterGroups in Hg. fold categoryMap in Hg.
      apply elem_of_app in Hg as [Hg|Hg];
        apply list_elem_of_fmap in Hg as (cat & -> & _); done.
  - intros [Hk Hg]. apply elem_of_keys in Hk.
    apply list_elem_of_fmap in Hk as (g' & Hkey & Hg').
    assert (g' = groupOf categoryMap (key g')) as Hg''.
    { unfold buildFilterGroups in Hg'. fold categoryMap in Hg'.
      apply elem_of_app in Hg' as [Hg'|Hg'];
        apply list_elem_of_fmap in Hg' as (cat & -> & _); done. }
    rewrite Hg, Hkey, <- Hg''. done.
Qed.

(** The taxonomy of a catalog none of whose categories names a member of
    [Object.prototype] (as in every catalog the loader returns):
    [buildFilterGroups] gives exactly one group for every category, other
    than the hidden ['Other'], that occurs in the [parsedTags] of a
    product: first the categories of the preferred list, in the order of
    that list, then the other categories in ascending order. The values of
    a group are the distinct values seen under its category, the value
    [__proto__] left out, in ascending order. *)
Theorem buildFilterGroups_taxonomy :
  (∀ p cat, p ∈ products → is_Some (p_parsedTags p !! cat) →
            cat ∉ Js.OBJECT_PROTOTYPE) →
  NoDup (key <$> buildFilterGroups products)
  ∧ (∀ cat, cat ∈ key <$> buildFilterGroups products ↔
            cat ≠ "Other" ∧ occursIn products cat)
  ∧ (∃ pre rest,
       key <$> buildFilterGroups products = pre ++ rest
       ∧ pre `sublist_of` PREFERRED_ORDER
       ∧ (∀ cat, cat ∈ pre ↔
            cat ∈ PREFERRED_ORDER ∧ cat ∈ key <$> buildFilterGroups products)
       ∧ Forall (λ cat, cat ∉ PREFERRED_ORDER) rest
       ∧ StronglySorted String.le rest)
  ∧ (∀ g, g ∈ buildFilterGroups products →
       label g = key g
       ∧ NoDup (values g)
       ∧ StronglySorted String.le (values g)
       ∧ ∀ v, v ∈ values g ↔ v ≠ "__proto__" ∧ seenUnder products (key g) v)
  ∧ (∀ k v,
       (∃ g, g ∈ buildFilterGroups products ∧ key g = k ∧ v ∈ values g) ↔
       k ≠ "Other" ∧ v ≠ "__proto__" ∧ seenUnder products k v).
Proof.
  intros Hown.
  assert (∀ cat, occursIn products cat → cat ∉ Js.OBJECT_PROTOTYPE) as Hocc.
  { intros cat (p & Hp & Hcat). by apply (Hown p). }
  assert (∀ cat, cat ∈ key <$> buildFilterGroups products ↔
                 cat ≠ "Other" ∧ occursIn products cat) as Hkeys.
  { intros cat. rewrite elem_of_keys. unfold categoryMap.
    rewrite categoriesOf_dom. unfold listed. rewrite hidden_iff.
    specialize (Hocc cat). tauto. }
  assert (∀ g, g ∈ buildFilterGroups products →
            ∀ v, v ∈ values g ↔ v ≠ "__proto__" ∧ seenUnder products (key g) v)
    as Hvals.
  { intros g [Hk ->]%elem_of_groups v. simpl.
    rewrite elem_of_sortedKeys. unfold categoryMap.
    rewrite categoriesOf_values. apply categoriesOf_dom in Hk. tauto. }
  split_and!.
  - apply NoDup_keys.
  - exact Hkeys.
  - exists preferred, remaining. split_and!.
    + apply buildFilterGroups_keys.
    + apply sublist_filter.
    + intros cat. rewrite elem_of_preferred, elem_of_keys. done.
    + apply Forall_forall. intros cat Hcat.
      by apply elem_of_remaining in Hcat as [? _].
    + apply StronglySorted_filter, sortedKeys_sorted.
  - intros g Hg. split_and!; [| | |by apply Hvals];
      apply elem_of_groups in Hg as [_ ->]; simpl;
      [done|apply NoDup_sortedKeys|apply sortedKeys_sorted].
  - intros k v. split.
    + intros (g & Hg & <- & Hv). apply Hvals in Hv as [Hv Hseen]; [|done].
      split_and!; [|done..].
      apply Hkeys. by apply list_elem_of_fmap_2.
    + intros (Hk & Hv & Hseen).
      assert (k ∈ key <$> buildFilterGroups products) as Hin.
      { apply Hkeys. split; [done|].
        destruct Hseen as (p & vs & Hp & Hvs & _). exists p. eauto. }
      apply list_elem_of_fmap in Hin as (g & -> & Hg).
      exists g. split_and!; [done..|]. by apply Hvals.
Qed.
End taxonomy_facts.

Lemma buildFilterGroups_taxonomy_witness :
  NoDup (key <$> buildFilterGroups [productA; productC]).
Proof.
  refine (proj1 (buildFilterGroups_taxonomy [productA; productC] _)).
  intros p cat Hp [vs Hcat].
  assert (cat ∈ ["Industry"; "Gender"]) as Hin.
  { repeat (apply elem_of_cons in Hp as [->|Hp]);
      [..|by apply elem_of_nil in Hp];
      apply elem_of_dom_2 in Hcat; revert Hcat.
    - assert (dom (p_parsedTags productA) = list_to_set ["Industry"]) as ->
        by (apply (bool_decide_unpack _); by vm_compute).
      set_solver.
    - assert (dom (p_parsedTags productC)
              = list_to_set ["Industry"; "Gender"]) as ->
        by (apply (bool_decide_unpack _); by vm_compute).
      set_solver. }
  repeat (apply elem_of_cons in Hin as [->|Hin]);
    [apply (bool_decide_unpack _); by vm_compute..|].
  by apply elem_of_nil in Hin.
Defined.

(** C6 fails on the value [__proto__]: the values of a category are
    collected as the keys of a plain object, and the assignment
    [categoryMap[cat]['__proto__'] = true] makes no key. A feed entry
    tagged [Size: __proto__] gives the group [Size] without a value,
    although the value is seen under that category. *)
Lemma C6_proto_value_lost :
  ∃ product,
    loadShopifyProducts (λ _, 0) (Some (Parsed [taggedRaw ["Size: __proto__"]]))
    = ([product], [])
    ∧ p_parsedTags product !! "Size" = Some ["__proto__"]
    ∧ seenUnder [product] "Size" "__proto__"
    ∧ buildFilterGroups [product]
      = [ {| key := "Size"; label := "Size"; values := [] |} ].
Proof.
  eexists. split; [by vm_compute|]. split; [by vm_compute|].
  split; [|by vm_compute].
  eexists _, _. split_and!; [by left|by vm_compute|by left].
Qed.

(** ** URL parameters *)

Lemma commaFree_cons a v :
  commaFree (String a v) ↔ a ≠ ","%char ∧ commaFree v.
Proof.
  unfold commaFree. simpl. case_decide.
  - naive_solver.
  - destruct (Js.indexOf "," v); naive_solver.
Qed.

Lemma split_commaFree v : commaFree v → split "," v = [v].
Proof.
  induction v as [|a v IH]; [done|].
  intros [Ha Hv]%commaFree_cons. simpl.
  rewrite decide_False by done. by rewrite IH.
Qed.

Lemma split_commaFree_app v s :
  commaFree v → split "," (v +:+ String "," s) = v :: split "," s.
Proof.
  induction v as [|a v IH].
  - intros _. done.
  - intros [Ha Hv]%commaFree_cons. change (String a v +:+ String "," s)
      with (String a (v +:+ String "," s)). simpl.
    rewrite decide_False by done. by rewrite IH.
Qed.

Lemma split_concat vs :
  vs ≠ [] → Forall commaFree vs → split "," (String.concat "," vs) = vs.
Proof.
  induction vs as [|v vs IH]; [done|]. intros _ Hall.
  apply Forall_cons in Hall as [Hv Hall].
  destruct vs as [|w ws]; [by apply split_commaFree|].
  change (String.concat "," (v :: w :: ws))
    with (v +:+ String "," (String.concat "," (w :: ws))).
  rewrite split_commaFree_app by done. f_equal. by apply IH.
Qed.

Lemma concat_nonempty v vs : v ≠ "" → String.concat "," (v :: vs) ≠ "".
Proof. destruct v, vs; done. Qed.

Lemma get_set_eq name value params :
  URLSearchParams.get name (URLSearchParams.set name value params) = Some value.
Proof.
  unfold URLSearchParams.get.
  induction params as [|[n v] params IH]; simpl.
  - by rewrite bool_decide_eq_true_2.
  - case_decide; simpl.
    + by rewrite bool_decide_eq_true_2.
    + by rewrite bool_decide_eq_false_2.
Qed.

Lemma get_filter_ne name n params :
  n ≠ name →
  URLSearchParams.get n (filter (λ nv, nv.1 ≠ name) params)
  = URLSearchParams.get n params.
Proof.
  intros Hne. unfold URLSearchParams.get.
  induction params as [|[m v] params IH]; [done|].
  rewrite filter_cons. cbn [fst]. case_decide as Hm.
  - cbn [List.find fst]. by destruct (bool_decide (m = n)).
  - cbn [List.find fst]. rewrite (bool_decide_eq_false_2 (m = n)); [done|].
    intros ->. congruence.
Qed.

Lemma get_set_ne name n value params :
  n ≠ name →
  URLSearchParams.get n (URLSearchParams.set name value params)
  = URLSearchParams.get n params.
Proof.
  intros Hne.
  induction params as [|[m v] params IH]; simpl.
  - unfold URLSearchParams.get. simpl.
    by rewrite bool_decide_eq_false_2.
  - case_decide as Hm.
    + subst m. unfold URLSearchParams.get at 1 2. simpl.
      rewrite !bool_decide_eq_false_2 by done.
      by apply get_filter_ne.
    + unfold URLSearchParams.get in *. simpl.
      case_bool_decide; [done|]. apply IH.
Qed.

Section codec_facts.
Context (FILTER_GROUPS : list FilterGroup) (state : State).

Lemma get_writeFilters n params groups :
  URLSearchParams.get n (foldl (writeFilter state) params groups)
  = if decide (n ∈ key <$> groups)
    then match selection state n with
         | Some vs => Some (String.concat "," vs)
         | None => URLSearchParams.get n params
         end
    else URLSearchParams.get n params.
Proof.
  revert params. induction groups as [|g groups IH]; intros params; [done|].
  simpl. rewrite IH.
  assert (URLSearchParams.get n (writeFilter state params g)
          = if decide (n = key g)
            then match selection state n with
                 | Some vs => Some (String.concat "," vs)
                 | None => URLSearchParams.get n params
                 end
            else URLSearchParams.get n params) as ->.
  { unfold writeFilter, selection.
    destruct (decide (n = key g)) as [Hn|Hn].
    - subst n. destruct (activeFilters state !! key g) as [[|v vs]|]; try done.
      apply get_set_eq.
    - destruct (activeFilters state !! key g) as [[|v vs]|]; try done.
      by apply get_set_ne. }
  destruct (decide (n = key g)) as [->|Hn].
  - rewrite (decide_True (P := key g ∈ key g :: _)) by left.
    case_decide; by destruct (selection state (key g)).
  - case_decide as Hin.
    + rewrite decide_True by (by right). done.
    + rewrite decide_False; [done|]. by intros [?|?]%elem_of_cons.
Qed.

Lemma lookup_readFilters params k (filters : gmap string (list string)) groups :
  foldl (readFilter params) filters groups !! k
  = if decide (k ∈ key <$> groups)
    then match nonEmpty (URLSearchParams.get k params) with
         | Some val => Some (split "," val)
         | None => filters !! k
         end
    else filters !! k.
Proof.
  revert filters. induction groups as [|g groups IH]; intros filters; [done|].
  simpl. rewrite IH.
  assert (readFilter params filters g !! k
          = if decide (k = key g)
            then match nonEmpty (URLSearchParams.get k params) with
                 | Some val => Some (split "," val)
                 | None => filters !! k
                 end
            else filters !! k) as ->.
  { unfold readFilter. destruct (decide (k = key g)) as [Hk|Hk].
    - subst k. destruct (nonEmpty (URLSearchParams.get (key g) params));
        [|done]. by rewrite lookup_insert_eq.
    - destruct (nonEmpty (URLSearchParams.get (key g) params)); [|done].
      by rewrite lookup_insert_ne. }
  destruct (decide (k = key g)) as [->|Hk].
  - rewrite (decide_True (P := key g ∈ key g :: _)) by left.
    case_decide; by destruct (nonEmpty _).
  - case_decide as Hin.
    + rewrite decide_True by (by right). done.
    + rewrite decide_False; [done|]. by intros [?|?]%elem_of_cons.
Qed.

(** The parameters written ahead of the filter groups. *)
Lemma get_written n :
  (∀ g, g ∈ FILTER_GROUPS → key g ∉ RESERVED_PARAMS) →
  URLSearchParams.get n (writeURLParams FILTER_GROUPS state)
  = if decide (n = "collection") then nonEmpty (collection state)
    else if decide (n = "sort")
         then if decide (sort state = "") then None
              else if decide (sort state = "featured") then None
              else Some (sort state)
    else if decide (n ∈ key <$> FILTER_GROUPS)
         then String.concat "," <$> selection state n
    else None.
Proof.
  intros Hres. unfold writeURLParams. rewrite get_writeFilters.
  assert (n ∈ RESERVED_PARAMS → n ∉ key <$> FILTER_GROUPS) as Hn.
  { intros Hr (g & -> & Hg)%list_elem_of_fmap. by apply (Hres g). }
  set (params := match nonEmpty (collection state) with
                 | Some c => URLSearchParams.set "collection" c []
                 | None => []
                 end).
  assert (∀ m, URLSearchParams.get m params
               = if decide (m = "collection") then nonEmpty (collection state)
                 else None) as Hcoll.
  { intros m. unfold params. destruct (nonEmpty (collection state)) as [c|].
    - unfold URLSearchParams.get. simpl. case_bool_decide; by case_decide.
    - by case_decide. }
  set (params' := if decide (sort state = "") then params
                  else if decide (sort state = "featured") then params
                  else URLSearchParams.set "sort" (sort state) params).
  assert (URLSearchParams.get n params'
          = if decide (n = "collection") then nonEmpty (collection state)
            else if decide (n = "sort")
                 then if decide (sort state = "") then None
                      else if decide (sort state = "featured") then None
                      else Some (sort state)
            else None) as Hsort.
  { unfold params'.
    destruct (decide (n = "sort")) as [->|Hns].
    - rewrite (decide_False (P := "sort" = "collection")) by done.
      repeat case_decide; rewrite ?Hcoll, ?get_set_eq; try done.
    - repeat case_decide; rewrite ?get_set_ne, ?Hcoll by done;
        by rewrite ?decide_True, ?decide_False by done. }
  rewrite Hsort. clear Hsort Hcoll.
  destruct (decide (n = "collection")) as [->|Hnc].
  { rewrite decide_False by (apply Hn; set_solver).  done. }
  destruct (decide (n = "sort")) as [->|Hns].
  { rewrite decide_False by (apply Hn; set_solver). done. }
  case_decide; [|done]. by destruct (selection state n).
Qed.
End codec_facts.

Lemma COLLECTION_MAP_plain c k v :
  COLLECTION_MAP !! c = Some (k, v) → plainValue v.
Proof.
  assert (map_Forall (λ _ kv, plainValue kv.2) COLLECTION_MAP) as Hall.
  { apply (bool_decide_unpack _). by vm_compute. }
  intros Hc. apply (Hall c (k, v) Hc).
Qed.

Lemma COLLECTION_MAP_nonEmpty (collection : option string) :
  nonEmpty collection ≫= collectionMapping
  = collection ≫= collectionMapping.
Proof.
  destruct collection as [c|]; [|done]. simpl.
  case_decide; [|done]. by subst c.
Qed.

Lemma collectionMapping_own c :
  c ∉ Js.OBJECT_PROTOTYPE → collectionMapping c = COLLECTION_MAP !! c.
Proof.
  intros Hc. unfold collectionMapping.
  destruct (COLLECTION_MAP !! c); [done|]. by rewrite decide_False.
Qed.

Lemma collectionMapping_Some c k v :
  collectionMapping c = Some (k, v) ↔
  COLLECTION_MAP !! c = Some (k, v)
  ∨ (c ∈ Js.OBJECT_PROTOTYPE ∧ k = "undefined" ∧ v = Js.UNDEFINED).
Proof.
  unfold collectionMapping.
  destruct (COLLECTION_MAP !! c) as [kv|] eqn:Hc.
  - split; [by left|]. intros [?|(Hproto & _)]; [done|].
    assert (map_Forall (λ c _, c ∉ Js.OBJECT_PROTOTYPE) COLLECTION_MAP) as Hall.
    { apply (bool_decide_unpack _). by vm_compute. }
    destruct (Hall c kv Hc Hproto).
  - case_decide; naive_solver.
Qed.

Lemma nonEmpty_idemp o : nonEmpty (nonEmpty o) = nonEmpty o.
Proof.
  destruct o as [s|]; [|done]. simpl. case_decide; [done|].
  simpl. by rewrite decide_False.
Qed.

Lemma writeURLParams_ext FILTER_GROUPS a b :
  activeFilters a = activeFilters b →
  sort a = sort b →
  nonEmpty (collection a) = nonEmpty (collection b) →
  writeURLParams FILTER_GROUPS a = writeURLParams FILTER_GROUPS b.
Proof.
  intros Hf Hs Hc. unfold writeURLParams. rewrite Hs, Hc.
  generalize (if decide (sort b = "")
              then match nonEmpty (collection b) with
                   | Some c => URLSearchParams.set "collection" c []
                   | None => []
                   end
              else if decide (sort b = "featured")
                   then match nonEmpty (collection b) with
                        | Some c => URLSearchParams.set "collection" c []
                        | None => []
                        end
                   else URLSearchParams.set "sort" (sort b)
                          match nonEmpty (collection b) with
                          | Some c => URLSearchParams.set "collection" c []
                          | None => []
                          end).
  induction FILTER_GROUPS as [|g groups IH]; intros params; [done|].
  simpl. unfold writeFilter at 2 4. rewrite Hf. apply IH.
Qed.

Lemma split_nonempty s : split "," s ≠ [].
Proof.
  destruct s as [|a s]; [done|]. simpl.
  case_decide; [done|]. by destruct (split "," s).
Qed.

Lemma concat_cons_cons v w ws :
  String.concat "," (v :: w :: ws)
  = v +:+ String "," (String.concat "," (w :: ws)).
Proof. reflexivity. Qed.

Lemma concat_String a h t :
  String.concat "," (String a h :: t) = String a (String.concat "," (h :: t)).
Proof. destruct t; reflexivity. Qed.

Lemma concat_split s : String.concat "," (split "," s) = s.
Proof.
  induction s as [|a s IH]; [done|]. simpl.
  pose proof (split_nonempty s) as Hne.
  destruct (split "," s) as [|h t]; [done|].
  case_decide as Ha.
  - subst a. rewrite concat_cons_cons, IH. done.
  - by rewrite concat_String, IH.
Qed.

Lemma split_commaFree_parts s : Forall commaFree (split "," s).
Proof.
  induction s as [|a s IH]; [by repeat constructor|]. simpl.
  pose proof (split_nonempty s) as Hne.
  destruct (split "," s) as [|h t]; [done|].
  apply Forall_cons in IH as [Hh Ht].
  case_decide as Ha.
  - constructor; [done|]. by constructor.
  - constructor; [|done]. by apply commaFree_cons.
Qed.

Lemma set_fresh name value (params : URLSearchParams.t) :
  name ∉ params.*1 →
  URLSearchParams.set name value params = params ++ [(name, value)].
Proof.
  induction params as [|[m v] params IH]; simpl; [done|].
  rewrite not_elem_of_cons. intros [Hm Hn].
  rewrite decide_False by done. by rewrite IH.
Qed.

Lemma foldl_writeFilter_fresh state groups (params : URLSearchParams.t) :
  NoDup (key <$> groups) →
  (∀ g, g ∈ groups → key g ∉ params.*1) →
  foldl (writeFilter state) params groups
  = params
    ++ omap (λ group,
               (λ vs, (key group, String.concat "," vs))
                 <$> selection state (key group))
         groups.
Proof.
  revert params. induction groups as [|g groups IH]; intros params Hnd Hfree.
  - by rewrite app_nil_r.
  - rewrite fmap_cons in Hnd. apply NoDup_cons in Hnd as [Hg Hnd]. simpl.
    assert (key g ∉ params.*1) as Hkey by (apply Hfree; left).
    unfold writeFilter at 2. unfold selection at 1.
    destruct (activeFilters state !! key g) as [[|v vs]|] eqn:Hsel; simpl.
    + apply IH; [done|]. intros g' Hg'. apply Hfree. by right.
    + rewrite set_fresh by done. rewrite IH; [by rewrite <- app_assoc|done|].
      intros g' Hg'. rewrite fmap_app, elem_of_app. simpl.
      rewrite list_elem_of_singleton. intros [Hin|Heq].
      * revert Hin. apply Hfree. by right.
      * apply Hg. rewrite <- Heq. by apply list_elem_of_fmap_2.
    + apply IH; [done|]. intros g' Hg'. apply Hfree. by right.
Qed.

Lemma concat_empty vs : String.concat "," vs = "" → vs = [] ∨ vs = [ "" ].
Proof.
  destruct vs as [|v [|w ws]]; [by left|simpl; intros ->; by right|].
  rewrite concat_cons_cons. by destruct v.
Qed.

Lemma get_app n (l1 l2 : URLSearchParams.t) :
  URLSearchParams.get n (l1 ++ l2)
  = match URLSearchParams.get n l1 with
    | Some v => Some v
    | None => URLSearchParams.get n l2
    end.
Proof.
  unfold URLSearchParams.get.
  induction l1 as [|[m v] l1 IH]; simpl; [done|]. by case_bool_decide.
Qed.

Lemma get_optionalParam n name value :
  URLSearchParams.get n (optionalParam name value)
  = if decide (n = name) then value else None.
Proof.
  unfold URLSearchParams.get.
  destruct value as [v|]; simpl; [|by case_decide].
  case_bool_decide; case_decide; by simplify_eq.
Qed.

Lemma get_groupParams n val groups :
  URLSearchParams.get n (groupParams val groups)
  = if decide (n ∈ key <$> groups) then val n else None.
Proof.
  induction groups as [|g groups IH]; [done|]. rewrite fmap_cons.
  assert (groupParams val (g :: groups)
          = optionalParam (key g) (val (key g)) ++ groupParams val groups)
    as ->.
  { unfold groupParams. simpl. by destruct (val (key g)). }
  rewrite get_app, get_optionalParam, IH.
  destruct (decide (n = key g)) as [->|Hne].
  - rewrite (decide_True (P := key g ∈ key g :: _)) by left.
    destruct (val (key g)); [done|]. by case_decide.
  - case_decide as Hin.
    + rewrite decide_True by (by right). done.
    + rewrite decide_False; [done|]. by intros [?|?]%elem_of_cons.
Qed.

Lemma omap_ext_in {A B} (f g : A → option B) (l : list A) :
  (∀ x, x ∈ l → f x = g x) → omap f l = omap g l.
Proof.
  induction l as [|x l IH]; intros Hfg; [done|]. csimpl.
  rewrite (Hfg x) by left. rewrite IH; [done|].
  intros y Hy. apply Hfg. by right.
Qed.

(** Decoding a canonical query string and encoding the result. *)
Lemma canonicalQuery_roundtrip FILTER_GROUPS params page :
  NoDup (key <$> FILTER_GROUPS) →
  (∀ g, g ∈ FILTER_GROUPS → key g ∉ RESERVED_PARAMS) →
  canonicalQuery FILTER_GROUPS params →
  writeURLParams FILTER_GROUPS (readURLParams FILTER_GROUPS params page)
  = params.
Proof.
  intros Hnd Hres (c & s & val & -> & Hc & Hs & Hfeat & Hval & Hown & Halias).
  set (params := optionalParam "collection" c ++ optionalParam "sort" s
                 ++ groupParams val FILTER_GROUPS).
  assert (∀ n, n ∈ RESERVED_PARAMS → n ∉ key <$> FILTER_GROUPS) as Hn.
  { intros n Hr (g & -> & Hg)%list_elem_of_fmap. by apply (Hres g). }
  assert (∀ n, URLSearchParams.get n params
               = if decide (n = "collection") then c
                 else if decide (n = "sort") then s
                 else if decide (n ∈ key <$> FILTER_GROUPS) then val n
                 else None) as Hget.
  { intros n. unfold params.
    rewrite !get_app, !get_optionalParam, get_groupParams.
    destruct (decide (n = "collection")) as [->|?].
    - destruct c; [done|]. rewrite decide_False by done.
      rewrite decide_False; [done|]. apply Hn. set_solver.
    - destruct (decide (n = "sort")) as [->|?]; [|done].
      destruct s; [done|]. rewrite decide_False; [done|].
      apply Hn. set_solver. }
  assert (nonEmpty c = c) as Hcne.
  { destruct c as [x|]; [|done]. simpl. rewrite decide_False; [done|].
    by intros ->. }
  set (F := foldl (readFilter params) ∅ FILTER_GROUPS).
  assert (∀ g, g ∈ FILTER_GROUPS →
               F !! key g = split "," <$> val (key g)) as HF.
  { intros g Hg. unfold F. rewrite lookup_readFilters, lookup_empty.
    assert (key g ∈ key <$> FILTER_GROUPS) as Hin
      by (by apply list_elem_of_fmap_2).
    rewrite decide_True by done. rewrite Hget.
    rewrite decide_False by (intros Heq; apply (Hres g Hg); rewrite Heq; set_solver).
    rewrite decide_False by (intros Heq; apply (Hres g Hg); rewrite Heq; set_solver).
    rewrite decide_True by done.
    destruct (val (key g)) as [v|] eqn:Hv; [|done]. simpl.
    rewrite decide_False; [done|]. intros ->. by apply (Hval (key g)). }
  assert (∀ g, g ∈ FILTER_GROUPS →
               applyCollection c F !! key g = F !! key g) as Happly.
  { intros g Hg. unfold applyCollection.
    destruct (c ≫= collectionMapping) as [[k0 v0]|] eqn:Hcoll; [|done].
    apply bind_Some in Hcoll as (c0 & -> & Hmap).
    rewrite collectionMapping_own in Hmap by (by apply Hown).
    destruct (decide (k0 = key g)) as [->|Hne].
    - destruct (Halias c0 (key g) v0 eq_refl Hmap) as [v Hv].
      { by apply list_elem_of_fmap_2. }
      pose proof (HF g Hg) as Hk. rewrite Hv in Hk. simpl in Hk.
      pose proof (split_nonempty v).
      destruct (split "," v) as [|x xs]; [done|]. rewrite Hk. simpl. exact Hk.
    - destruct (F !! k0) as [[|x xs]|]; [|done|]; by rewrite lookup_insert_ne. }
  unfold writeURLParams. rewrite foldl_writeFilter_fresh; [|done|].
  - cbn [readURLParams collection sort activeFilters].
    rewrite !Hget. simpl. rewrite Hcne, Hcne.
    assert (params = (optionalParam "collection" c ++ optionalParam "sort" s)
                     ++ groupParams val FILTER_GROUPS) as Hparams
      by (unfold params; by rewrite app_assoc).
    etrans; [|symmetry; exact Hparams]. f_equal.
    + assert (Js.orElse s "featured" = default "featured" s) as ->.
      { destruct s as [y|]; [|done]. simpl. rewrite decide_False; [done|].
        by intros ->. }
      destruct s as [y|]; simpl.
      * rewrite decide_False by (by intros ->).
        rewrite decide_False by (by intros ->). by destruct c.
      * destruct c; by rewrite ?app_nil_r.
    + unfold groupParams. apply omap_ext_in. intros g Hg.
      unfold selection.
      assert (activeFilters (readURLParams FILTER_GROUPS params page)
              = applyCollection c F) as ->.
      { cbn [readURLParams activeFilters]. rewrite Hget.
        rewrite decide_True by done. by rewrite Hcne. }
      rewrite (Happly g Hg), (HF g Hg).
      destruct (val (key g)) as [v|]; [|done]. simpl.
      pose proof (split_nonempty v) as Hne. pose proof (concat_split v) as Hcs.
      destruct (split "," v) as [|x xs]; [done|].
      change (Some (key g, String.concat "," (x :: xs)) = Some (key g, v)).
      by rewrite Hcs.
  - intros g Hg. specialize (Hres g Hg). unfold RESERVED_PARAMS in Hres.
    cbn [readURLParams collection sort].
    destruct (nonEmpty (nonEmpty (URLSearchParams.get "collection" params)))
      as [x|]; repeat case_decide; simpl; set_solver.
Qed.

Section roundtrip.
Context (FILTER_GROUPS : list FilterGroup) (state page : State).
Hypothesis sort_set : sort state ≠ "".
Hypothesis keys_free :
  ∀ g, g ∈ FILTER_GROUPS → key g ∉ RESERVED_PARAMS.
Hypothesis collection_own :
  ∀ c, collection state = Some c → c ∉ Js.OBJECT_PROTOTYPE.
Hypothesis selections_plain :
  ∀ k vs, activeFilters state !! k = Some vs →
    (k ∈ key <$> FILTER_GROUPS ∧ vs ≠ [] ∧ vs ≠ [ "" ] ∧ Forall commaFree vs)
    ∨ (∃ c v, collection state = Some c
              ∧ COLLECTION_MAP !! c = Some (k, v) ∧ vs = [v]).
Hypothesis collection_applied :
  ∀ c k v, collection state = Some c → COLLECTION_MAP !! c = Some (k, v) →
    ∃ x xs, activeFilters state !! k = Some (x :: xs).

Let written := writeURLParams FILTER_GROUPS state.
Let read := foldl (readFilter written) ∅ FILTER_GROUPS.

Lemma selection_plain k vs :
  activeFilters state !! k = Some vs →
  vs ≠ [] ∧ vs ≠ [ "" ] ∧ Forall commaFree vs ∧ selection state k = Some vs.
Proof.
  intros Hk. unfold selection. rewrite Hk.
  destruct (selections_plain k vs Hk)
    as [(_ & Hne & Hes & Hall)|(c & v & _ & Hc & ->)].
  - split_and!; [done..|]. by destruct vs.
  - destruct (COLLECTION_MAP_plain c k v Hc) as [Hv Hfree].
    split_and!; [done|congruence| |done].
    apply Forall_cons. split; [done|constructor].
Qed.

Lemma read_lookup k :
  read !! k = if decide (k ∈ key <$> FILTER_GROUPS)
              then activeFilters state !! k else None.
Proof.
  unfold read. rewrite lookup_readFilters, lookup_empty.
  case_decide as Hin; [|done].
  assert (k ∉ RESERVED_PARAMS) as Hres.
  { apply list_elem_of_fmap in Hin as (g & -> & Hg). by apply keys_free. }
  unfold written. rewrite get_written by done.
  rewrite decide_False by (intros ->; apply Hres; set_solver).
  rewrite decide_False by (intros ->; apply Hres; set_solver).
  rewrite decide_True by done.
  destruct (activeFilters state !! k) as [vs|] eqn:Hk.
  - destruct (selection_plain k vs Hk) as (Hne & Hes & Hall & ->). simpl.
    rewrite decide_False.
    + f_equal. by apply split_concat.
    + intros [?|?]%concat_empty; done.
  - unfold selection. by rewrite Hk.
Qed.

Lemma outside_groups k vs :
  k ∉ key <$> FILTER_GROUPS → activeFilters state !! k = Some vs →
  ∃ c v, collection state = Some c ∧ COLLECTION_MAP !! c = Some (k, v)
         ∧ vs = [v].
Proof.
  intros Hk Hvs. destruct (selections_plain k vs Hvs) as [[? _]|?]; done.
Qed.

Lemma applyCollection_read :
  applyCollection (nonEmpty (collection state)) read = activeFilters state.
Proof.
  unfold applyCollection. rewrite COLLECTION_MAP_nonEmpty.
  destruct (collection state ≫= collectionMapping) as [[k0 v0]|] eqn:Hcoll.
  - apply bind_Some in Hcoll as (c & Hc & Hcoll).
    rewrite collectionMapping_own in Hcoll by (by apply collection_own).
    destruct (collection_applied c k0 v0 Hc Hcoll) as (x & xs & Hk0).
    destruct (decide (k0 ∈ key <$> FILTER_GROUPS)) as [Hin|Hout].
    + pose proof (read_lookup k0) as Hr. rewrite decide_True in Hr by done.
      rewrite Hr, Hk0. apply map_eq. intros k. rewrite read_lookup.
      case_decide as Hk; [done|].
      destruct (activeFilters state !! k) as [vs|] eqn:Hvs; [|done].
      destruct (outside_groups k vs Hk Hvs) as (c' & v & Hcc & Hc' & _).
      congruence.
    + pose proof (read_lookup k0) as Hr. rewrite decide_False in Hr by done.
      rewrite Hr. apply map_eq. intros k.
      destruct (decide (k0 = k)) as [<-|Hne].
      * rewrite lookup_insert_eq, Hk0.
        destruct (outside_groups k0 _ Hout Hk0) as (c' & v & Hcc & Hc' & ->).
        congruence.
      * rewrite lookup_insert_ne by done. rewrite read_lookup.
        case_decide as Hk; [done|].
        destruct (activeFilters state !! k) as [vs|] eqn:Hvs; [|done].
        destruct (outside_groups k vs Hk Hvs) as (c' & v & Hcc & Hc' & _).
        congruence.
  - apply map_eq. intros k. rewrite read_lookup.
    case_decide as Hk; [done|].
    destruct (activeFilters state !! k) as [vs|] eqn:Hvs; [|done].
    destruct (outside_groups k vs Hk Hvs) as (c' & v & Hc & Hc' & _).
    rewrite Hc in Hcoll. simpl in Hcoll.
    rewrite collectionMapping_own in Hcoll by (by apply collection_own).
    congruence.
Qed.

Lemma decode_encode :
  activeFilters (readURLParams FILTER_GROUPS written page)
  = activeFilters state
  ∧ sort (readURLParams FILTER_GROUPS written page) = sort state
  ∧ collection (readURLParams FILTER_GROUPS written page)
    = nonEmpty (collection state)
  ∧ highlightProduct (readURLParams FILTER_GROUPS written page) = None
  ∧ currentPage (readURLParams FILTER_GROUPS written page) = currentPage page.
Proof.
  assert (URLSearchParams.get "collection" written
          = nonEmpty (collection state)) as Hcoll.
  { unfold written. by rewrite get_written. }
  assert (URLSearchParams.get "product" written = None) as Hprod.
  { unfold written. rewrite get_written by done. simpl.
    case_decide as Hin; [|done].
    apply list_elem_of_fmap in Hin as (g & Hkey & Hg).
    destruct (keys_free g Hg). rewrite <- Hkey. set_solver. }
  assert (Js.orElse (URLSearchParams.get "sort" written) "featured"
          = sort state) as Hsort.
  { unfold written. rewrite get_written by done. simpl.
    repeat case_decide; simpl; try done. by rewrite decide_False. }
  split_and!; simpl.
  - rewrite Hcoll, nonEmpty_idemp. apply applyCollection_read.
  - exact Hsort.
  - by rewrite Hcoll, nonEmpty_idemp.
  - by rewrite Hprod.
  - done.
Qed.
End roundtrip.

(** C7 (amended). Let no filter group be named [collection], [product]
    or [sort], or like a member of [Object.prototype] (no group that
    [buildFilterGroups] returns is). For a state whose [sort] is set,
    whose collection names no member of [Object.prototype], whose
    selections are lists of values without a comma, other than the empty
    list and the list of the empty string alone, under keys of the filter
    groups, or the selection its collection alias pre-applies, and whose
    collection alias has a selection under its group: decoding the
    parameters that encode it restores
    [activeFilters] and [sort] exactly, keeps the collection, gives
    [highlightProduct] none and leaves [currentPage] at the value the page
    has (1 on load). And for a query string in canonical form (the
    parameters [collection], [sort] and those of the filter groups, the
    keys of which are distinct, in this order, none with an empty value,
    no [sort] parameter for the default sort, and with a parameter for the
    group of the value that the collection stands for), encoding the
    decoded state gives the query string back. *)
Theorem C7_codec_roundtrip (FILTER_GROUPS : list FilterGroup)
    (state page : State) :
  (∀ g, g ∈ FILTER_GROUPS →
        (key g ∉ RESERVED_PARAMS) ∧ (key g ∉ Js.OBJECT_PROTOTYPE)) →
  sort state ≠ "" →
  (∀ c, collection state = Some c → c ∉ Js.OBJECT_PROTOTYPE) →
  (∀ k vs, activeFilters state !! k = Some vs →
     (k ∈ key <$> FILTER_GROUPS ∧ vs ≠ [] ∧ vs ≠ [ "" ] ∧ Forall commaFree vs)
     ∨ (∃ c v, collection state = Some c
               ∧ COLLECTION_MAP !! c = Some (k, v) ∧ vs = [v])) →
  (∀ c k v, collection state = Some c → COLLECTION_MAP !! c = Some (k, v) →
     ∃ x xs, activeFilters state !! k = Some (x :: xs)) →
  (activeFilters
     (readURLParams FILTER_GROUPS (writeURLParams FILTER_GROUPS state) page)
   = activeFilters state
   ∧ sort
       (readURLParams FILTER_GROUPS (writeURLParams FILTER_GROUPS state) page)
     = sort state
   ∧ collection
       (readURLParams FILTER_GROUPS (writeURLParams FILTER_GROUPS state) page)
     = nonEmpty (collection state)
   ∧ highlightProduct
       (readURLParams FILTER_GROUPS (writeURLParams FILTER_GROUPS state) page)
     = None
   ∧ currentPage
       (readURLParams FILTER_GROUPS (writeURLParams FILTER_GROUPS state) page)
     = currentPage page)
  ∧ (NoDup (key <$> FILTER_GROUPS) →
     ∀ params, canonicalQuery FILTER_GROUPS params →
       writeURLParams FILTER_GROUPS (readURLParams FILTER_GROUPS params page)
       = params).
Proof.
  intros Hkeys Hsort Hown Hplain Happlied.
  assert (∀ g, g ∈ FILTER_GROUPS → key g ∉ RESERVED_PARAMS) as Hres
    by (intros g Hg; by apply Hkeys).
  split.
  - by apply decode_encode.
  - intros Hnd params Hcanon. by apply canonicalQuery_roundtrip.
Qed.

Example exampleGroups_eq :
  exampleGroups
  = [ {| key := "Industry"; label := "Industry"; values := ["Welding"] |} ].
Proof. by vm_compute. Qed.

(** C7, as stated, fails in both directions. Decoding does not restore the
    filters of the state reached by loading [?collection=welding] and
    unticking [Welding]: the collection alias selects [Welding] again. And
    encoding what was decoded from [?collection=welding], a URL of
    recognised parameters only, adds the [Industry] parameter. *)
Lemma C7_roundtrip_fails :
  onCheckboxChange "Industry" "Welding" false
    (readURLParams exampleGroups [("collection", "welding")] initialState)
  = exampleUntickedState
  ∧ activeFilters exampleUntickedState !! "Industry" = Some []
  ∧ activeFilters
      (readURLParams exampleGroups
         (writeURLParams exampleGroups exampleUntickedState) initialState)
    !! "Industry" = Some ["Welding"]
  ∧ writeURLParams exampleGroups
      (readURLParams exampleGroups [("collection", "welding")] initialState)
    = [("collection", "welding"); ("Industry", "Welding")].
Proof. by vm_compute. Qed.

Lemma C7_codec_roundtrip_witness :
  activeFilters
    (readURLParams exampleGroups
       (writeURLParams exampleGroups exampleCanonicalState) initialState)
  = activeFilters exampleCanonicalState
  ∧ writeURLParams exampleGroups
      (readURLParams exampleGroups
         [("collection", "welding"); ("sort", "newest");
          ("Industry", "Welding,Chemical")] initialState)
    = [("collection", "welding"); ("sort", "newest");
       ("Industry", "Welding,Chemical")].
Proof.
  destruct (C7_codec_roundtrip exampleGroups exampleCanonicalState
              initialState) as [(Hfilters & _) Hquery].
  - intros g Hg. rewrite exampleGroups_eq in Hg.
    apply list_elem_of_singleton in Hg as ->. simpl.
    split; apply (bool_decide_unpack _); by vm_compute.
  - simpl. discriminate.
  - intros c [= <-]. apply (bool_decide_unpack _). by vm_compute.
  - intros k vs Hk. simpl in Hk.
    apply lookup_singleton_Some in Hk as [<- <-]. left. split_and!.
    + apply (bool_decide_unpack _). by vm_compute.
    + discriminate.
    + discriminate.
    + apply (bool_decide_unpack _). by vm_compute.
  - intros c k v [= <-] Hc. vm_compute in Hc. injection Hc as <- <-.
    by exists "Welding", [].
  - split; [exact Hfilters|]. apply Hquery.
    + apply (bool_decide_unpack _). by vm_compute.
    + exists (Some "welding"), (Some "newest"),
        (λ k, if decide (k = "Industry") then Some "Welding,Chemical"
              else None).
      split_and!; [by rewrite exampleGroups_eq|done..| | |].
      * intros k. by case_decide.
      * intros c [= <-]. apply (bool_decide_unpack _). by vm_compute.
      * intros c k v [= <-] Hc _. vm_compute in Hc. injection Hc as <- <-.
        by eexists.
Defined.

(** ** The scenarios of the specification *)

Example parseTags_scenario :
  is_Some
    (parseTags ["Industry: Welding"; "Industry: Welding"; "Gender:Men"; "loose"])
  ∧ map_to_list
      (default ∅
         (parseTags
            ["Industry: Welding"; "Industry: Welding"; "Gender:Men"; "loose"]))
    ≡ₚ [("Industry", ["Welding"]); ("Gender", ["Men"]); ("Other", ["loose"])].
Proof.
  split; [vm_compute; by eexists|].
  apply NoDup_Permutation.
  - apply NoDup_map_to_list.
  - apply (bool_decide_unpack _). by vm_compute.
  - intros [k vs]. rewrite elem_of_map_to_list. split.
    + intros Hk.
      assert (k ∈ ["Industry"; "Gender"; "Other"]) as Hin.
      { apply elem_of_dom_2 in Hk. revert Hk.
        assert (dom (default ∅
                       (parseTags ["Industry: Welding"; "Industry: Welding";
                                   "Gender:Men"; "loose"]))
                = list_to_set ["Industry"; "Gender"; "Other"]) as ->.
        { apply (bool_decide_unpack _). by vm_compute. }
        set_solver. }
      repeat (apply elem_of_cons in Hin as [->|Hin]);
        [vm_compute in Hk; injection Hk as <-; set_solver..|].
      by apply elem_of_nil in Hin.
    + intros Hin. repeat (apply elem_of_cons in Hin as [[= -> ->]|Hin]);
        [by vm_compute..|]. by apply elem_of_nil in Hin.
Qed.

(** A no-break space around a value is trimmed like a space. *)
Example trim_scenario :
  splitTag ("Industry:" +:+ String (ascii_of_nat 160) "Welding ")
  = ("Industry", "Welding").
Proof. by vm_compute. Qed.

(** A tag whose category names a member of [Object.prototype] makes
    [parseTags] throw, and the loader give up the whole feed. *)
Example inherited_category_scenario :
  parseTags ["Gender: Men"; "constructor: x"] = None
  ∧ parseTags ["Gender: Men"; "constructor:"] = parseTags ["Gender: Men"]
  ∧ loadShopifyProducts (λ _, 0)
      (Some (Parsed [taggedRaw ["Gender: Men"]; taggedRaw ["constructor: x"]]))
    = ([], [FailedToParse]).
Proof. by vm_compute. Qed.

Example taxonomy_order_scenario :
  key <$> buildFilterGroups
            [exampleProduct "z" 1 "" 0 ["Zebra: Striped"; "Gender: Men"];
             exampleProduct "i" 1 "" 1 ["Industry: Welding"; "loose"]]
  = ["Industry"; "Gender"; "Zebra"].
Proof. by vm_compute. Qed.

Example filter_sort_scenario :
  sortedProducts
    (filterProducts [productA; productB; productC]
       {[ "Industry" := ["Welding"] ]})
    "price-asc"
  = [productA; productC].
Proof. by vm_compute. Qed.

Example count_scenario :
  countForValue [productA; productB; productC]
    {[ "Industry" := ["Welding"] ]} "Gender" "Men" = 1%nat.
Proof. by vm_compute. Qed.

Example badge_scenario (now : Z) (createdAt : option string) :
  getBadge now (exampleRaw 50 (Some 80%Q) createdAt) = Sale.
Proof. done. Qed.

(** * Further properties *)

(** ** Filtering and counting *)

Lemma productMatchesGroup_spec p k vs :
  productMatchesGroup p k vs = true ↔
  ∃ v, v ∈ vs ∧ v ∈ default [] (p_parsedTags p !! k).
Proof.
  unfold productMatchesGroup. rewrite existsb_exists. split.
  - intros (v & Hv%list_elem_of_In & Hin%bool_decide_eq_true). eauto.
  - intros (v & Hv & Hin). exists v. split; [by apply list_elem_of_In|].
    by apply bool_decide_eq_true.
Qed.

Lemma filter_sublist_impl {A} (P Q : A → Prop) `{!∀ x, Decision (P x)}
    `{!∀ x, Decision (Q x)} (l : list A) :
  (∀ x, x ∈ l → P x → Q x) → filter P l `sublist_of` filter Q l.
Proof.
  induction l as [|x l IH]; intros Himpl; [done|].
  assert (filter P l `sublist_of` filter Q l) as IH'.
  { apply IH. intros y Hy. apply Himpl. by right. }
  rewrite !filter_cons. destruct (decide (P x)) as [HP|HP].
  - rewrite decide_True by (apply Himpl; [left|done]). by constructor.
  - case_decide; [by constructor|done].
Qed.

Lemma passesFilters_lookup F p :
  passesFilters F p ↔
  ∀ k vs, F !! k = Some vs → vs ≠ [] → productMatchesGroup p k vs = true.
Proof. unfold passesFilters. by rewrite map_Forall_lookup. Qed.

(** X1. A non-empty selection under a key that no product carries
    matches no product: an unknown key is no wildcard. *)
Theorem filterProducts_unknown_key (products : list Product)
    (F : gmap string (list string)) (k v : string) (vs : list string) :
  F !! k = Some (v :: vs) →
  (∀ p, p ∈ products → p_parsedTags p !! k = None) →
  filterProducts products F = [].
Proof.
  intros Hk Hnone. rewrite filterProducts_filter.
  apply filter_none. intros p Hp Hpass.
  rewrite passesFilters_lookup in Hpass.
  specialize (Hpass k (v :: vs) Hk).
  apply productMatchesGroup_spec in Hpass as (w & _ & Hw); [|done].
  rewrite (Hnone p Hp) in Hw. by apply elem_of_nil in Hw.
Qed.

Lemma filterProducts_unknown_key_witness :
  filterProducts [productA; productB] {[ "Colour" := ["Red"] ]} = [].
Proof.
  apply (filterProducts_unknown_key [productA; productB]
           {[ "Colour" := ["Red"] ]} "Colour" "Red" []).
  - reflexivity.
  - intros p Hp. repeat (apply elem_of_cons in Hp as [->|Hp]);
      [reflexivity..|]. by apply elem_of_nil in Hp.
Defined.

(** Filtering a filtered list again changes nothing, and filtering
    distributes over the concatenation of product lists. *)
Theorem filterProducts_idempotent_app (ps qs : list Product)
    (F : gmap string (list string)) :
  filterProducts (filterProducts ps F) F = filterProducts ps F
  ∧ filterProducts (ps ++ qs) F = filterProducts ps F ++ filterProducts qs F.
Proof.
  rewrite !filterProducts_filter. split.
  - rewrite list_filter_filter. apply list_filter_iff. tauto.
  - apply filter_app.
Qed.

(** X2. Selecting more values in a group that has a selection only adds
    products (OR within a group), and a selection under a further group
    only removes products (AND across groups); the order of the list is
    kept in both cases. *)
Theorem filterProducts_monotone (ps : list Product)
    (F : gmap string (list string)) (k : string) (vs ws : list string) :
  (F !! k = Some vs → vs ≠ [] →
   filterProducts ps F `sublist_of` filterProducts ps (<[k := vs ++ ws]> F))
  ∧ (F !! k = None →
     filterProducts ps (<[k := ws]> F) `sublist_of` filterProducts ps F).
Proof.
  rewrite !filterProducts_filter. split.
  - intros Hk Hne. apply filter_sublist_impl. intros p _.
    rewrite !passesFilters_lookup. intros Hpass k' vs' Hk' Hne'.
    destruct (decide (k = k')) as [<-|Hkk].
    + rewrite lookup_insert_eq in Hk'. injection Hk' as <-.
      apply productMatchesGroup_spec.
      destruct (proj1 (productMatchesGroup_spec p k vs) (Hpass k vs Hk Hne))
        as (v & Hv & Hin).
      exists v. split; [|done]. apply elem_of_app. by left.
    + rewrite lookup_insert_ne in Hk' by done. by apply Hpass.
  - intros Hk. apply filter_sublist_impl. intros p _.
    rewrite !passesFilters_lookup. intros Hpass k' vs' Hk' Hne'.
    apply Hpass; [|done]. rewrite lookup_insert_ne; [done|]. congruence.
Qed.

(** X3. Only the set of values selected under each key matters to the
    filter: order and repetitions of a selection play no part, and an
    empty selection is the same as none. *)
Theorem filterProducts_sameSelections (ps : list Product)
    (F F' : gmap string (list string)) :
  sameSelections F F' → filterProducts ps F = filterProducts ps F'.
Proof.
  assert (∀ G G' p, sameSelections G G' →
                    passesFilters G p → passesFilters G' p) as Hone.
  { intros G G' p Hsame. rewrite !passesFilters_lookup.
    intros Hpass k vs' Hk' Hne'.
    destruct vs' as [|v0 vs']; [done|].
    assert (v0 ∈ default [] (G !! k)) as Hv0.
    { apply Hsame. rewrite Hk'. simpl. left. }
    destruct (G !! k) as [vs|] eqn:Hk; [|by apply elem_of_nil in Hv0].
    simpl in Hv0.
    assert (vs ≠ []) as Hne.
    { intros ->. by apply elem_of_nil in Hv0. }
    apply productMatchesGroup_spec.
    destruct (proj1 (productMatchesGroup_spec p k vs) (Hpass k vs Hk Hne))
      as (v & Hv & Hin).
    exists v. split; [|done].
    specialize (Hsame k v). rewrite Hk, Hk' in Hsame. simpl in Hsame.
    by apply Hsame. }
  intros Hsame. rewrite !filterProducts_filter. apply list_filter_iff.
  intros p. split; apply Hone; [done|]. intros k v. symmetry. apply Hsame.
Qed.

Lemma filterProducts_sameSelections_witness :
  filterProducts [productA; productC]
    (<[ "Gender" := [] ]> {[ "Industry" := ["Welding"; "Chemical"; "Welding"] ]})
  = filterProducts [productA; productC]
      {[ "Industry" := ["Chemical"; "Welding"] ]}.
Proof.
  apply filterProducts_sameSelections. intros k v.
  destruct (decide (k = "Industry")) as [->|Hk1].
  - vm_compute. set_solver.
  - destruct (decide (k = "Gender")) as [->|Hk2].
    + vm_compute. set_solver.
    + rewrite lookup_insert_ne by done.
      rewrite !lookup_singleton_ne by done. done.
Defined.

(** X4. The count shown beside a value is the number of results the
    page would list with that value as the only selection of its group. *)
Theorem countForValue_as_selection (ps : list Product)
    (F : gmap string (list string)) (G v : string) :
  countForValue ps F G v = length (filterProducts ps (<[G := [v]]> F)).
Proof.
  rewrite countForValue_count, filterProducts_filter. f_equal.
  apply list_filter_iff. intros p. unfold carries, passesOthers.
  rewrite passesFilters_lookup, map_Forall_lookup. split.
  - intros [Hc Hall] k vs Hk Hne.
    destruct (decide (G = k)) as [<-|HGk].
    + rewrite lookup_insert_eq in Hk. injection Hk as <-.
      apply productMatchesGroup_spec. exists v. split; [left|done].
    + rewrite lookup_insert_ne in Hk by done. apply Hall; [done| |done].
      congruence.
  - intros Hpass. split.
    + destruct (proj1 (productMatchesGroup_spec p G [v]))
        as (w & ->%list_elem_of_singleton & Hin); [|done].
      apply Hpass; [by rewrite lookup_insert_eq|done].
    + intros k vs Hk HkG Hne. apply Hpass; [|done].
      by rewrite lookup_insert_ne.
Qed.

(** A count never exceeds the number of products that carry the
    value, which is the count when no filter is active. *)
Theorem countForValue_bound (ps : list Product)
    (F : gmap string (list string)) (G v : string) :
  (countForValue ps F G v ≤ countForValue ps ∅ G v)%nat
  ∧ countForValue ps ∅ G v = length (filter (carries G v) ps).
Proof.
  rewrite !countForValue_count. split.
  - apply sublist_length, filter_sublist_impl. intros p _ [Hc _].
    split; [done|]. apply map_Forall_empty.
  - f_equal. apply list_filter_iff. intros p. split; [by intros [? _]|].
    intros Hc. split; [done|]. apply map_Forall_empty.
Qed.

(** ** Sorting *)

Section more_sort_facts.
Context {A : Type} (comparefn : A → A → Js.Number).

(** A list in which no element comes strictly before an earlier one is
    left as it is. *)
Lemma sort_sorted_id l :
  StronglySorted (λ x y, Js.before comparefn y x = false) l →
  Js.stableSort comparefn l = l.
Proof.
  induction 1 as [|x l Hs IH Hall]; [done|]. simpl. rewrite IH.
  destruct l as [|y l]; [done|]. simpl.
  apply Forall_cons in Hall as [Hy _]. by rewrite Hy.
Qed.

Lemma sort_ext (comparefn' : A → A → Js.Number) l :
  (∀ x y, comparefn x y = comparefn' x y) →
  Js.stableSort comparefn l = Js.stableSort comparefn' l.
Proof.
  intros Hext. induction l as [|x l IH]; [done|]. simpl. rewrite IH.
  generalize (Js.stableSort comparefn' l). intros l'.
  induction l' as [|y l' IH']; [done|]. simpl.
  unfold Js.before. by rewrite Hext, IH'.
Qed.
End more_sort_facts.

Section more_sortProducts_facts.
Context `{Host}.

Lemma price_asc_before a b :
  Js.before (comparator "price-asc") a b = true ↔ (p_price a < p_price b)%Q.
Proof.
  unfold Js.before, comparator. simpl.
  destruct (p_price a - p_price b ?= 0)%Q eqn:Hc.
  - apply Qeq_alt in Hc. split; [done|]. lra.
  - apply Qlt_alt in Hc. split; [|done]. lra.
  - apply Qgt_alt in Hc. split; [done|]. lra.
Qed.

Lemma price_desc_before a b :
  Js.before (comparator "price-desc") a b = true ↔ (p_price b < p_price a)%Q.
Proof.
  unfold Js.before, comparator. simpl.
  destruct (p_price b - p_price a ?= 0)%Q eqn:Hc.
  - apply Qeq_alt in Hc. split; [done|]. lra.
  - apply Qlt_alt in Hc. split; [|done]. lra.
  - apply Qgt_alt in Hc. split; [done|]. lra.
Qed.

Lemma featured_comparator sortKey a b :
  byFeatured sortKey →
  comparator sortKey a b = Js.Fin (featuredOf a - featuredOf b)%Q.
Proof.
  intros (H1 & H2 & H3). unfold comparator.
  by rewrite !decide_False by done.
Qed.

Lemma featured_before sortKey a b :
  byFeatured sortKey →
  Js.before (comparator sortKey) a b = true ↔ (p_featured a < p_featured b)%nat.
Proof.
  intros Hkey. unfold Js.before. rewrite featured_comparator by done.
  unfold featuredOf. simpl.
  destruct (inject_Z (Z.of_nat (p_featured a))
            - inject_Z (Z.of_nat (p_featured b)) ?= 0)%Q eqn:Hc.
  - apply Qeq_alt in Hc. split; [done|]. intros Hlt.
    apply Nat2Z.inj_lt in Hlt. rewrite Zlt_Qlt in Hlt. lra.
  - apply Qlt_alt in Hc. split; [|done]. intros _.
    apply Nat2Z.inj_lt. rewrite Zlt_Qlt. lra.
  - apply Qgt_alt in Hc. split; [done|]. intros Hlt.
    apply Nat2Z.inj_lt in Hlt. rewrite Zlt_Qlt in Hlt. lra.
Qed.

Lemma not_true_false_iff (b : bool) (P : Prop) :
  (b = true ↔ P) → (b = false ↔ ¬ P).
Proof. destruct b; naive_solver. Qed.

(** Under a key other than ['newest'] the engine's sort is the stable
    sort. *)
Lemma sortedProducts_stable_key l sortKey :
  sortKey ≠ "newest" →
  sortedProducts l sortKey = Js.stableSort (comparator sortKey) l.
Proof.
  intros Hkey. apply sortedProducts_stableSort. intros a b _ _.
  apply comparator_number. by left.
Qed.

(** X5. ['price-asc'] gives the products in ascending order of price and
    ['price-desc'] in descending order of price, each a rearrangement of
    the input. *)
Theorem sortProducts_by_price (products : list Product) :
  sortedProducts products "price-asc" ≡ₚ products
  ∧ StronglySorted (λ a b, p_price a <= p_price b)%Q
      (sortedProducts products "price-asc")
  ∧ sortedProducts products "price-desc" ≡ₚ products
  ∧ StronglySorted (λ a b, p_price b <= p_price a)%Q
      (sortedProducts products "price-desc").
Proof.
  split_and!; try apply sortedProducts_Permutation.
  - rewrite sortedProducts_stable_key by done.
    apply (sort_sorted _ _ (λ _, True)).
    + intros x y z _ _ _. lra.
    + intros x y _ _ Hb%price_asc_before. lra.
    + intros x y _ _ Hb%(not_true_false_iff _ _ (price_asc_before y x)). lra.
    + by apply Forall_true.
  - rewrite sortedProducts_stable_key by done.
    apply (sort_sorted _ _ (λ _, True)).
    + intros x y z _ _ _. lra.
    + intros x y _ _ Hb%price_desc_before. lra.
    + intros x y _ _ Hb%(not_true_false_iff _ _ (price_desc_before y x)). lra.
    + by apply Forall_true.
Qed.

(** X6. ['featured'], ['best-selling'] and every unrecognised sort key
    give one and the same list: the products in ascending order of
    [featured]. *)
Theorem sortProducts_by_featured (products : list Product)
    (sortKey : string) :
  sortKey ≠ "price-asc" → sortKey ≠ "price-desc" → sortKey ≠ "newest" →
  sortedProducts products sortKey = sortedProducts products "featured"
  ∧ sortedProducts products "best-selling" = sortedProducts products "featured"
  ∧ sortedProducts products sortKey ≡ₚ products
  ∧ StronglySorted (λ a b, p_featured a ≤ p_featured b)%nat
      (sortedProducts products sortKey).
Proof.
  intros H1 H2 H3. assert (byFeatured sortKey) as Hkey by done.
  split_and!.
  - rewrite !sortedProducts_stable_key by done. apply sort_ext. intros a b.
    by rewrite featured_comparator.
  - rewrite !sortedProducts_stable_key by done. by apply sort_ext.
  - apply sortedProducts_Permutation.
  - rewrite sortedProducts_stable_key by done.
    apply (sort_sorted _ _ (λ _, True)).
    + intros x y z _ _ _. lia.
    + intros x y _ _ Hb%(featured_before sortKey); [lia|done].
    + intros x y _ _
        Hb%(not_true_false_iff _ _ (featured_before sortKey y x Hkey)). lia.
    + by apply Forall_true.
Qed.

Lemma featured_index_sorted (l : list Product) (n : nat) :
  (∀ i p, l !! i = Some p → p_featured p = (n + i)%nat) →
  StronglySorted (λ a b, p_featured a < p_featured b)%nat l
  ∧ Forall (λ p, n ≤ p_featured p)%nat l.
Proof.
  revert n. induction l as [|x l IH]; intros n Hf.
  - split; constructor.
  - destruct (IH (S n)) as [Hs Hall].
    { intros i p Hp. rewrite (Hf (S i) p Hp). lia. }
    pose proof (Hf 0%nat x eq_refl) as Hx.
    split.
    + constructor; [done|]. eapply Forall_impl; [exact Hall|].
      intros p Hp. simpl in Hp. lia.
    + constructor; [lia|]. eapply Forall_impl; [exact Hall|].
      intros p Hp. simpl in Hp. lia.
Qed.

(** Along the catalog the loader returns, [featured] counts the
    positions. *)
Lemma loaded_featured_sorted clock el :
  StronglySorted (λ a b, p_featured a < p_featured b)%nat
    (loadShopifyProducts clock el).1.
Proof.
  apply (featured_index_sorted _ 0). intros i p Hp.
  apply loaded_lookup in Hp as [r Hr]. by apply normalize_featured in Hr.
Qed.

(** X7. On the catalog the loader returns, any filtered view sorted by
    ['featured'], ['best-selling'] or an unrecognised key is the filtered
    view itself: the products stay in the order of the feed. *)
Theorem catalog_order_kept (clock : nat → Z) (el : option Parse)
    (F : gmap string (list string)) (sortKey : string) :
  sortKey ≠ "price-asc" → sortKey ≠ "price-desc" → sortKey ≠ "newest" →
  sortedProducts
    (filterProducts (loadShopifyProducts clock el).1 F) sortKey
  = filterProducts (loadShopifyProducts clock el).1 F.
Proof.
  intros H1 H2 H3. assert (byFeatured sortKey) as Hkey by done.
  rewrite sortedProducts_stable_key by done. apply sort_sorted_id.
  rewrite filterProducts_filter.
  pose proof (loaded_featured_sorted clock el) as Hs.
  pose proof (StronglySorted_filter _ (passesFilters F) _ Hs) as Hs'.
  clear Hs. induction Hs' as [|x l Hs IH Hall]; [constructor|].
  constructor; [done|]. eapply Forall_impl; [exact Hall|].
  intros y Hlt. simpl in Hlt |- *.
  apply (not_true_false_iff _ _ (featured_before sortKey y x Hkey)). lia.
Qed.

End more_sortProducts_facts.

Lemma sortProducts_by_featured_witness :
  sortedProducts [productC; productA; productB] "popularity"
  = sortedProducts [productC; productA; productB] "featured".
Proof.
  apply (sortProducts_by_featured (H := exampleHost)
           [productC; productA; productB] "popularity");
    discriminate.
Defined.

Lemma catalog_order_kept_witness :
  sortedProducts
    (filterProducts
       (loadShopifyProducts (λ _, 0)
          (Some (Parsed [exampleRaw 50 None None; exampleRaw 20 None None]))).1
       ∅) "featured"
  = filterProducts
      (loadShopifyProducts (λ _, 0)
         (Some (Parsed [exampleRaw 50 None None; exampleRaw 20 None None]))).1
      ∅.
Proof. apply (catalog_order_kept (H := exampleHost)); discriminate. Defined.

(** ** Tag parser *)

(** What one tag adds to the mapping, when the callback returns. *)
Lemma parseTag_lookup (m m' : gmap string (list string)) tag cat :
  parseTag m tag = Some m' →
  m' !! cat
  = match tagEntry tag with
    | Some (c, v) =>
        if decide (c = cat)
        then if decide (v ∈ default [] (m !! cat)) then m !! cat
             else Some (default [] (m !! cat) ++ [v])
        else m !! cat
    | None => m !! cat
    end.
Proof.
  unfold parseTag, tagEntry. destruct (splitTag tag) as [c v]. simpl.
  case_decide as Hv; [by intros [= <-]|].
  case_decide as Hproto; [done|].
  destruct (decide (c = cat)) as [->|Hc].
  - case_decide; intros [= <-]; [done|]. by rewrite lookup_insert_eq.
  - case_decide; intros [= <-]; [done|]. by rewrite lookup_insert_ne.
Qed.

(** The callback throws on a tag with a value whose category names a
    member of [Object.prototype], and on no other. *)
Lemma parseTag_None (m : gmap string (list string)) tag :
  parseTag m tag = None ↔
  ∃ c v, tagEntry tag = Some (c, v) ∧ c ∈ Js.OBJECT_PROTOTYPE.
Proof.
  unfold parseTag, tagEntry. destruct (splitTag tag) as [c v]. simpl.
  case_decide as Hv; [naive_solver|].
  case_decide as Hproto; [naive_solver|].
  case_decide; naive_solver.
Qed.

Lemma parseTag_own (m m' : gmap string (list string)) tag c v :
  parseTag m tag = Some m' → tagEntry tag = Some (c, v) →
  c ∉ Js.OBJECT_PROTOTYPE.
Proof.
  intros Hrun Htag Hproto.
  assert (parseTag m tag = None) as Hnone
    by (apply parseTag_None; eauto).
  congruence.
Qed.

Lemma tagEntry_value tag c v : tagEntry tag = Some (c, v) → v ≠ "".
Proof.
  unfold tagEntry. case_decide as Hv; [done|]. intros [= Heq].
  rewrite Heq in Hv. done.
Qed.

Lemma tagEntry_splitTag tag c v :
  tagEntry tag = Some (c, v) ↔ splitTag tag = (c, v) ∧ v ≠ "".
Proof.
  unfold tagEntry. split.
  - case_decide as Hv; [done|]. intros [= Heq]. rewrite Heq in Hv. done.
  - intros [Hsplit Hv]. rewrite Hsplit. simpl. by rewrite decide_False.
Qed.

Lemma parseTag_elem (m m' : gmap string (list string)) tag cat v :
  parseTag m tag = Some m' →
  v ∈ default [] (m' !! cat) ↔
  v ∈ default [] (m !! cat) ∨ tagEntry tag = Some (cat, v).
Proof.
  intros Hrun. rewrite (parseTag_lookup m m' tag cat Hrun).
  destruct (tagEntry tag) as [[c w]|]; [|naive_solver].
  destruct (decide (c = cat)) as [->|Hc]; [|naive_solver].
  case_decide as Hw; [naive_solver|]. simpl.
  rewrite elem_of_app, list_elem_of_singleton. naive_solver.
Qed.

Lemma parseTag_prefix (m m' : gmap string (list string)) tag cat :
  parseTag m tag = Some m' →
  default [] (m !! cat) `prefix_of` default [] (m' !! cat).
Proof.
  intros Hrun. rewrite (parseTag_lookup m m' tag cat Hrun).
  destruct (tagEntry tag) as [[c w]|]; [|done].
  repeat case_decide; try done. simpl. by apply prefix_app_r.
Qed.

Lemma parseTag_wellFormed (m m' : gmap string (list string)) tag :
  parseTag m tag = Some m' → tagsWellFormed m → tagsWellFormed m'.
Proof.
  intros Hrun Hm cat vs. rewrite (parseTag_lookup m m' tag cat Hrun).
  destruct (tagEntry tag) as [[c w]|] eqn:Htag; [|by apply Hm].
  destruct (decide (c = cat)) as [->|Hc]; [|by apply Hm].
  case_decide as Hw; [by apply Hm|]. intros [= <-].
  apply tagEntry_value in Htag.
  destruct (m !! cat) as [old|] eqn:Hold; simpl in *.
  - destruct (Hm cat old Hold) as (_ & Hnd & Hempty). split_and!.
    + by destruct old.
    + apply NoDup_app. split_and!; [done| |apply NoDup_singleton].
      intros x Hx ->%list_elem_of_singleton. done.
    + rewrite elem_of_app, list_elem_of_singleton. naive_solver.
  - split_and!; [done|apply NoDup_singleton|].
    rewrite list_elem_of_singleton. naive_solver.
Qed.

(** The loop of [parseTags] from a mapping [m]. *)
Lemma foldl_parseTag_None tags :
  foldl (λ result tag, result ≫= λ r, parseTag r tag) None tags = None.
Proof. induction tags as [|tag tags IH]; [done|]. apply IH. Qed.

Lemma foldl_parseTag_cons (m : gmap string (list string)) tag tags m' :
  foldl (λ result tag, result ≫= λ r, parseTag r tag) (Some m) (tag :: tags)
  = Some m' →
  ∃ m1, parseTag m tag = Some m1
        ∧ foldl (λ result tag, result ≫= λ r, parseTag r tag) (Some m1) tags
          = Some m'.
Proof.
  simpl. destruct (parseTag m tag) as [m1|]; [by eauto|].
  by rewrite foldl_parseTag_None.
Qed.

Lemma foldl_parseTag_elem tags (m m' : gmap string (list string)) cat v :
  foldl (λ result tag, result ≫= λ r, parseTag r tag) (Some m) tags = Some m' →
  v ∈ default [] (m' !! cat) ↔
  v ∈ default [] (m !! cat)
  ∨ ∃ tag, tag ∈ tags ∧ tagEntry tag = Some (cat, v).
Proof.
  revert m. induction tags as [|tag tags IH]; intros m.
  - intros [= <-]. setoid_rewrite elem_of_nil. naive_solver.
  - intros (m1 & Htag & Hrun)%foldl_parseTag_cons.
    rewrite (IH m1 Hrun), (parseTag_elem m m1 tag cat v Htag).
    setoid_rewrite elem_of_cons. naive_solver.
Qed.

Lemma foldl_parseTag_prefix tags (m m' : gmap string (list string)) cat :
  foldl (λ result tag, result ≫= λ r, parseTag r tag) (Some m) tags = Some m' →
  default [] (m !! cat) `prefix_of` default [] (m' !! cat).
Proof.
  revert m. induction tags as [|tag tags IH]; intros m.
  - by intros [= <-].
  - intros (m1 & Htag & Hrun)%foldl_parseTag_cons.
    etrans; [apply (parseTag_prefix m m1 tag cat Htag)|by apply IH].
Qed.

Lemma foldl_parseTag_wellFormed tags (m m' : gmap string (list string)) :
  foldl (λ result tag, result ≫= λ r, parseTag r tag) (Some m) tags = Some m' →
  tagsWellFormed m → tagsWellFormed m'.
Proof.
  revert m. induction tags as [|tag tags IH]; intros m.
  - by intros [= <-].
  - intros (m1 & Htag & Hrun)%foldl_parseTag_cons Hm.
    apply (IH m1 Hrun). by apply (parseTag_wellFormed m m1 tag).
Qed.

Lemma foldl_parseTag_throws tags (m : gmap string (list string)) :
  foldl (λ result tag, result ≫= λ r, parseTag r tag) (Some m) tags = None ↔
  ∃ tag c v, tag ∈ tags ∧ tagEntry tag = Some (c, v)
             ∧ c ∈ Js.OBJECT_PROTOTYPE.
Proof.
  revert m. induction tags as [|tag tags IH]; intros m.
  - split; [done|]. intros (tag & c & v & Hin & _). by apply elem_of_nil in Hin.
  - simpl. destruct (parseTag m tag) as [m1|] eqn:Htag.
    + rewrite IH. split.
      * intros (t & c & v & Hin & Ht). exists t, c, v. split; [by right|done].
      * intros (t & c & v & [->|Hin]%elem_of_cons & Ht & Hc); [|by eauto 10].
        destruct (parseTag_own m m1 tag c v Htag Ht Hc).
    + rewrite foldl_parseTag_None. split; [|done]. intros _.
      apply parseTag_None in Htag as (c & v & Ht & Hc).
      exists tag, c, v. split; [by left|done].
Qed.

Lemma parseTags_elem tags result cat v :
  parseTags tags = Some result →
  v ∈ default [] (result !! cat) ↔
  ∃ tag, tag ∈ tags ∧ tagEntry tag = Some (cat, v).
Proof.
  unfold parseTags. intros Hrun.
  rewrite (foldl_parseTag_elem tags ∅ result cat v Hrun), lookup_empty. simpl.
  rewrite elem_of_nil. naive_solver.
Qed.

Lemma empty_wellFormed : tagsWellFormed (∅ : gmap string (list string)).
Proof. intros cat vs. by rewrite lookup_empty. Qed.

Lemma parseTags_own tags result cat :
  parseTags tags = Some result → is_Some (result !! cat) →
  cat ∉ Js.OBJECT_PROTOTYPE.
Proof.
  intros Hrun [vs Hcat] Hproto.
  destruct (foldl_parseTag_wellFormed tags ∅ result Hrun empty_wellFormed
              cat vs Hcat) as (Hne & _).
  destruct vs as [|v vs]; [done|].
  assert (v ∈ default [] (result !! cat)) as Hv by (rewrite Hcat; left).
  apply (parseTags_elem tags result cat v Hrun) in Hv as (tag & Hin & Htag).
  assert (parseTags tags = None) as Hnone.
  { apply foldl_parseTag_throws. eauto 10. }
  congruence.
Qed.

(** X8. [parseTags] throws exactly when a tag with a value names a
    member of [Object.prototype] as its category; when it returns, the
    values it files under a category are exactly the (trimmed, non-empty)
    values of the tags that name that category, tags without a usable
    colon counting for ['Other']. *)
Theorem parseTags_values (tags : list string) :
  (parseTags tags = None ↔
     ∃ tag cat v, tag ∈ tags ∧ splitTag tag = (cat, v) ∧ v ≠ ""
                  ∧ cat ∈ Js.OBJECT_PROTOTYPE)
  ∧ (∀ result cat v, parseTags tags = Some result →
       v ∈ default [] (result !! cat) ↔
       ∃ tag, tag ∈ tags ∧ splitTag tag = (cat, v) ∧ v ≠ "").
Proof.
  split.
  - unfold parseTags. rewrite foldl_parseTag_throws.
    setoid_rewrite tagEntry_splitTag. naive_solver.
  - intros result cat v Hrun. rewrite (parseTags_elem tags result cat v Hrun).
    by setoid_rewrite tagEntry_splitTag.
Qed.

(** X9. Every list of values in the result of [parseTags] is non-empty,
    has no value twice and does not hold the empty string; and no category
    of the result names a member of [Object.prototype]. *)
Theorem parseTags_wellFormed (tags : list string)
    (result : gmap string (list string)) :
  parseTags tags = Some result →
  tagsWellFormed result
  ∧ ∀ cat, is_Some (result !! cat) → cat ∉ Js.OBJECT_PROTOTYPE.
Proof.
  intros Hrun. split.
  - by apply (foldl_parseTag_wellFormed tags ∅ result Hrun), empty_wellFormed.
  - intros cat. by apply (parseTags_own tags).
Qed.

Lemma parseTags_wellFormed_witness :
  tagsWellFormed (default ∅ (parseTags ["Gender: Men"; "Gender: Men"; "x:"])).
Proof.
  apply (parseTags_wellFormed ["Gender: Men"; "Gender: Men"; "x:"]).
  reflexivity.
Defined.

(** X10. Values keep the position of their first occurrence: the list a
    category has after some tags is a prefix of the list it has after
    further tags. *)
Theorem parseTags_prefix (tags more : list string) (cat : string)
    (result result' : gmap string (list string)) :
  parseTags tags = Some result →
  parseTags (tags ++ more) = Some result' →
  default [] (result !! cat) `prefix_of` default [] (result' !! cat).
Proof.
  unfold parseTags. rewrite foldl_app. intros ->.
  apply foldl_parseTag_prefix.
Qed.

Lemma parseTags_prefix_witness :
  default [] (default ∅ (parseTags ["Gender: Men"]) !! "Gender")
  `prefix_of`
  default [] (default ∅ (parseTags (["Gender: Men"] ++ ["Gender: Women"]))
              !! "Gender").
Proof.
  apply (parseTags_prefix ["Gender: Men"] ["Gender: Women"] "Gender");
    reflexivity.
Defined.

(** *** Trimming *)

Lemma append_cons a s t : String a s +:+ t = String a (s +:+ t).
Proof. reflexivity. Qed.

Lemma append_nil_r s : s +:+ "" = s.
Proof.
  induction s as [|a s IH]; [done|]. by rewrite append_cons, IH.
Qed.

Lemma append_assoc s1 s2 s3 : (s1 +:+ s2) +:+ s3 = s1 +:+ (s2 +:+ s3).
Proof.
  induction s1 as [|a s1 IH]; [done|]. by rewrite !append_cons, IH.
Qed.

Lemma rev_app_spec s acc : String.rev_app s acc = String.rev s +:+ acc.
Proof.
  unfold String.rev. revert acc.
  induction s as [|a s IH]; intros acc; [done|]. simpl.
  rewrite (IH (String a "")), IH, append_assoc. done.
Qed.

Lemma rev_append s1 s2 :
  String.rev (s1 +:+ s2) = String.rev s2 +:+ String.rev s1.
Proof.
  induction s1 as [|a s1 IH].
  - by rewrite append_nil_r.
  - change (String a s1 +:+ s2) with (String a (s1 +:+ s2)).
    unfold String.rev at 1 3. simpl.
    rewrite !rev_app_spec, IH, append_assoc. done.
Qed.

Lemma rev_involutive s : String.rev (String.rev s) = s.
Proof.
  induction s as [|a s IH]; [done|].
  unfold String.rev at 2. simpl. rewrite rev_app_spec, rev_append, IH. done.
Qed.

Lemma trimStart_starts s : startsPlain (Js.trimStart s).
Proof.
  induction s as [|a s IH]; [done|]. simpl.
  destruct (Js.isWhiteSpace a) eqn:Ha; [done|]. done.
Qed.

Lemma trimStart_suffix s : ∃ pre, s = pre +:+ Js.trimStart s.
Proof.
  induction s as [|a s [pre IH]]; [by exists ""|]. simpl.
  destruct (Js.isWhiteSpace a).
  - exists (String a pre). by rewrite append_cons, <- IH.
  - by exists "".
Qed.

Lemma startsPlain_append_l s1 s2 :
  s1 ≠ "" → startsPlain (s1 +:+ s2) → startsPlain s1.
Proof. by destruct s1. Qed.

Lemma rev_nonempty s : s ≠ "" → String.rev s ≠ "".
Proof.
  intros Hs Hrev. apply Hs. rewrite <- (rev_involutive s), Hrev. done.
Qed.

Lemma trim_trimmed s : trimmed (Js.trim s).
Proof.
  unfold trimmed, Js.trim. split.
  - pose proof (trimStart_starts s) as Hstart.
    destruct (trimStart_suffix (String.rev (Js.trimStart s))) as [pre Hpre].
    set (w := Js.trimStart (String.rev (Js.trimStart s))) in *.
    destruct (decide (w = "")) as [->|Hw]; [done|].
    apply (startsPlain_append_l _ (String.rev pre)).
    + by apply rev_nonempty.
    + rewrite <- rev_append, <- Hpre, rev_involutive. done.
  - rewrite rev_involutive. apply trimStart_starts.
Qed.

(** X11. Categories and values in the result of [parseTags] carry no
    white space at either end. *)
Theorem parseTags_trimmed (tags : list string) (cat v : string)
    (result : gmap string (list string)) (vs : list string) :
  parseTags tags = Some result →
  result !! cat = Some vs → v ∈ vs → trimmed cat ∧ trimmed v.
Proof.
  intros Hrun Hcat Hv.
  assert (v ∈ default [] (result !! cat)) as Hin by (by rewrite Hcat).
  apply (parseTags_elem tags result cat v Hrun) in Hin as (tag & _ & Hsplit).
  unfold tagEntry in Hsplit. case_decide; [done|].
  injection Hsplit as Hsplit. unfold splitTag in Hsplit.
  destruct (Js.indexOf ":" tag) as [[|i]|]; injection Hsplit as <- <-;
    (split; [try apply trim_trimmed; by vm_compute|apply trim_trimmed]).
Qed.

Lemma parseTags_trimmed_witness :
  trimmed "Industry" ∧ trimmed "Oil & Gas".
Proof.
  apply (parseTags_trimmed
           ["  Industry :  Oil & Gas" +:+ String (ascii_of_nat 160) " "]
           "Industry" "Oil & Gas"
           (default ∅
              (parseTags
                 ["  Industry :  Oil & Gas" +:+ String (ascii_of_nat 160) " "]))
           ["Oil & Gas"]).
  - reflexivity.
  - reflexivity.
  - left.
Defined.

(** ** Catalog loader and taxonomy *)

Section more_loader_facts.
Context `{Host}.

Lemma elem_of_loaded clock el p :
  p ∈ (loadShopifyProducts clock el).1 →
  ∃ now index r, normalize now index r = Some p.
Proof.
  intros (i & Hi)%list_elem_of_lookup.
  apply loaded_lookup in Hi as [r Hr]. eauto.
Qed.

Lemma orElse_nonempty o d : d ≠ "" → Js.orElse o d ≠ "".
Proof. intros Hd. unfold Js.orElse. destruct o; [case_decide|]; done. Qed.

(** X12. Every product the loader returns has [parsedTags] equal to
    [parseTags] of its [rawTags], a non-empty [image] and [url], an
    [imageAlt] that is absent rather than empty, and the [Sale] badge
    exactly when the card's own sale test ([hasSale]) holds. *)
Theorem loaded_product_invariants (clock : nat → Z) (el : option Parse) :
  Forall
    (λ p, parseTags (p_rawTags p) = Some (p_parsedTags p)
          ∧ p_image p ≠ ""
          ∧ p_url p ≠ ""
          ∧ p_imageAlt p ≠ Some ""
          ∧ (p_badge p = Sale ↔ hasSale p = true))
    (loadShopifyProducts clock el).1.
Proof.
  apply Forall_forall. intros p (now & i & r & Hp)%elem_of_loaded.
  unfold normalize in Hp.
  destruct (parseTags (Js.orElseArr (r_tags r) [])) as [parsed|] eqn:Htags;
    [|done].
  injection Hp as <-. simpl.
  split_and!.
  - done.
  - by apply orElse_nonempty.
  - by apply orElse_nonempty.
  - unfold imageAltOf.
    destruct (r_imageAlt r) as [alt|], (r_image r) as [img|];
      repeat case_decide; congruence.
  - unfold getBadge, hasSale, onSale. simpl.
    destruct (r_comparePrice r) as [c|]; simpl.
    + destruct (negb (Qeq_bool c 0) && Js.gt c (r_price r)); [done|].
      repeat case_match; done.
    + repeat case_match; done.
Qed.
End more_loader_facts.

Lemma option_set_eq (a b : option (gset string)) :
  (is_Some a ↔ is_Some b) →
  (∀ v, v ∈ default ∅ a ↔ v ∈ default ∅ b) →
  a = b.
Proof.
  intros Hs Hv. destruct a as [s1|], b as [s2|]; simpl in *.
  - f_equal. apply set_eq. done.
  - destruct (proj1 Hs) as [? ?]; [eauto|done].
  - destruct (proj2 Hs) as [? ?]; [eauto|done].
  - done.
Qed.

(** X13. The filter groups depend on the set of products only: two
    catalogs with the same products, in whatever order and however often,
    have the same groups. *)
Theorem buildFilterGroups_same_products (ps qs : list Product) :
  (∀ p, p ∈ ps ↔ p ∈ qs) → buildFilterGroups ps = buildFilterGroups qs.
Proof.
  intros Hsame.
  assert (categoriesOf ps = categoriesOf qs) as Heq.
  { apply map_eq. intros cat. apply option_set_eq.
    - rewrite <- !elem_of_dom, !categoriesOf_dom. unfold occursIn.
      naive_solver.
    - intros v. rewrite !categoriesOf_values. unfold seenUnder.
      naive_solver. }
  unfold buildFilterGroups. by rewrite Heq.
Qed.

Lemma buildFilterGroups_same_products_witness :
  buildFilterGroups [productA; productB; productC]
  = buildFilterGroups [productC; productA; productB; productA].
Proof.
  apply buildFilterGroups_same_products. intros p.
  rewrite !elem_of_cons, !elem_of_nil. tauto.
Defined.

Lemma group_values products g v :
  g ∈ buildFilterGroups products →
  v ∈ values g ↔ v ≠ "__proto__" ∧ seenUnder products (key g) v.
Proof.
  intros [Hk ->]%elem_of_groups. simpl.
  rewrite elem_of_sortedKeys, categoriesOf_values.
  apply categoriesOf_dom in Hk. tauto.
Qed.

(** X15. Within a group [G], while no other group has a selection, every
    checkbox of the sidebar built from the catalog's own groups has a
    positive count and is enabled; with no selection at all this holds of
    every checkbox. *)
Theorem checkboxes_enabled (PRODUCTS : list Product) (state : State)
    (G : string) :
  (∀ k vs, activeFilters state !! k = Some vs → k ≠ G → vs = []) →
  Forall
    (λ row,
       Forall
         (λ cb, cb_group cb = G →
                (0 < cb_count cb)%nat ∧ cb_disabled cb = false)
         row.2)
    (renderFilterGroups PRODUCTS (buildFilterGroups PRODUCTS) state).
Proof.
  intros Hothers. apply Forall_forall. intros [opened boxes] Hrow.
  apply list_elem_of_lookup in Hrow as [idx Hrow].
  unfold renderFilterGroups in Hrow. rewrite list_lookup_imap in Hrow.
  destruct (buildFilterGroups PRODUCTS !! idx) as [g|] eqn:Hg; [|done].
  injection Hrow as _ <-. simpl.
  apply Forall_forall. intros cb (v & -> & Hv)%list_elem_of_fmap. simpl.
  intros <-.
  assert (g ∈ buildFilterGroups PRODUCTS) as Hin
    by (apply list_elem_of_lookup; eauto).
  apply (group_values PRODUCTS g v Hin) in Hv
    as (_ & p & vs & Hp & Hvs & Hvin).
  assert (0 < countForValue PRODUCTS (activeFilters state) (key g) v)%nat
    as Hpos.
  { rewrite countForValue_count.
    assert (p ∈ filter
              (λ p, carries (key g) v p
                    ∧ passesOthers (activeFilters state) (key g) p)
              PRODUCTS) as Hpin.
    { apply list_elem_of_filter. split; [|done]. split.
      - unfold carries. by rewrite Hvs.
      - intros k sel Hk Hne Hsel. by rewrite (Hothers k sel Hk Hne) in Hsel. }
    destruct (filter _ PRODUCTS); [by apply elem_of_nil in Hpin|simpl; lia]. }
  split; [done|]. rewrite bool_decide_eq_false_2; [done|lia].
Qed.

Lemma checkboxes_enabled_witness :
  Forall
    (λ row,
       Forall
         (λ cb, cb_group cb = "Industry" →
                (0 < cb_count cb)%nat ∧ cb_disabled cb = false)
         row.2)
    (renderFilterGroups [productA; productC]
       (buildFilterGroups [productA; productC]) exampleCanonicalState).
Proof.
  apply checkboxes_enabled. intros k vs Hk Hne. simpl in Hk.
  apply lookup_singleton_Some in Hk as [<- _]. done.
Defined.

(** ** Active filters, pills and checkboxes *)

Lemma totalActiveCount_insert (F : gmap string (list string)) k vs :
  F !! k = None →
  totalActiveCount (<[k := vs]> F) = (length vs + totalActiveCount F)%nat.
Proof.
  intros Hk. unfold totalActiveCount.
  rewrite map_fold_insert_L; [lia| |done].
  intros. lia.
Qed.

Lemma totalActiveCount_delete (F : gmap string (list string)) k vs :
  F !! k = Some vs →
  totalActiveCount F = (length vs + totalActiveCount (delete k F))%nat.
Proof.
  intros Hk. rewrite <- (insert_delete_id F k vs Hk) at 1.
  apply totalActiveCount_insert, lookup_delete_eq.
Qed.

Lemma totalActiveCount_zero (F : gmap string (list string)) :
  totalActiveCount F = 0%nat ↔ ∀ k vs, F !! k = Some vs → vs = [].
Proof.
  induction F as [|k vs F Hk IH] using map_ind.
  - split; [|done]. intros _ k vs. by rewrite lookup_empty.
  - rewrite totalActiveCount_insert by done. split.
    + intros Hz k' vs' Hk'.
      destruct (decide (k = k')) as [<-|Hne].
      * rewrite lookup_insert_eq in Hk'. injection Hk' as <-.
        destruct vs; [done|simpl in Hz; lia].
      * rewrite lookup_insert_ne in Hk' by done.
        apply (proj1 IH) with k'; [lia|done].
    + intros Hall.
      rewrite (Hall k vs) by (by rewrite lookup_insert_eq). simpl.
      apply IH. intros k' vs' Hk'. apply (Hall k').
      rewrite lookup_insert_ne; [done|]. congruence.
Qed.

(** X16. [totalActiveCount] is zero exactly when no key has a non-empty
    selection, and then [filterProducts] returns every list as it is: the
    filter badge is blank if and only if nothing is filtered out by a
    selection. *)
Theorem totalActiveCount_zero_iff (F : gmap string (list string)) :
  (totalActiveCount F = 0%nat ↔ ∀ k vs, F !! k = Some vs → vs = [])
  ∧ (totalActiveCount F = 0%nat ↔ activeKeysOf F = [])
  ∧ (totalActiveCount F = 0%nat → ∀ ps, filterProducts ps F = ps).
Proof.
  assert (activeKeysOf F = [] ↔ ∀ k vs, F !! k = Some vs → vs = []) as Hkeys.
  { split.
    - intros Hnil k vs Hk. destruct vs as [|v vs]; [done|].
      assert (k ∈ activeKeysOf F) as Hin
        by (apply elem_of_activeKeysOf; eauto).
      rewrite Hnil in Hin. by apply elem_of_nil in Hin.
    - intros Hall. destruct (activeKeysOf F) as [|k ks] eqn:Hks; [done|].
      assert (k ∈ activeKeysOf F) as Hin by (rewrite Hks; left).
      apply elem_of_activeKeysOf in Hin as (vs & Hk & Hne).
      by rewrite (Hall k vs Hk) in Hne. }
  split_and!.
  - apply totalActiveCount_zero.
  - by rewrite Hkeys, totalActiveCount_zero.
  - intros Hz ps. unfold filterProducts.
    rewrite decide_True; [done|]. apply Hkeys. by apply totalActiveCount_zero.
Qed.

(** Setting the selection of a key changes [totalActiveCount] by the
    length of the new selection in place of the old one. *)
Theorem totalActiveCount_set (F : gmap string (list string)) (k : string)
    (vs : list string) :
  totalActiveCount (<[k := vs]> F)
  = (length vs + totalActiveCount (delete k F))%nat
  ∧ (totalActiveCount (<[k := vs]> F) + length (default [] (F !! k))
     = totalActiveCount F + length vs)%nat.
Proof.
  assert (totalActiveCount (<[k := vs]> F)
          = (length vs + totalActiveCount (delete k F))%nat) as Hset.
  { rewrite <- insert_delete_eq.
    apply totalActiveCount_insert, lookup_delete_eq. }
  split; [done|]. rewrite Hset.
  destruct (F !! k) as [old|] eqn:Hk; simpl.
  - rewrite (totalActiveCount_delete F k old Hk). lia.
  - rewrite delete_id by done. lia.
Qed.

Lemma pills_length (groups : list FilterGroup)
    (F : gmap string (list string)) :
  NoDup (key <$> groups) →
  (∀ k, is_Some (F !! k) → k ∈ key <$> groups) →
  length (groups ≫= λ group,
            match F !! key group with
            | Some selected => (λ value, (key group, value)) <$> selected
            | None => []
            end)
  = totalActiveCount F.
Proof.
  revert F. induction groups as [|g groups IH]; intros F Hnd Hdom.
  - assert (F = ∅) as ->.
    { apply map_empty. intros k. apply eq_None_not_Some. intros Hk.
      apply Hdom in Hk. by apply elem_of_nil in Hk. }
    done.
  - rewrite fmap_cons in Hnd. apply NoDup_cons in Hnd as [Hg Hnd].
    rewrite bind_cons, length_app.
    assert ((groups ≫= λ group,
               match F !! key group with
               | Some selected => (λ value, (key group, value)) <$> selected
               | None => []
               end)
            = (groups ≫= λ group,
                 match delete (key g) F !! key group with
                 | Some selected => (λ value, (key group, value)) <$> selected
                 | None => []
                 end)) as ->.
    { clear IH Hnd Hdom. induction groups as [|g' groups IH']; [done|].
      rewrite fmap_cons in Hg. apply not_elem_of_cons in Hg as [Hne Hg].
      rewrite !bind_cons, lookup_delete_ne by done. f_equal. by apply IH'. }
    rewrite IH; [|done|].
    + destruct (F !! key g) as [sel|] eqn:Hk.
      * rewrite length_fmap. symmetry. by apply totalActiveCount_delete.
      * rewrite delete_id by done. done.
    + intros k [vs Hk].
      destruct (decide (key g = k)) as [<-|Hne];
        [by rewrite lookup_delete_eq in Hk|].
      rewrite lookup_delete_ne in Hk by done.
      assert (k ∈ key <$> g :: groups) as Hin by (apply Hdom; eauto).
      rewrite fmap_cons in Hin. by apply elem_of_cons in Hin as [->|Hin].
Qed.

(** X17. When the group keys are distinct and every key of
    [activeFilters] is a group key, there are as many pills as
    [totalActiveCount] counts selected values. *)
Theorem activePills_length (FILTER_GROUPS : list FilterGroup) (state : State) :
  NoDup (key <$> FILTER_GROUPS) →
  (∀ k, is_Some (activeFilters state !! k) → k ∈ key <$> FILTER_GROUPS) →
  length (activePills FILTER_GROUPS state)
  = totalActiveCount (activeFilters state).
Proof. intros Hnd Hdom. unfold activePills. by apply pills_length. Qed.

Lemma activePills_length_witness :
  length (activePills exampleGroups exampleCanonicalState)
  = totalActiveCount (activeFilters exampleCanonicalState).
Proof.
  apply activePills_length.
  - apply (bool_decide_unpack _). by vm_compute.
  - intros k [vs Hk]. simpl in Hk.
    apply lookup_singleton_Some in Hk as [<- _].
    apply (bool_decide_unpack _). by vm_compute.
Defined.

Lemma filter_pill k v (sel : list string) (k' : string) :
  filter (λ kv : string * string, kv ≠ (k, v)) ((λ w, (k', w)) <$> sel)
  = (λ w, (k', w))
      <$> (if decide (k' = k) then filter (λ w, w ≠ v) sel else sel).
Proof.
  induction sel as [|w sel IH]; [by case_decide|].
  rewrite fmap_cons, filter_cons, IH. case_decide as Hk.
  - subst k'. rewrite filter_cons.
    destruct (decide (w = v)) as [->|Hw].
    + rewrite decide_False by naive_solver.
      by rewrite decide_False by naive_solver.
    + rewrite decide_True by congruence.
      by rewrite decide_True by done.
  - rewrite decide_True by congruence. done.
Qed.

(** X18. Clicking a pill removes that pill and no other: the pills of the
    new state are the old pills without the occurrences of the clicked
    (key, value) pair, in the same order; the page goes back to 1. *)
Theorem onPillClick_pills (FILTER_GROUPS : list FilterGroup)
    (groupKey value : string) (state : State) :
  activePills FILTER_GROUPS (onPillClick groupKey value state)
  = filter (λ kv, kv ≠ (groupKey, value)) (activePills FILTER_GROUPS state)
  ∧ currentPage (onPillClick groupKey value state) = 1
  ∧ sort (onPillClick groupKey value state) = sort state.
Proof.
  split; [|done]. unfold activePills. simpl.
  induction FILTER_GROUPS as [|g groups IH]; [done|].
  rewrite !bind_cons, filter_app, IH. f_equal.
  destruct (decide (groupKey = key g)) as [->|Hne].
  - rewrite lookup_insert_eq.
    destruct (activeFilters state !! key g) as [sel|]; simpl.
    + by rewrite filter_pill, decide_True.
    + done.
  - rewrite lookup_insert_ne by done.
    destruct (activeFilters state !! key g) as [sel|]; [|done].
    by rewrite filter_pill, decide_False.
Qed.

(** The state change of the checkbox handler, before [update]. *)
Lemma onCheckboxChange_checked (groupKey value : string) (checked : bool)
    (state : State) :
  isChecked (onCheckboxChange groupKey value checked state) groupKey value
  = checked
  ∧ (∀ k w, (k, w) ≠ (groupKey, value) →
       isChecked (onCheckboxChange groupKey value checked state) k w
       = isChecked state k w).
Proof.
  split.
  - unfold isChecked, onCheckboxChange. simpl. rewrite lookup_insert_eq.
    destruct checked.
    + case_decide; [by apply bool_decide_eq_true|].
      apply bool_decide_eq_true, elem_of_app. right. left.
    + apply bool_decide_eq_false. rewrite list_elem_of_filter. naive_solver.
  - intros k w Hne. unfold isChecked, onCheckboxChange. simpl.
    destruct (decide (groupKey = k)) as [<-|Hk].
    + rewrite lookup_insert_eq.
      assert (w ≠ value) as Hw by congruence.
      destruct (activeFilters state !! groupKey) as [sel|]; simpl.
      * destruct checked.
        -- case_decide; [done|]. apply bool_decide_ext.
           rewrite elem_of_app, list_elem_of_singleton. naive_solver.
        -- apply bool_decide_ext. rewrite list_elem_of_filter. naive_solver.
      * destruct checked; simpl.
        -- apply bool_decide_eq_false. rewrite list_elem_of_singleton. done.
        -- done.
    + by rewrite lookup_insert_ne.
Qed.

(** X19. The checkbox handler, called with the group key and the value
    it reads from the data attributes of the box (a key that names no
    member of [Object.prototype]), leaves that pair selected exactly when
    the box is checked and changes the selection of no other pair; it
    keeps [sort] and [collection] and sets the page to 1. The [update]
    that ends it keeps a pending highlight when the document has no grid,
    and otherwise may consume it. *)
Theorem onCheckboxChange_flips_one `{Host} (PRODUCTS : list Product)
    (FILTER_GROUPS : list FilterGroup) (dom : Dom) (groupKey value : string)
    (checked : bool) (state : State) :
  groupKey ∉ Js.OBJECT_PROTOTYPE →
  let after :=
    (checkboxChanged PRODUCTS FILTER_GROUPS dom groupKey value checked
       state).1.2 in
  isChecked after groupKey value = checked
  ∧ (∀ k w, (k, w) ≠ (groupKey, value) →
       isChecked after k w = isChecked state k w)
  ∧ sort after = sort state
  ∧ collection after = collection state
  ∧ currentPage after = 1
  ∧ (shopProductGrid dom = None ∨ nonEmpty (highlightProduct state) = None →
     highlightProduct after = highlightProduct state)
  ∧ (highlightProduct after = highlightProduct state
     ∨ highlightProduct after = None).
Proof.
  intros _ after. subst after. unfold checkboxChanged. rewrite update_state.
  set (changed := onCheckboxChange groupKey value checked state).
  set (sorted := sortedProducts _ _).
  destruct (renderGrid_frame dom changed sorted) as (Hf & Hs & Hc & Hp).
  destruct (onCheckboxChange_checked groupKey value checked state)
    as [Hbox Hothers]. fold changed in Hbox, Hothers.
  assert (∀ k w, isChecked (renderGrid dom changed sorted).2 k w
                 = isChecked changed k w) as Hsame.
  { intros k w. unfold isChecked. by rewrite Hf. }
  assert (highlightProduct changed = highlightProduct state) as Hh by done.
  split_and!.
  - by rewrite Hsame.
  - intros k w Hne. rewrite Hsame. by apply Hothers.
  - by rewrite Hs.
  - by rewrite Hc.
  - by rewrite Hp.
  - intros Hcase. rewrite <- Hh. unfold renderGrid.
    destruct (shopProductGrid dom) as [g|]; [|done].
    case_decide; [done|]. unfold consumeHighlight.
    destruct Hcase as [?|Hnone]; [done|]. by rewrite Hh, Hnone.
  - rewrite <- Hh. unfold renderGrid.
    destruct (shopProductGrid dom) as [g|]; [|by left].
    case_decide; [by left|]. unfold consumeHighlight.
    destruct (nonEmpty (highlightProduct changed)); [by right|by left].
Qed.

Lemma onCheckboxChange_flips_one_witness :
  isChecked
    (checkboxChanged [menBoot] (buildFilterGroups [menBoot]) exampleDom
       "Gender" "Men" true exampleHighlightState).1.2 "Gender" "Men"
  = true.
Proof.
  apply (onCheckboxChange_flips_one (H := exampleHost) [menBoot]
           (buildFilterGroups [menBoot]) exampleDom "Gender" "Men" true
           exampleHighlightState).
  apply (bool_decide_unpack _). by vm_compute.
Defined.

(** Ticking [Men] on the page loaded from [?product=d&Gender=Women], where
    the highlight is still pending, consumes the highlight. *)
Example checkbox_consumes_highlight :
  highlightProduct exampleHighlightState = Some "d"
  ∧ highlightProduct
      (checkboxChanged [menBoot] (buildFilterGroups [menBoot]) exampleDom
         "Gender" "Men" true exampleHighlightState).1.2 = None.
Proof. by vm_compute. Qed.


(** ** URL parameters *)

(** X21. Joining the parts of a split with commas gives the string back,
    and the parts hold no comma; joining a non-empty selection and
    splitting it gives the selection back exactly when no value holds a
    comma. *)
Theorem split_join_round_trip (s : string) (vs : list string) :
  String.concat "," (split "," s) = s
  ∧ split "," s ≠ []
  ∧ Forall commaFree (split "," s)
  ∧ (vs ≠ [] →
     split "," (String.concat "," vs) = vs ↔ Forall commaFree vs).
Proof.
  split_and!.
  - apply concat_split.
  - apply split_nonempty.
  - apply split_commaFree_parts.
  - intros Hne. split.
    + intros <-. apply split_commaFree_parts.
    + by apply split_concat.
Qed.

Lemma foldl_readFilter_ext params params' groups
    (F : gmap string (list string)) :
  (∀ n, n ∈ key <$> groups →
        URLSearchParams.get n params = URLSearchParams.get n params') →
  foldl (readFilter params) F groups = foldl (readFilter params') F groups.
Proof.
  revert F. induction groups as [|g groups IH]; intros F Hget; [done|].
  simpl. unfold readFilter at 2 4.
  rewrite (Hget (key g)) by (rewrite fmap_cons; left).
  apply IH. intros n Hn. apply Hget. rewrite fmap_cons. by right.
Qed.

(** X22. Decoding reads the parameters [collection], [product] and
    [sort] and those named like a filter group, and nothing else: two
    query strings that agree on these decode to the same state. *)
Theorem readURLParams_recognised (FILTER_GROUPS : list FilterGroup)
    (params params' : URLSearchParams.t) (state : State) :
  (∀ n, n ∈ RESERVED_PARAMS ∨ n ∈ key <$> FILTER_GROUPS →
        URLSearchParams.get n params = URLSearchParams.get n params') →
  readURLParams FILTER_GROUPS params state
  = readURLParams FILTER_GROUPS params' state.
Proof.
  intros Hget. unfold readURLParams.
  rewrite (Hget "collection"), (Hget "product"), (Hget "sort")
    by (left; unfold RESERVED_PARAMS; set_solver).
  rewrite (foldl_readFilter_ext params params'); [done|].
  intros n Hn. apply Hget. by right.
Qed.

Lemma readURLParams_recognised_witness :
  readURLParams exampleGroups
    [("utm_source", "mail"); ("Industry", "Welding")] initialState
  = readURLParams exampleGroups [("Industry", "Welding")] initialState.
Proof.
  apply readURLParams_recognised. intros n Hn.
  assert (n ≠ "utm_source") as Hne.
  { intros ->. revert Hn. rewrite exampleGroups_eq.
    unfold RESERVED_PARAMS. set_solver. }
  unfold URLSearchParams.get. simpl.
  by rewrite bool_decide_eq_false_2 by done.
Defined.

Lemma read_filters_lookup FILTER_GROUPS params k vs :
  foldl (readFilter params) ∅ FILTER_GROUPS !! k = Some vs ↔
  k ∈ key <$> FILTER_GROUPS
  ∧ ∃ val, URLSearchParams.get k params = Some val ∧ val ≠ ""
           ∧ vs = split "," val.
Proof.
  rewrite lookup_readFilters, lookup_empty. case_decide as Hin.
  - unfold nonEmpty. destruct (URLSearchParams.get k params) as [val|].
    + case_decide; naive_solver.
    + naive_solver.
  - naive_solver.
Qed.

(** X23. Every selection in a decoded state is non-empty, and sits
    under the key of a filter group, or is the single value that the
    collection of the query string pre-applies, or is [undefined] alone
    under the key ["undefined"], for a collection that names a member of
    [Object.prototype]. *)
Theorem readURLParams_selections (FILTER_GROUPS : list FilterGroup)
    (params : URLSearchParams.t) (state : State) (k : string)
    (vs : list string) :
  activeFilters (readURLParams FILTER_GROUPS params state) !! k = Some vs →
  vs ≠ []
  ∧ (k ∈ key <$> FILTER_GROUPS
     ∨ (∃ c v, URLSearchParams.get "collection" params = Some c
               ∧ COLLECTION_MAP !! c = Some (k, v) ∧ vs = [v])
     ∨ (∃ c, URLSearchParams.get "collection" params = Some c
             ∧ c ∈ Js.OBJECT_PROTOTYPE
             ∧ k = "undefined" ∧ vs = [Js.UNDEFINED])).
Proof.
  simpl. unfold applyCollection. rewrite COLLECTION_MAP_nonEmpty.
  set (F := foldl (readFilter params) ∅ FILTER_GROUPS).
  assert (∀ vs', F !! k = Some vs' →
                 vs' ≠ [] ∧ k ∈ key <$> FILTER_GROUPS) as Hread.
  { intros vs' (Hin & val & _ & _ & ->)%read_filters_lookup.
    split; [apply split_nonempty|done]. }
  destruct (nonEmpty (URLSearchParams.get "collection" params)
            ≫= collectionMapping) as [[k0 v0]|] eqn:Hcoll.
  - apply bind_Some in Hcoll as (c & Hc & Hmap).
    assert (URLSearchParams.get "collection" params = Some c) as Hget.
    { unfold nonEmpty in Hc.
      destruct (URLSearchParams.get "collection" params); [|done].
      by case_decide. }
    rewrite <- COLLECTION_MAP_nonEmpty, Hc. simpl. rewrite Hmap.
    assert (∀ vs', vs' = [v0] →
              (∃ c v, URLSearchParams.get "collection" params = Some c
                      ∧ COLLECTION_MAP !! c = Some (k0, v) ∧ vs' = [v])
              ∨ (∃ c, URLSearchParams.get "collection" params = Some c
                      ∧ c ∈ Js.OBJECT_PROTOTYPE
                      ∧ k0 = "undefined" ∧ vs' = [Js.UNDEFINED])) as Hseed.
    { intros vs' ->.
      apply collectionMapping_Some in Hmap as [Hown|(Hproto & -> & ->)];
        [left|right]; eauto 10. }
    destruct (F !! k0) as [[|x xs]|] eqn:Hk0.
    + destruct (decide (k0 = k)) as [<-|Hne].
      * rewrite lookup_insert_eq. intros [= <-]. split; [done|]. right.
        by apply Hseed.
      * rewrite lookup_insert_ne by done. intros Hk.
        destruct (Hread vs Hk). eauto.
    + intros Hk. destruct (Hread vs Hk). eauto.
    + destruct (decide (k0 = k)) as [<-|Hne].
      * rewrite lookup_insert_eq. intros [= <-]. split; [done|]. right.
        by apply Hseed.
      * rewrite lookup_insert_ne by done. intros Hk.
        destruct (Hread vs Hk). eauto.
  - rewrite <- COLLECTION_MAP_nonEmpty, Hcoll.
    intros Hk. destruct (Hread vs Hk). eauto.
Qed.

Lemma readURLParams_selections_witness :
  [Js.UNDEFINED] ≠ []
  ∧ ("undefined" ∈ key <$> exampleGroups
     ∨ (∃ c v, URLSearchParams.get "collection" [("collection", "constructor")]
               = Some c
               ∧ COLLECTION_MAP !! c = Some ("undefined", v)
               ∧ [Js.UNDEFINED] = [v])
     ∨ (∃ c, URLSearchParams.get "collection" [("collection", "constructor")]
             = Some c
             ∧ c ∈ Js.OBJECT_PROTOTYPE
             ∧ "undefined" = "undefined" ∧ [Js.UNDEFINED] = [Js.UNDEFINED])).
Proof.
  apply (readURLParams_selections exampleGroups
           [("collection", "constructor")] initialState "undefined"
           [Js.UNDEFINED]).
  reflexivity.
Defined.

(** A collection named like a member of [Object.prototype] selects
    [undefined], which no product carries: the page shows no product. *)
Example inherited_collection_scenario :
  activeFilters
    (readURLParams exampleGroups [("collection", "constructor")] initialState)
  = {[ "undefined" := [Js.UNDEFINED] ]}
  ∧ filterProducts [productA; productB; productC]
      (activeFilters
         (readURLParams exampleGroups [("collection", "constructor")]
            initialState))
    = []
  ∧ writeURLParams exampleGroups
      (readURLParams exampleGroups [("collection", "constructor")]
         initialState)
    = [("collection", "constructor")].
Proof. by vm_compute. Qed.

(** X24. A non-empty parameter named like a filter group decides the
    selection of that group, whatever the collection; a known collection
    selects its value under its key when that key is no group or has no
    non-empty parameter. *)
Theorem readURLParams_collection (FILTER_GROUPS : list FilterGroup)
    (params : URLSearchParams.t) (state : State) :
  (∀ k val, k ∈ key <$> FILTER_GROUPS →
     URLSearchParams.get k params = Some val → val ≠ "" →
     activeFilters (readURLParams FILTER_GROUPS params state) !! k
     = Some (split "," val))
  ∧ (∀ c k v, URLSearchParams.get "collection" params = Some c →
       COLLECTION_MAP !! c = Some (k, v) →
       k ∉ key <$> FILTER_GROUPS
       ∨ nonEmpty (URLSearchParams.get k params) = None →
       activeFilters (readURLParams FILTER_GROUPS params state) !! k
       = Some [v]).
Proof.
  simpl. unfold applyCollection.
  set (F := foldl (readFilter params) ∅ FILTER_GROUPS).
  split.
  - intros k val Hin Hget Hval.
    assert (F !! k = Some (split "," val)) as Hk.
    { apply read_filters_lookup. split; [done|]. eauto. }
    destruct (nonEmpty (URLSearchParams.get "collection" params)
              ≫= collectionMapping) as [[k0 v0]|]; [|done].
    destruct (decide (k0 = k)) as [->|Hne].
    + rewrite Hk. pose proof (split_nonempty val).
      by destruct (split "," val).
    + destruct (F !! k0) as [[|x xs]|]; [|done|];
        by rewrite lookup_insert_ne.
  - intros c k v Hget Hmap Hfree.
    assert (c ≠ "") as Hc by (by intros ->).
    unfold nonEmpty at 1. rewrite Hget, decide_False by done. simpl.
    assert (collectionMapping c = Some (k, v)) as ->
      by (apply collectionMapping_Some; by left).
    assert (F !! k = None) as Hk.
    { apply eq_None_not_Some. intros [vs Hvs].
      apply read_filters_lookup in Hvs as (Hin & val & Hval & Hne & _).
      destruct Hfree as [?|Hnone]; [done|].
      unfold nonEmpty in Hnone. rewrite Hval in Hnone.
      by rewrite decide_False in Hnone. }
    by rewrite Hk, lookup_insert_eq.
Qed.

Lemma not_elem_of_set_names name value n (params : URLSearchParams.t) :
  n ≠ name → n ∉ params.*1 → n ∉ (URLSearchParams.set name value params).*1.
Proof.
  intros Hne. induction params as [|[m v] params IH]; simpl.
  - intros _. rewrite list_elem_of_singleton. done.
  - rewrite not_elem_of_cons. intros [Hm Hn]. case_decide.
    + simpl. rewrite not_elem_of_cons. split; [done|].
      intros ([m' v'] & -> & [_ Hin]%list_elem_of_filter)%list_elem_of_fmap.
      apply Hn. apply list_elem_of_fmap. by exists (m', v').
    + simpl. rewrite not_elem_of_cons. split; [done|]. by apply IH.
Qed.

Lemma NoDup_set_names name value (params : URLSearchParams.t) :
  NoDup params.*1 → NoDup (URLSearchParams.set name value params).*1.
Proof.
  induction params as [|[m v] params IH]; simpl.
  - intros _. apply NoDup_singleton.
  - intros [Hm Hnd]%NoDup_cons. case_decide as Hname.
    + subst m. simpl. apply NoDup_cons. split.
      * intros ([m' v'] & Heq & [Hne _]%list_elem_of_filter)%list_elem_of_fmap.
        simpl in *. congruence.
      * eapply sublist_NoDup; [exact Hnd|].
        apply fmap_sublist, sublist_filter.
    + simpl. apply NoDup_cons. split; [|by apply IH].
      by apply not_elem_of_set_names.
Qed.

(** [writeURLParams] writes no parameter name twice. *)
Theorem writeURLParams_names_distinct (FILTER_GROUPS : list FilterGroup)
    (state : State) :
  NoDup (writeURLParams FILTER_GROUPS state).*1.
Proof.
  unfold writeURLParams.
  assert (∀ params : URLSearchParams.t,
            NoDup params.*1 →
            NoDup (foldl (writeFilter state) params FILTER_GROUPS).*1) as Hfold.
  { induction FILTER_GROUPS as [|g groups IH]; intros params Hnd; [done|].
    simpl. apply IH. unfold writeFilter.
    destruct (activeFilters state !! key g) as [[|v vs]|]; try done.
    by apply NoDup_set_names. }
  apply Hfold.
  destruct (nonEmpty (collection state)) as [c|];
    repeat case_decide; simpl;
    repeat (apply NoDup_cons; split; [set_solver|]); apply NoDup_nil_2.
Qed.

(** X25. With distinct group keys, none of them [collection], [product]
    or [sort], the written parameters are: the collection if set, then the
    sort if it is not the default, then one parameter per group with a
    non-empty selection, in the order of the groups, its value the
    selection joined by commas in the order of selection. *)
Theorem writeURLParams_order (FILTER_GROUPS : list FilterGroup)
    (state : State) :
  NoDup (key <$> FILTER_GROUPS) →
  (∀ g, g ∈ FILTER_GROUPS → key g ∉ RESERVED_PARAMS) →
  writeURLParams FILTER_GROUPS state = expectedParams FILTER_GROUPS state.
Proof.
  intros Hnd Hres. unfold writeURLParams, expectedParams.
  rewrite foldl_writeFilter_fresh; [|done|].
  - rewrite app_assoc. f_equal.
    destruct (nonEmpty (collection state)) as [c|]; by repeat case_decide.
  - intros g Hg. specialize (Hres g Hg). unfold RESERVED_PARAMS in Hres.
    destruct (nonEmpty (collection state)) as [c|];
      repeat case_decide; simpl; set_solver.
Qed.

Lemma writeURLParams_order_witness :
  writeURLParams exampleGroups exampleCanonicalState
  = expectedParams exampleGroups exampleCanonicalState.
Proof.
  apply writeURLParams_order.
  - apply (bool_decide_unpack _). by vm_compute.
  - intros g Hg. rewrite exampleGroups_eq in Hg.
    apply list_elem_of_singleton in Hg as ->.
    apply (bool_decide_unpack _). by vm_compute.
Defined.

Lemma foldl_writeFilter_empty state groups (params : URLSearchParams.t) :
  activeFilters state = ∅ →
  foldl (writeFilter state) params groups = params.
Proof.
  intros Hempty. revert params.
  induction groups as [|g groups IH]; intros params; [done|].
  simpl. unfold writeFilter at 2. rewrite Hempty, lookup_empty. apply IH.
Qed.

(** After the clear-all action the query string holds the sort
    parameter if the sort is not the default, and nothing else. *)
Theorem clearAllFilters_query `{Host} (PRODUCTS : list Product)
    (FILTER_GROUPS : list FilterGroup) (dom : Dom) (state : State) :
  (clearAllFilters PRODUCTS FILTER_GROUPS dom state).2
  = if decide (sort state = "") then []
    else if decide (sort state = "featured") then []
    else [("sort", sort state)].
Proof.
  unfold clearAllFilters, update.
  set (cleared := {| activeFilters := ∅; sort := sort state;
                     collection := None;
                     highlightProduct := highlightProduct state;
                     currentPage := 1 |}).
  destruct (renderGrid_frame dom cleared
              (sortedProducts
                 (filterProducts PRODUCTS (activeFilters cleared))
                 (sort cleared))) as (Hf & Hs & Hc & _).
  destruct (renderGrid dom cleared _) as [dom' state']. simpl in *.
  unfold writeURLParams. rewrite foldl_writeFilter_empty by done.
  rewrite Hc, Hs. simpl. by repeat case_decide.
Qed.

(** ** The update cycle, load-more and start-up *)


Lemma take_prefix_le {A} (l : list A) (a b : nat) :
  (a ≤ b)%nat → take a l `prefix_of` take b l.
Proof.
  intros Hab. rewrite <- (Nat.min_l a b Hab), <- take_take.
  apply prefix_take.
Qed.

Section more_update_facts.
Context `{Host}.
Context (PRODUCTS : list Product) (FILTER_GROUPS : list FilterGroup).

Lemma update_dom dom state :
  (update PRODUCTS FILTER_GROUPS dom state).1.1
  = (renderGrid dom state
       (sortedProducts (filterProducts PRODUCTS (activeFilters state))
          (sort state))).1.
Proof. unfold update. by destruct (renderGrid _ _ _). Qed.

Lemma update_query dom state :
  (update PRODUCTS FILTER_GROUPS dom state).2
  = writeURLParams FILTER_GROUPS state.
Proof.
  unfold update.
  destruct (renderGrid_frame dom state
              (sortedProducts (filterProducts PRODUCTS (activeFilters state))
                 (sort state))) as (Hf & Hs & Hc & _).
  destruct (renderGrid dom state _) as [dom' state']. simpl in *.
  apply writeURLParams_ext; [done..|by rewrite Hc].
Qed.

Lemma renderGrid_cards dom state products g :
  shopProductGrid (renderGrid dom state products).1 = Some g →
  is_Some (shopProductGrid dom) →
  cards g = Js.slice0 products (currentPage state * ITEMS_PER_PAGE).
Proof.
  unfold renderGrid. intros Hg [g0 Hg0]. rewrite Hg0 in Hg.
  case_decide as Hlen; simpl in Hg; injection Hg as <-; simpl; [|done].
  destruct products; [|done]. unfold Js.slice0.
  case_match; by rewrite take_nil.
Qed.

Lemma renderGrid_grid_kept dom state products :
  is_Some (shopProductGrid (renderGrid dom state products).1)
  ↔ is_Some (shopProductGrid dom).
Proof.
  unfold renderGrid. destruct (shopProductGrid dom) as [g0|] eqn:Hg0.
  - case_decide; simpl; split; eauto.
  - simpl. by rewrite Hg0.
Qed.


(** X27. Load-more keeps what the grid showed and adds to its end: the
    cards [update] shows for a state are an initial part of the cards shown
    after the load-more click, which are the first [min n (12 * (p + 1))]
    of the [n] sorted filtered products; filters and sort stay. *)
Theorem onLoadMore_extends (dom : Dom) (state : State) (g1 g2 : Grid) :
  0 ≤ currentPage state →
  shopProductGrid (update PRODUCTS FILTER_GROUPS dom state).1.1 = Some g1 →
  shopProductGrid (onLoadMore PRODUCTS dom state).1 = Some g2 →
  cards g1 `prefix_of` cards g2
  ∧ cards g2
    = take (Z.to_nat (12 * (currentPage state + 1)))
        (sortedProducts (filterProducts PRODUCTS (activeFilters state))
           (sort state))
  ∧ currentPage (onLoadMore PRODUCTS dom state).2 = currentPage state + 1
  ∧ activeFilters (onLoadMore PRODUCTS dom state).2 = activeFilters state
  ∧ sort (onLoadMore PRODUCTS dom state).2 = sort state.
Proof.
  intros Hpage. rewrite update_dom. unfold onLoadMore. simpl.
  set (sorted := sortedProducts
                   (filterProducts PRODUCTS (activeFilters state))
                   (sort state)).
  set (next := {| activeFilters := activeFilters state; sort := sort state;
                  collection := collection state;
                  highlightProduct := highlightProduct state;
                  currentPage := currentPage state + 1 |}).
  intros Hg1 Hg2.
  assert (is_Some (shopProductGrid dom)) as Hdom.
  { eapply renderGrid_grid_kept. eauto. }
  rewrite (renderGrid_cards _ _ _ _ Hg1 Hdom).
  rewrite (renderGrid_cards _ _ _ _ Hg2 Hdom).
  destruct (renderGrid_frame dom next sorted) as (-> & -> & _ & ->).
  unfold ITEMS_PER_PAGE. simpl. rewrite !slice0_take by lia.
  split_and!; try done.
  - apply take_prefix_le. lia.
  - f_equal. lia.
Qed.
End more_update_facts.


Lemma onLoadMore_extends_witness :
  [productA; productC] `prefix_of` [productA; productC].
Proof.
  apply (onLoadMore_extends (H := exampleHost)
           [productA; productB; productC] exampleGroups exampleDom
           exampleCanonicalState
           {| cards := [productA; productC]; gridShown := true |}
           {| cards := [productA; productC]; gridShown := true |}).
  - simpl. lia.
  - by vm_compute.
  - by vm_compute.
Defined.

Section init_facts.
Context `{Host}.

Lemma featured_sorted_id (l : list Product) sortKey :
  byFeatured sortKey →
  StronglySorted (λ a b, p_featured a < p_featured b)%nat l →
  sortedProducts l sortKey = l.
Proof.
  intros Hkey Hs.
  rewrite sortedProducts_stable_key by (by destruct Hkey as (_ & _ & ?)).
  apply sort_sorted_id.
  induction Hs as [|x l Hs IH Hall]; [constructor|].
  constructor; [done|]. eapply Forall_impl; [exact Hall|].
  intros y Hlt. simpl in Hlt |- *.
  apply (not_true_false_iff _ _ (featured_before sortKey y x Hkey)). lia.
Qed.

Lemma read_no_params groups (F : gmap string (list string)) :
  foldl (readFilter []) F groups = F.
Proof.
  revert F. induction groups as [|g groups IH]; intros F; [done|].
  simpl. apply IH.
Qed.

Lemma readURLParams_no_params groups :
  readURLParams groups [] initialState = initialState.
Proof.
  unfold readURLParams, initialState. simpl. by rewrite read_no_params.
Qed.

(** The state and the document [init] reaches, in terms of the parts. *)
Lemma init_parts clock el search dom :
  let PRODUCTS := (loadShopifyProducts clock el).1 in
  let FILTER_GROUPS := buildFilterGroups PRODUCTS in
  let decoded := readURLParams FILTER_GROUPS search initialState in
  let sorted :=
    sortedProducts (filterProducts PRODUCTS (activeFilters decoded))
      (sort decoded) in
  pg_products (init clock el search dom) = PRODUCTS
  ∧ pg_groups (init clock el search dom) = FILTER_GROUPS
  ∧ pg_dom (init clock el search dom) = (renderGrid dom decoded sorted).1
  ∧ pg_state (init clock el search dom) = (renderGrid dom decoded sorted).2
  ∧ pg_query (init clock el search dom)
    = writeURLParams FILTER_GROUPS decoded
  ∧ pg_quickView (init clock el search dom)
    = match nonEmpty (highlightProduct (renderGrid dom decoded sorted).2) with
      | Some pid =>
          match findProduct PRODUCTS pid with
          | Some _ => Some pid
          | None => None
          end
      | None => None
      end
  ∧ pg_diagnostics (init clock el search dom)
    = (loadShopifyProducts clock el).2.
Proof.
  intros PRODUCTS FILTER_GROUPS decoded sorted. unfold init.
  pose proof (update_query PRODUCTS FILTER_GROUPS dom decoded) as Hq.
  pose proof (update_dom PRODUCTS FILTER_GROUPS dom decoded) as Hd.
  pose proof (update_state PRODUCTS FILTER_GROUPS dom decoded) as Hs.
  fold sorted in Hd, Hs.
  subst PRODUCTS FILTER_GROUPS decoded.
  destruct (loadShopifyProducts clock el) as [P diag]. simpl in *.
  destruct (update P (buildFilterGroups P) dom _) as [[dom' state'] query].
  simpl in *. by subst.
Qed.

(** X28. Loaded without query parameters, on a document with a grid,
    the page has no active filter, the default sort and an empty query
    string, schedules no quick view, and shows the first twelve products
    of the feed in the order of the feed. *)
Theorem init_without_query (clock : nat → Z) (el : option Parse) (dom : Dom) :
  is_Some (shopProductGrid dom) →
  pg_state (init clock el [] dom) = initialState
  ∧ pg_query (init clock el [] dom) = []
  ∧ pg_quickView (init clock el [] dom) = None
  ∧ cards <$> shopProductGrid (pg_dom (init clock el [] dom))
    = Some (take 12 (loadShopifyProducts clock el).1).
Proof.
  intros [g0 Hg0].
  destruct (init_parts clock el [] dom) as (_ & _ & -> & -> & -> & -> & _).
  rewrite !readURLParams_no_params. simpl.
  rewrite filterProducts_empty.
  rewrite featured_sorted_id by (done || apply loaded_featured_sorted).
  assert ((renderGrid dom initialState (loadShopifyProducts clock el).1).2
          = initialState) as Hstate.
  { unfold renderGrid. rewrite Hg0. by case_decide. }
  rewrite Hstate. split_and!; try done.
  - unfold writeURLParams. simpl. by rewrite foldl_writeFilter_empty.
  - unfold renderGrid. rewrite Hg0. case_decide as Hlen; simpl.
    + by destruct (loadShopifyProducts clock el).1.
    + done.
Qed.

Lemma decoded_highlight groups search state :
  nonEmpty (highlightProduct (readURLParams groups search state))
  = highlightProduct (readURLParams groups search state).
Proof. simpl. apply nonEmpty_idemp. Qed.

(** X29. On start-up the quick view of the product named by the
    [product] parameter is scheduled exactly when that product is in the
    catalog and the grid was not rendered with products, that is, when the
    document has no grid or no product passes the decoded filters: a grid
    rendered with products consumes the highlight before it is read. *)
Theorem init_quickView (clock : nat → Z) (el : option Parse)
    (search : URLSearchParams.t) (dom : Dom) (pid : string) :
  pg_quickView (init clock el search dom) = Some pid ↔
  highlightProduct
    (readURLParams (buildFilterGroups (loadShopifyProducts clock el).1)
       search initialState) = Some pid
  ∧ is_Some (findProduct (loadShopifyProducts clock el).1 pid)
  ∧ (shopProductGrid dom = None
     ∨ filterProducts (loadShopifyProducts clock el).1
         (activeFilters
            (readURLParams
               (buildFilterGroups (loadShopifyProducts clock el).1)
               search initialState)) = []).
Proof.
  destruct (init_parts clock el search dom) as (_ & _ & _ & _ & _ & -> & _).
  set (PRODUCTS := (loadShopifyProducts clock el).1).
  set (decoded := readURLParams (buildFilterGroups PRODUCTS) search
                    initialState).
  set (filtered := filterProducts PRODUCTS (activeFilters decoded)).
  pose proof (decoded_highlight (buildFilterGroups PRODUCTS) search
                initialState) as Hhl. fold decoded in Hhl.
  assert (length (sortedProducts filtered (sort decoded)) = length filtered)
    as Hlen by apply Permutation_length, sortedProducts_Permutation.
  clearbody filtered. clearbody decoded. clearbody PRODUCTS.
  unfold renderGrid.
  destruct (shopProductGrid dom) as [g0|] eqn:Hg0.
  - case_decide as Hempty; simpl.
    + rewrite Hlen in Hempty. apply length_zero_iff_nil in Hempty.
      rewrite Hhl.
      destruct (highlightProduct decoded) as [h|]; [|naive_solver].
      destruct (findProduct PRODUCTS h) eqn:Hfind.
      * split; [intros [= <-]; rewrite Hfind; eauto|naive_solver].
      * split; [done|]. intros ([= <-] & [? Hsome] & _). congruence.
    + rewrite Hlen in Hempty.
      assert (filtered ≠ []) as Hne by (by destruct filtered).
      unfold consumeHighlight. rewrite Hhl.
      destruct (highlightProduct decoded) as [h|] eqn:Hh; simpl;
        [|rewrite Hh]; naive_solver.
  - simpl. rewrite Hhl.
    destruct (highlightProduct decoded) as [h|]; [|naive_solver].
    destruct (findProduct PRODUCTS h) eqn:Hfind.
    + split; [intros [= <-]; rewrite Hfind; eauto|naive_solver].
    + split; [done|]. intros ([= <-] & [? Hsome] & _). congruence.
Qed.

(** X30. When the feed is absent or does not parse, start-up still
    completes: the catalog and the filter groups are empty, the grid is
    hidden without cards, the empty state is displayed and the pagination
    hidden, whatever the query string; no quick view is scheduled. *)
Theorem init_without_feed (clock : nat → Z) (el : option Parse)
    (search : URLSearchParams.t) (dom : Dom) :
  el = None ∨ el = Some SyntaxError →
  pg_products (init clock el search dom) = []
  ∧ pg_groups (init clock el search dom) = []
  ∧ pg_quickView (init clock el search dom) = None
  ∧ (is_Some (shopProductGrid dom) →
     shopProductGrid (pg_dom (init clock el search dom))
     = Some {| cards := []; gridShown := false |}
     ∧ shopEmptyState (pg_dom (init clock el search dom))
       = (λ _, true) <$> shopEmptyState dom
     ∧ shopPagination (pg_dom (init clock el search dom))
       = (λ _, false) <$> shopPagination dom).
Proof.
  intros Hel.
  destruct (init_parts clock el search dom)
    as (-> & -> & -> & _ & _ & -> & _).
  assert ((loadShopifyProducts clock el).1 = []) as ->
    by (by destruct Hel as [-> | ->]).
  assert (∀ F, filterProducts [] F = []) as Hnone.
  { intros F. by rewrite filterProducts_filter. }
  assert (∀ sortKey, sortedProducts [] sortKey = []) as Hsorted.
  { intros sortKey. apply Permutation_nil_r, sortedProducts_Permutation. }
  rewrite Hnone, Hsorted.
  split_and!; try done.
  - by case_match.
  - intros [g0 Hg0]. unfold renderGrid. by rewrite Hg0.
Qed.
End init_facts.

Lemma init_without_query_witness :
  pg_query
    (init (λ _, 0) (Some (Parsed [exampleRaw 50 None None])) [] exampleDom)
  = [].
Proof.
  apply (init_without_query (H := exampleHost)). by eexists.
Defined.

Lemma init_without_feed_witness :
  pg_products (init (λ _, 0) None [("sort", "newest")] exampleDom) = [].
Proof.
  apply (init_without_feed (H := exampleHost)). by left.
Defined.

Example quickView_scheduled_without_results :
  pg_quickView
    (init (λ _, 0) (Some (Parsed [exampleRaw 50 None None]))
       [("product", "1"); ("Industry", "Chemical")] exampleDom)
  = Some "1".
Proof. by vm_compute. Qed.

Example quickView_not_scheduled_with_results :
  pg_quickView
    (init (λ _, 0) (Some (Parsed [exampleRaw 50 None None]))
       [("product", "1")] exampleDom)
  = None.
Proof. by vm_compute. Qed.
